(** * Message-as-database leaderboard: state codec, merge, ranking, renderer

    A shallow embedding of the four JavaScript modules of the repository
    (parser.js, storage.js, renderer.js and the merge loop of sync.js) and
    the properties of the specification checked against them; then
    [fetchMessages] of discord.js and [syncGame] of sync.js as functions
    of what Discord answers, and further properties of the code.

    Modelling conventions.
    - A JavaScript string is the list of its UTF-16 code units ([list N]);
      [length] is the [.length] of the string.
    - A JavaScript number that the program handles is an integer or NaN
      ([jsnum]).  Integers are exact here; the program's doubles agree with
      them up to 2^53 - 1 (Number.MAX_SAFE_INTEGER).  Beyond that the
      program rounds, and from about 309 digits [parseInt] answers
      Infinity: the statements about numbers read from text are made
      for tokens within that range.
    - [null]/[undefined] results are [None].
    - Engine services the source calls but does not define (wall clock,
      locale formatting, case mapping, the legacy fallback of [Date.parse],
      the Discord user lookup, the request for the messages of a channel)
      are Variables of the sections that use them. *)

From Stdlib Require Import ZArith NArith List Lia Bool String Ascii.
From Stdlib Require Import Decimal DecimalZ DecimalN DecimalPos.
From Stdlib Require DecimalFacts.
From Stdlib Require Import Permutation Sorted.
From stdpp Require Import base list.
From Equations Require Import Equations.

Local Open Scope Z_scope.

(** ** JavaScript strings *)

Abbreviation jsstring := (list N).

Definition lit (s : string) : jsstring :=
  List.map N_of_ascii (list_ascii_of_string s).
Arguments lit _%_string.

(** The code units the program names. *)
Module Ch.
Definition LF : N := 10.
Definition BANG : N := 33.
Definition PLUS : N := 43.
Definition MINUS : N := 45.
Definition LT : N := 60.
Definition GT : N := 62.
Definition AT : N := 64.
Definition PIPE : N := 124.
End Ch.

(** WhiteSpace and LineTerminator code units: what [String.prototype.trim],
    the regular expression class [\s] and [parseInt] strip. *)
Definition isWhiteSpace (c : N) : bool :=
  ((c =? 9) || (c =? 10) || (c =? 11) || (c =? 12) || (c =? 13) || (c =? 32)
   || (c =? 0xA0) || (c =? 0x1680) || ((0x2000 <=? c) && (c <=? 0x200A))
   || (c =? 0x2028) || (c =? 0x2029) || (c =? 0x202F) || (c =? 0x205F)
   || (c =? 0x3000) || (c =? 0xFEFF))%N.

(** LineTerminator: what the regular expression [.] refuses. *)
Definition isLineTerminator (c : N) : bool :=
  ((c =? 10) || (c =? 13) || (c =? 0x2028) || (c =? 0x2029))%N.

(** [\d] *)
Definition isDigit (c : N) : bool := ((48 <=? c) && (c <=? 57))%N.

Fixpoint dropWhile {A} (f : A -> bool) (l : list A) : list A :=
  match l with
  | [] => []
  | x :: l' => if f x then dropWhile f l' else l
  end.

Fixpoint takeWhile {A} (f : A -> bool) (l : list A) : list A :=
  match l with
  | [] => []
  | x :: l' => if f x then x :: takeWhile f l' else []
  end.

Definition trimStart (s : jsstring) : jsstring := dropWhile isWhiteSpace s.
Definition trimEnd (s : jsstring) : jsstring :=
  rev (dropWhile isWhiteSpace (rev s)).
Definition trim (s : jsstring) : jsstring := trimEnd (trimStart s).

Fixpoint startsWith (p s : jsstring) : bool :=
  match p, s with
  | [], _ => true
  | _ :: _, [] => false
  | a :: p', b :: s' => (a =? b)%N && startsWith p' s'
  end.

(** [s.indexOf(m)]: the first position where [m] occurs, or -1. *)
Fixpoint indexOf (m s : jsstring) : Z :=
  if startsWith m s then 0
  else match s with
       | [] => -1
       | _ :: s' => let r := indexOf m s' in if r <? 0 then -1 else r + 1
       end.

(** [s.substring(a, b)]: both ends clamped to [0, length], swapped when
    [a > b]. *)
Definition substring (s : jsstring) (a b : Z) : jsstring :=
  let len := Z.of_nat (length s) in
  let a' := Z.min (Z.max a 0) len in
  let b' := Z.min (Z.max b 0) len in
  let lo := Z.min a' b' in
  let hi := Z.max a' b' in
  take (Z.to_nat (hi - lo)) (drop (Z.to_nat lo) s).

(** [s.split(c)] for a one-unit separator. *)
Fixpoint splitOn (c : N) (s : jsstring) : list jsstring :=
  match s with
  | [] => [[]]
  | x :: s' =>
      if (x =? c)%N then [] :: splitOn c s'
      else match splitOn c s' with
           | h :: t => (x :: h) :: t
           | [] => [[x]]
           end
  end.

(** [l.join(sep)] on strings. *)
Fixpoint join (sep : jsstring) (l : list jsstring) : jsstring :=
  match l with
  | [] => []
  | [x] => x
  | x :: l' => x ++ sep ++ join sep l'
  end.

(** [s.split(/\s+/)]: cut at every maximal run of white space. *)
Fixpoint splitWs (s : jsstring) : list jsstring :=
  match s with
  | [] => [[]]
  | x :: s' =>
      if isWhiteSpace x then
        match s' with
        | y :: _ => if isWhiteSpace y then splitWs s' else [] :: splitWs s'
        | [] => [[]; []]
        end
      else match splitWs s' with
           | h :: t => (x :: h) :: t
           | [] => [[x]]
           end
  end.

(** ** JavaScript numbers *)

Inductive jsnum : Type :=
| NaN
| Int (z : Z).

Definition jsnum_eqb (a b : jsnum) : bool :=
  match a, b with
  | Int x, Int y => x =? y
  | _, _ => false
  end.

(** [a < b] on numbers: false as soon as one side is NaN. *)
Definition jsnum_ltb (a b : jsnum) : bool :=
  match a, b with
  | Int x, Int y => x <? y
  | _, _ => false
  end.

Definition jsnum_sub (a b : jsnum) : jsnum :=
  match a, b with
  | Int x, Int y => Int (x - y)
  | _, _ => NaN
  end.

Definition isNaN (a : jsnum) : bool :=
  match a with NaN => true | Int _ => false end.

Fixpoint uintChars (u : uint) : jsstring :=
  match u with
  | Nil => []
  | D0 u => 48%N :: uintChars u
  | D1 u => 49%N :: uintChars u
  | D2 u => 50%N :: uintChars u
  | D3 u => 51%N :: uintChars u
  | D4 u => 52%N :: uintChars u
  | D5 u => 53%N :: uintChars u
  | D6 u => 54%N :: uintChars u
  | D7 u => 55%N :: uintChars u
  | D8 u => 56%N :: uintChars u
  | D9 u => 57%N :: uintChars u
  end.

Definition consDigit (c : N) (u : uint) : uint :=
  match c with
  | 48%N => D0 u
  | 49%N => D1 u
  | 50%N => D2 u
  | 51%N => D3 u
  | 52%N => D4 u
  | 53%N => D5 u
  | 54%N => D6 u
  | 55%N => D7 u
  | 56%N => D8 u
  | 57%N => D9 u
  | _ => u
  end.

(** The longest prefix of decimal digits, as a decimal numeral. *)
Fixpoint digitPrefix (s : jsstring) : uint :=
  match s with
  | [] => Nil
  | c :: s' => if isDigit c then consDigit c (digitPrefix s') else Nil
  end.

(** [String(n)] as [Array.prototype.join] and template literals apply it.
    An integer is printed in full, as the source prints it below 10^21. *)
Definition Number_toString (n : jsnum) : jsstring :=
  match n with
  | NaN => lit "NaN"
  | Int z =>
      match Z.to_int z with
      | Decimal.Pos u => uintChars u
      | Decimal.Neg u => Ch.MINUS :: uintChars u
      end
  end.

(** [parseInt(s, 10)]: leading white space, an optional sign, then the
    longest run of digits; NaN when that run is empty.  The value is the
    integer that the digits denote; the double that the source returns
    equals it up to 2^53 - 1, is the nearest double beyond, and is
    Infinity from about 309 digits. *)
Definition parseInt (s : jsstring) : jsnum :=
  let s1 := trimStart s in
  let '(neg, s2) :=
    match s1 with
    | c :: r =>
        if (c =? Ch.MINUS)%N then (true, r)
        else if (c =? Ch.PLUS)%N then (false, r)
        else (false, s1)
    | [] => (false, s1)
    end in
  match digitPrefix s2 with
  | Nil => NaN
  | u => Int (if neg then - Z.of_uint u else Z.of_uint u)
  end.

(** ** Small helpers on strings *)

Definition isEmpty {A} (s : list A) : bool :=
  match s with [] => true | _ :: _ => false end.

(** [s || d] on strings: the empty string is falsy. *)
Definition orElse (s d : jsstring) : jsstring :=
  match s with [] => d | _ :: _ => s end.

Fixpoint str_eqb (a b : jsstring) : bool :=
  match a, b with
  | [], [] => true
  | x :: a', y :: b' => (x =? y)%N && str_eqb a' b'
  | _, _ => false
  end.

Definition padStart (n : nat) (s : jsstring) : jsstring :=
  repeat 48%N (n - length s) ++ s.

(** ** Dates *)

Definition msPerDay : Z := 86400000.

(** Days since 1970-01-01 of a proleptic Gregorian date; a day beyond the
    end of its month runs over into the next one, as [MakeDay] does. *)
Definition daysFromCivil (y m d : Z) : Z :=
  let y' := if m <=? 2 then y - 1 else y in
  let era := y' / 400 in
  let yoe := y' - era * 400 in
  let mp := (m + 9) mod 12 in
  let doy := (153 * mp + 2) / 5 + d - 1 in
  let doe := yoe * 365 + yoe / 4 - yoe / 100 + doy in
  era * 146097 + doe - 719468.

Definition civilFromDays (z : Z) : Z * Z * Z :=
  let z := z + 719468 in
  let era := z / 146097 in
  let doe := z - era * 146097 in
  let yoe := (doe - doe / 1460 + doe / 36524 - doe / 146096) / 365 in
  let y := yoe + era * 400 in
  let doy := doe - (365 * yoe + yoe / 4 - yoe / 100) in
  let mp := (5 * doy + 2) / 153 in
  let d := doy - (153 * mp + 2) / 5 + 1 in
  let m := if mp <? 10 then mp + 3 else mp - 9 in
  (if m <=? 2 then y + 1 else y, m, d).

(** The groups of [/^(\d{4})-(\d{2})-(\d{2})$/]. *)
Definition matchDate (s : jsstring) : option (jsstring * jsstring * jsstring) :=
  match s with
  | [y1; y2; y3; y4; h1; m1; m2; h2; d1; d2] =>
      if isDigit y1 && isDigit y2 && isDigit y3 && isDigit y4
         && (h1 =? Ch.MINUS)%N && isDigit m1 && isDigit m2
         && (h2 =? Ch.MINUS)%N && isDigit d1 && isDigit d2
      then Some ([y1; y2; y3; y4], [m1; m2], [d1; d2])
      else None
  | _ => None
  end.

(** [/^\d{4}-\d{2}-\d{2}$/.test(s)] *)
Definition testDate (s : jsstring) : bool :=
  match matchDate s with Some _ => true | None => false end.

Definition digitsValue (s : jsstring) : Z := Z.of_uint (digitPrefix s).

(** The date-only ISO form as the engine (V8) reads it: month 1..12 and day
    1..31, UTC midnight. *)
Definition isoDateOnly (s : jsstring) : option Z :=
  match matchDate s with
  | Some (y, m, d) =>
      let mz := digitsValue m in
      let dz := digitsValue d in
      if (1 <=? mz) && (mz <=? 12) && (1 <=? dz) && (dz <=? 31)
      then Some (daysFromCivil (digitsValue y) mz dz * msPerDay)
      else None
  | None => None
  end.

Definition decimal (z : Z) : jsstring := Number_toString (Int z).

(** [new Date(t).toISOString().split('T')[0]] for a valid time value. *)
Definition isoDatePart (t : Z) : jsstring :=
  let '(y, m, d) := civilFromDays (t / msPerDay) in
  (if (0 <=? y) && (y <=? 9999) then padStart 4 (decimal y)
   else (if y <? 0 then Ch.MINUS else Ch.PLUS)
          :: padStart 6 (decimal (Z.abs y)))
  ++ [Ch.MINUS] ++ padStart 2 (decimal m)
  ++ [Ch.MINUS] ++ padStart 2 (decimal d).

(** [a < b] on Date objects: on their time values, false with an Invalid
    Date on either side. *)
Definition Date_ltb (a b : option Z) : bool :=
  match a, b with
  | Some x, Some y => x <? y
  | _, _ => false
  end.

(** [a - b] on Date objects. *)
Definition Date_sub (a b : option Z) : jsnum :=
  match a, b with
  | Some x, Some y => Int (x - y)
  | _, _ => NaN
  end.

(** ** Array.prototype.sort *)

(** The comparator's verdict: a positive number moves the second argument
    first; zero, a negative number and NaN keep the pair. *)
Definition positive (v : jsnum) : bool :=
  match v with Int z => 0 <? z | NaN => false end.

Fixpoint insertSorted {A} (cmp : A -> A -> jsnum) (x : A) (l : list A)
  : list A :=
  match l with
  | [] => [x]
  | y :: l' => if positive (cmp x y) then y :: insertSorted cmp x l'
               else x :: l
  end.

(** A stable sort, which [Array.prototype.sort] is.  For a comparator
    that is a consistent ordering every stable sort gives this order;
    for an inconsistent one the merge sort of the engine may give
    another. *)
Definition Array_sort {A} (cmp : A -> A -> jsnum) (l : list A) : list A :=
  foldr (insertSorted cmp) [] l.

(** ** storage.js: data model *)

Record Player : Type := mkPlayer {
  userId : jsstring;
  username : jsstring;
  currentRank : jsstring;
  currentRankScore : jsnum;
  peakRank : jsstring;
  peakRankScore : jsnum;
  lastUpdated : jsstring
}.

Record State : Type := mkState {
  lastProcessedMessageId : option jsstring;
  players : list Player
}.

Record UpsertResult : Type := mkUpsert {
  upsert_players : list Player;
  updated : bool
}.

Definition DATA_VERSION : jsstring := lit "v1".
Definition DATA_START_MARKER : jsstring :=
  lit "[DATA:" ++ DATA_VERSION ++ lit "]".
Definition DATA_END_MARKER : jsstring := lit "[/DATA]".

Definition encodePlayer (player : Player) : jsstring :=
  join [Ch.PIPE]
    [ userId player;
      orElse (username player) (lit "Unknown");
      currentRank player;
      Number_toString (currentRankScore player);
      peakRank player;
      Number_toString (peakRankScore player);
      lastUpdated player ].

Definition encodePlayerData (players : list Player) : jsstring :=
  join [Ch.LF] (List.map encodePlayer players).

Definition decodeLine (line : jsstring) : option Player :=
  match splitOn Ch.PIPE line with
  | p0 :: p1 :: p2 :: p3 :: p4 :: p5 :: p6 :: _ =>
      Some {| userId := p0;
              username := p1;
              currentRank := p2;
              currentRankScore := parseInt p3;
              peakRank := p4;
              peakRankScore := parseInt p5;
              lastUpdated := p6 |}
  | _ => None
  end.

Definition decodePlayerData (dataString : jsstring) : list Player :=
  if isEmpty dataString || isEmpty (trim dataString) then []
  else
    omap id
      (List.map decodeLine
         (List.filter (fun line => negb (isEmpty (trim line)))
            (splitOn Ch.LF (trim dataString)))).

Definition encodeState (lastProcessedMessageId : option jsstring)
    (players : list Player) : jsstring :=
  join [Ch.LF]
    [ DATA_START_MARKER;
      lit "LAST:" ++ orElse (default [] lastProcessedMessageId) (lit "none");
      encodePlayerData players;
      DATA_END_MARKER ].

(** The group of [/^LAST:(.+)$/]. *)
Definition matchLAST (s : jsstring) : option jsstring :=
  if startsWith (lit "LAST:") s then
    let g := drop 5 s in
    if negb (isEmpty g) && forallb (fun c => negb (isLineTerminator c)) g
    then Some g else None
  else None.

Definition emptyState : State :=
  {| lastProcessedMessageId := None; players := [] |}.

Definition decodeState (messageContent : jsstring) : State :=
  if isEmpty messageContent then emptyState
  else
    let startIdx := indexOf DATA_START_MARKER messageContent in
    let endIdx := indexOf DATA_END_MARKER messageContent in
    if (startIdx =? -1) || (endIdx =? -1) then emptyState
    else
      let dataSection :=
        trim (substring messageContent
                (startIdx + Z.of_nat (length DATA_START_MARKER)) endIdx) in
      let lines := splitOn Ch.LF dataSection in
      let lastLine := orElse (hd [] lines) [] in
      let lastMatch := matchLAST lastLine in
      let lastProcessedMessageId :=
        match lastMatch with
        | Some g => if negb (str_eqb g (lit "none")) then Some g else None
        | None => None
        end in
      let playerDataString := join [Ch.LF] (tl lines) in
      {| lastProcessedMessageId := lastProcessedMessageId;
         players := decodePlayerData playerDataString |}.

(** ** parser.js: pure part *)

Definition LB_UPDATE_PREFIX : jsstring := lit "LB_UPDATE:".

(** [/<@!?(\d+)>/] tried at the head of [s]: the group when it matches. *)
Definition mentionAt (s : jsstring) : option jsstring :=
  match s with
  | a :: b :: r =>
      if (a =? Ch.LT)%N && (b =? Ch.AT)%N then
        let r' := match r with
                  | c :: r1 => if (c =? Ch.BANG)%N then r1 else r
                  | [] => r
                  end in
        let ds := takeWhile isDigit r' in
        if negb (isEmpty ds) && startsWith [Ch.GT] (dropWhile isDigit r')
        then Some ds else None
      else None
  | _ => None
  end.

(** [mention.match(/<@!?(\d+)>/)]: the leftmost match wins. *)
Fixpoint extractUserId (mention : jsstring) : option jsstring :=
  match mentionAt mention with
  | Some g => Some g
  | None => match mention with
            | [] => None
            | _ :: m' => extractUserId m'
            end
  end.

(** The class of the sanitizer: angle brackets, single and double quote,
    backtick, semicolon and parentheses. *)
Definition isDangerous (c : N) : bool :=
  ((c =? 60) || (c =? 62) || (c =? 39) || (c =? 34) || (c =? 96)
   || (c =? 59) || (c =? 40) || (c =? 41))%N.

Definition sanitizeInput (text : jsstring) : jsstring :=
  substring (trim (List.filter (fun c => negb (isDangerous c)) text)) 0 200.

Definition isLeaderboardUpdate (messageContent : jsstring) : bool :=
  negb (isEmpty messageContent)
  && startsWith LB_UPDATE_PREFIX (trim messageContent).

Record ParsedUpdate : Type := mkParsed {
  u_userId : jsstring;
  u_currentRank : jsstring;
  u_currentRankScore : jsnum;
  u_peakRank : jsstring;
  u_peakRankScore : jsnum;
  u_lastUpdated : jsstring;
  u_rawMention : jsstring
}.

Record Message : Type := mkMessage {
  msg_id : jsstring;
  msg_content : jsstring;
  msg_createdTimestamp : Z;
  msg_author : jsstring
}.

Record Successful : Type := mkSuccessful {
  messageId : jsstring;
  timestamp : Z;
  author : jsstring;
  data : ParsedUpdate
}.

Record Failed : Type := mkFailed {
  f_messageId : jsstring;
  f_content : jsstring;
  f_reason : jsstring
}.

Record ParseResults : Type := mkResults {
  successful : list Successful;
  failed : list Failed;
  skipped : nat
}.

(** ** renderer.js: pure part *)

Module Emoji.
Definition trophy : jsstring := [0xD83C; 0xDFC6]%N.
Definition bulb : jsstring := [0xD83D; 0xDCA1]%N.
Definition chart : jsstring := [0xD83D; 0xDCCA]%N.
Definition gold_medal : jsstring := [0xD83E; 0xDD47]%N.
Definition silver_medal : jsstring := [0xD83E; 0xDD48]%N.
Definition bronze_medal : jsstring := [0xD83E; 0xDD49]%N.
Definition small_diamond : jsstring := [0xD83D; 0xDD39]%N.
Definition em_dash : jsstring := [0x2014]%N.
Definition rule : jsstring := repeat 0x2501%N 18.
End Emoji.

(** The own keys of [rankEmojis], then the two keys that the lookup
    [rankEmojis[rank]] finds on [Object.prototype] for a lower-cased name,
    as a template literal prints them. *)
Definition rankEmojis : list (jsstring * jsstring) :=
  [ (lit "iron", [0x26AB]%N);
    (lit "bronze", [0xD83D; 0xDFE4]%N);
    (lit "silver", [0x26AA]%N);
    (lit "gold", [0xD83D; 0xDFE1]%N);
    (lit "platinum", [0xD83D; 0xDD35]%N);
    (lit "diamond", [0xD83D; 0xDC8E]%N);
    (lit "master", [0xD83D; 0xDC51]%N);
    (lit "grandmaster", [0xD83D; 0xDD25]%N);
    (lit "challenger", [0x2B50]%N);
    (lit "radiant", [0x2728]%N);
    (lit "immortal", [0xD83C; 0xDF1F]%N);
    (lit "legend", [0xD83C; 0xDFC6]%N);
    (lit "constructor", lit "function Object() { [native code] }");
    (lit "__proto__", lit "[object Object]") ].

Fixpoint lookupKey (k : jsstring) (t : list (jsstring * jsstring))
  : option jsstring :=
  match t with
  | [] => None
  | (k', v) :: t' => if str_eqb k k' then Some v else lookupKey k t'
  end.

Definition MAX_LENGTH : Z := 2000.

Definition validateMessageLength (content : jsstring) : bool :=
  negb (MAX_LENGTH <? Z.of_nat (length content)).

Record Truncated : Type := mkTruncated {
  content : jsstring;
  truncated : bool;
  shownCount : option nat
}.

(** ** A concrete engine

    Instances of the engine services, used to run the program on concrete
    inputs: a [Date.parse] without legacy formats, ASCII case mapping, the
    en-US grouping of [toLocaleString], a stopped clock and the fallback
    name of [resolveUsername]. *)

Module Node.
Definition Date_parse_legacy (s : jsstring) : option Z := None.

Definition upperUnit (c : N) : N :=
  if ((97 <=? c) && (c <=? 122))%N then (c - 32)%N else c.
Definition lowerUnit (c : N) : N :=
  if ((65 <=? c) && (c <=? 90))%N then (c + 32)%N else c.
Definition toUpperCase (s : jsstring) : jsstring := List.map upperUnit s.
Definition toLowerCase (s : jsstring) : jsstring := List.map lowerUnit s.

(** Groups of three digits from the right, separated by commas. *)
Fixpoint groupRev (n : nat) (rdigits : jsstring) : jsstring :=
  match rdigits with
  | [] => []
  | d :: r =>
      if (n =? 3)%nat then 44%N :: d :: groupRev 1 r
      else d :: groupRev (S n) r
  end.

Definition toLocaleString (n : jsnum) : jsstring :=
  match n with
  | NaN => lit "NaN"
  | Int z =>
      (if z <? 0 then [Ch.MINUS] else [])
      ++ rev (groupRev 0 (rev (decimal (Z.abs z))))
  end.

Definition getCurrentTimestamp (n : nat) : jsstring :=
  lit "02/14/2026, 06:00 PM UTC".

Definition resolveUsername (userId : jsstring) : jsstring :=
  lit "User_" ++ substring userId 0 6.
End Node.

(** ** Sample data: the examples of the specification *)

Module Sample.
Definition turbo : Player :=
  {| userId := lit "1"; username := lit "Turbo";
     currentRank := lit "Diamond"; currentRankScore := Int 2450;
     peakRank := lit "Master"; peakRankScore := Int 2610;
     lastUpdated := lit "2026-02-14" |}.

(** An older report about the same id. *)
Definition turbo_old : Player :=
  {| userId := lit "1"; username := lit "Turbo";
     currentRank := lit "Platinum"; currentRankScore := Int 1900;
     peakRank := lit "Diamond"; peakRankScore := Int 2300;
     lastUpdated := lit "2026-02-10" |}.

Definition alpha : Player :=
  {| userId := lit "2"; username := lit "Alpha";
     currentRank := lit "Diamond"; currentRankScore := Int 2450;
     peakRank := lit "Master"; peakRankScore := Int 2700;
     lastUpdated := lit "2026-02-13" |}.

Definition bravo : Player :=
  {| userId := lit "3"; username := lit "Bravo";
     currentRank := lit "Platinum"; currentRankScore := Int 1980;
     peakRank := lit "Diamond"; peakRankScore := Int 2100;
     lastUpdated := lit "2026-02-10" |}.

Definition seeded : State :=
  {| lastProcessedMessageId := Some (lit "100"); players := [turbo] |}.

Definition updateMessage : Message :=
  {| msg_id := lit "300";
     msg_content := lit "LB_UPDATE: <@2> Diamond 2450 Master 2700 2026-02-13";
     msg_createdTimestamp := 0; msg_author := lit "op" |}.

(** A container whose data section holds a negative score, a score that
    is no number, a date that is none, and the same id twice. *)
Definition looseContainer : jsstring :=
  join [Ch.LF]
    [ lit "[DATA:v1]"; lit "LAST:100";
      lit "7|Ann|Gold|-5|Gold|x|yesterday";
      lit "7|Ann|Gold|10|Gold|20|2026-02-14";
      lit "[/DATA]" ].

(** One entity whose tier labels are a thousand characters each. *)
Definition verbose : Player :=
  {| userId := lit "9"; username := lit "Verbose";
     currentRank := repeat 65%N 1000; currentRankScore := Int 10;
     peakRank := repeat 66%N 1000; peakRankScore := Int 20;
     lastUpdated := lit "2026-02-14" |}.

(** An entity without a display name. *)
Definition nameless : Player :=
  {| userId := lit "4"; username := [];
     currentRank := lit "Gold"; currentRankScore := Int 1500;
     peakRank := lit "Gold"; peakRankScore := Int 1600;
     lastUpdated := lit "2026-02-12" |}.

(** What the parser makes of a tier label with a pipe in it. *)
Definition pipeMessage : jsstring :=
  lit "LB_UPDATE: <@123> Dia|mond 2450 Master 2610 2026-02-14".

Definition pipePlayer : Player :=
  {| userId := lit "123"; username := lit "Turbo";
     currentRank := lit "Dia|mond"; currentRankScore := Int 2450;
     peakRank := lit "Master"; peakRankScore := Int 2610;
     lastUpdated := lit "2026-02-14" |}.
(** A message without the prefix, sent after [updateMessage]. *)
Definition chatter : Message :=
  {| msg_id := lit "301"; msg_content := lit "good game";
     msg_createdTimestamp := 5; msg_author := lit "op" |}.


(** A channel that answers every request with the same two messages,
    newest first. *)
Definition channel (after : option jsstring) (limit : jsnum)
  : option (list Message) :=
  Some [chatter; updateMessage].
End Sample.

Section Engine.

Set Default Proof Using "Type".

(** [Date.parse] on a string that is not a date-only ISO string with
    month 1..12 and day 1..31: the engine's legacy fallback, which the
    language leaves to the implementation ([None] is NaN). *)
Variable Date_parse_legacy : jsstring -> option Z.

(** [DiscordIntegration.resolveUsername]: the name the server returns, or
    the fallback name built in its own catch block.  As a function of
    the id it is the lookup of one pass over a batch, during which the
    server answers one name for an id; another pass may meet other
    names. *)
Variable resolveUsername : jsstring -> jsstring.

(** [String.prototype.toUpperCase], [toLowerCase] (Unicode case mapping)
    and [Number.prototype.toLocaleString] (locale formatting). *)
Variable toUpperCase : jsstring -> jsstring.
Variable toLowerCase : jsstring -> jsstring.
Variable toLocaleString : jsnum -> jsstring.

(** [getCurrentTimestamp()] at the n-th reading of the wall clock, in a
    run whose DISPLAY_TIMEZONE the engine knows (for an unknown one
    the source throws a RangeError at every reading). *)
Variable getCurrentTimestamp : nat -> jsstring.

(** [new Date(s)]: the time value in milliseconds, [None] for an Invalid
    Date. *)
Definition Date_new (s : jsstring) : option Z :=
  match isoDateOnly s with
  | Some t => Some t
  | None => Date_parse_legacy s
  end.

(** *** storage.js, continued *)

(** [list_find] gives the index that [findIndex] returns together with
    the element [players[existingIndex]]; [None] is the index -1. The
    array is updated in place in the source; here the updated list is
    returned. *)
Definition upsertPlayer (players : list Player) (newPlayerData : Player)
  : UpsertResult :=
  match list_find (fun p => userId p = userId newPlayerData) players with
  | Some (existingIndex, existing) =>
      let existingDate := Date_new (lastUpdated existing) in
      let newDate := Date_new (lastUpdated newPlayerData) in
      if Date_ltb newDate existingDate then
        {| upsert_players := players; updated := false |}
      else
        {| upsert_players := <[existingIndex := newPlayerData]> players;
           updated := true |}
  | None =>
      {| upsert_players := players ++ [newPlayerData]; updated := true |}
  end.

(** The comparator handed to [sort]. *)
Definition comparePlayers (a b : Player) : jsnum :=
  if negb (jsnum_eqb (currentRankScore b) (currentRankScore a)) then
    jsnum_sub (currentRankScore b) (currentRankScore a)
  else if negb (jsnum_eqb (peakRankScore b) (peakRankScore a)) then
    jsnum_sub (peakRankScore b) (peakRankScore a)
  else
    let dateA := Date_new (lastUpdated a) in
    let dateB := Date_new (lastUpdated b) in
    Date_sub dateB dateA.

Definition sortPlayers (players : list Player) : list Player :=
  Array_sort comparePlayers players.

(** The six required fields are fields of the record, so the loop over
    [required] finds each of them present. *)
Definition validatePlayerData (player : Player) : bool :=
  if jsnum_ltb (currentRankScore player) (Int 0)
     || jsnum_ltb (peakRankScore player) (Int 0) then false
  else if negb (testDate (lastUpdated player)) then false
  else true.

(** *** parser.js, continued *)

Definition parseDate (dateString : jsstring) : option jsstring :=
  match matchDate dateString with
  | None => None
  | Some (year, month, day) =>
      match Date_new (year ++ [Ch.MINUS] ++ month ++ [Ch.MINUS] ++ day) with
      | None => None
      | Some t => Some (isoDatePart t)
      end
  end.

Definition parseLeaderboardUpdate (messageContent : jsstring)
  : option ParsedUpdate :=
  if isEmpty messageContent then None
  else if negb (startsWith LB_UPDATE_PREFIX (trim messageContent)) then None
  else
    let content :=
      trim (drop (length LB_UPDATE_PREFIX) (trim messageContent)) in
    let parts := splitWs content in
    match parts with
    | mention :: currentRank :: currentRankScore :: peakRank
        :: peakRankScore :: lastUpdated :: extra =>
        match extractUserId mention with
        | None => None
        | Some userId =>
            if isEmpty userId then None
            else
              let currentScore := parseInt currentRankScore in
              let peakScore := parseInt peakRankScore in
              if isNaN currentScore || isNaN peakScore then None
              else if jsnum_ltb currentScore (Int 0)
                      || jsnum_ltb peakScore (Int 0) then None
              else
                match parseDate lastUpdated with
                | None => None
                | Some parsedDate =>
                    if isEmpty parsedDate then None
                    else
                      let sanitizedCurrentRank := sanitizeInput currentRank in
                      let sanitizedPeakRank := sanitizeInput peakRank in
                      if isEmpty sanitizedCurrentRank
                         || isEmpty sanitizedPeakRank then None
                      else
                        Some {| u_userId := userId;
                                u_currentRank := sanitizedCurrentRank;
                                u_currentRankScore := currentScore;
                                u_peakRank := sanitizedPeakRank;
                                u_peakRankScore := peakScore;
                                u_lastUpdated := parsedDate;
                                u_rawMention := mention |}
                end
        end
    | _ => None
    end.

(** One turn of [for (const message of messages)]. *)
Definition parseStep (results : ParseResults) (message : Message)
  : ParseResults :=
  if negb (isLeaderboardUpdate (msg_content message)) then
    {| successful := successful results;
       failed := failed results;
       skipped := S (skipped results) |}
  else
    match parseLeaderboardUpdate (msg_content message) with
    | Some parsed =>
        {| successful :=
             successful results
             ++ [ {| messageId := msg_id message;
                     timestamp := msg_createdTimestamp message;
                     author := msg_author message;
                     data := parsed |} ];
           failed := failed results;
           skipped := skipped results |}
    | None =>
        {| successful := successful results;
           failed :=
             failed results
             ++ [ {| f_messageId := msg_id message;
                     f_content := msg_content message;
                     f_reason := lit "parse_error" |} ];
           skipped := skipped results |}
    end.

Definition parseMultipleUpdates (messages : list Message) : ParseResults :=
  fold_left parseStep messages
    {| successful := []; failed := []; skipped := 0%nat |}.

(** *** sync.js: step 4 of [syncGame], the merge loop *)

Record MergeState : Type := mkMerge {
  m_players : list Player;
  updatedCount : nat;
  lastMessageId : option jsstring
}.

Definition playerDataOf (update : Successful) : Player :=
  {| userId := u_userId (data update);
     username := resolveUsername (u_userId (data update));
     currentRank := u_currentRank (data update);
     currentRankScore := u_currentRankScore (data update);
     peakRank := u_peakRank (data update);
     peakRankScore := u_peakRankScore (data update);
     lastUpdated := u_lastUpdated (data update) |}.

(** One turn of [for (const update of parseResults.successful)].  No call
    in the [try] block throws on these types, so the [catch] is dead. *)
Definition mergeStep (st : MergeState) (update : Successful) : MergeState :=
  let playerData := playerDataOf update in
  if negb (validatePlayerData playerData) then st
  else
    let result := upsertPlayer (m_players st) playerData in
    {| m_players := upsert_players result;
       updatedCount := if updated result then S (updatedCount st)
                       else updatedCount st;
       lastMessageId := Some (messageId update) |}.

Definition mergeUpdates (currentState : State) (updates : list Successful)
  : MergeState :=
  fold_left mergeStep updates
    {| m_players := players currentState;
       updatedCount := 0%nat;
       lastMessageId := lastProcessedMessageId currentState |}.

(** *** renderer.js, continued *)

(** [new Date(s).toISOString()] throws a RangeError on an Invalid Date:
    [None]. *)
Definition formatDate (dateString : jsstring) : option jsstring :=
  match Date_new dateString with
  | Some t => Some (isoDatePart t)
  | None => None
  end.

Definition getRankEmoji (rankName : jsstring) : jsstring :=
  let rank := toLowerCase rankName in
  match lookupKey rank rankEmojis with
  | Some e => e
  | None => Emoji.small_diamond
  end.

Definition positionDisplay (position : nat) : jsstring :=
  if (position <=? 3)%nat then
    match position with
    | 1%nat => Emoji.gold_medal
    | 2%nat => Emoji.silver_medal
    | 3%nat => Emoji.bronze_medal
    | _ => lit "undefined"
    end
  else decimal (Z.of_nat position) ++ lit ".".

Definition renderPlayerEntry (position : nat) (player : Player)
    (showEmojis : bool) : option jsstring :=
  let currentRankEmoji :=
    if showEmojis then getRankEmoji (currentRank player) else [] in
  let peakRankEmoji :=
    if showEmojis then getRankEmoji (peakRank player) else [] in
  date ← formatDate (lastUpdated player);
  Some (join [Ch.LF]
    [ positionDisplay position ++ lit " <@" ++ userId player ++ lit ">";
      lit "   Current: " ++ currentRankEmoji ++ lit " "
        ++ currentRank player ++ lit " " ++ Emoji.em_dash ++ lit " "
        ++ toLocaleString (currentRankScore player);
      lit "   Peak: " ++ peakRankEmoji ++ lit " "
        ++ peakRank player ++ lit " " ++ Emoji.em_dash ++ lit " "
        ++ toLocaleString (peakRankScore player);
      lit "   Last Update: " ++ date ]).

(** The [forEach] over [limitedPlayers]: an entry and a spacing line per
    player, positions counted from [position]. *)
Fixpoint renderEntries (showEmojis : bool) (position : nat)
    (limitedPlayers : list Player) : option (list jsstring) :=
  match limitedPlayers with
  | [] => Some []
  | player :: rest =>
      entry ← renderPlayerEntry position player showEmojis;
      more ← renderEntries showEmojis (S position) rest;
      Some (entry :: [] :: more)
  end.

(** [if (output[output.length - 1] === '') output.pop()] *)
Definition popIfEmpty (output : list jsstring) : list jsstring :=
  match last output with
  | Some [] => removelast output
  | _ => output
  end.

Definition renderLeaderboard (gameName : jsstring) (players : list Player)
    (lastProcessedMessageId : option jsstring)
    (maxPlayers : nat) (showEmojis : bool) (tick : nat) : option jsstring :=
  let header :=
    [ Emoji.trophy ++ lit " " ++ toUpperCase gameName ++ lit " LEADERBOARD";
      [] ] in
  body ←
    (if isEmpty players then
       Some (header ++
         [ lit "No leaderboard data available.";
           [];
           Emoji.bulb ++ lit " Use `LB_UPDATE: @user <rank> <score> <peak_rank> <peak_score> <date>` to add entries." ])
     else
       entries ← renderEntries showEmojis 1 (take maxPlayers players);
       Some (popIfEmpty (header ++ entries)));
  let footer :=
    [ Emoji.rule ]
    ++ (if negb (isEmpty players) then
          [ Emoji.chart ++ lit " Total Players: "
              ++ decimal (Z.of_nat (length players)) ]
          ++ (if (maxPlayers <? length players)%nat then
                [ lit "(Showing top " ++ decimal (Z.of_nat maxPlayers)
                    ++ lit ")" ]
              else [])
        else [])
    ++ [ lit "Updated: " ++ getCurrentTimestamp tick; [] ] in
  let dataSection := encodeState lastProcessedMessageId players in
  Some (join [Ch.LF] (body ++ footer ++ [dataSection])).

Definition fits (rendered : jsstring) (maxLength : nat) : bool :=
  (length rendered <=? maxLength)%nat.

(** The [while (playerCount > 0)] loop of [truncateIfNeeded] and the
    fallback after it; [tick] counts the renders done so far. *)
Equations? truncateLoop (gameName : jsstring) (players : list Player)
    (lastProcessedMessageId : option jsstring) (maxLength : nat)
    (playerCount : nat) (tick : nat) : option Truncated
    by wf playerCount lt :=
  truncateLoop gameName players lastProcessedMessageId maxLength 0 tick :=
    rendered ← renderLeaderboard gameName (take 3 players)
                 lastProcessedMessageId 50 true tick;
    Some {| content := rendered; truncated := true;
            shownCount := Some 3%nat |};
  truncateLoop gameName players lastProcessedMessageId maxLength (S n) tick :=
    match renderLeaderboard gameName (take (S n) players)
            lastProcessedMessageId (S n) true tick with
    | None => None
    | Some rendered =>
        if fits rendered maxLength then
          Some {| content := rendered; truncated := true;
                  shownCount := Some (S n) |}
        else
          truncateLoop gameName players lastProcessedMessageId maxLength
            (S n / 2) (S tick)
    end.
Proof.
  change (S n / 2 < S n)%nat. apply Nat.div_lt; lia.
Qed.

Definition truncateIfNeeded (gameName : jsstring) (players : list Player)
    (lastProcessedMessageId : option jsstring) (maxLength : nat)
    (tick : nat) : option Truncated :=
  rendered ← renderLeaderboard gameName players lastProcessedMessageId
               50 true tick;
  if fits rendered maxLength then
    Some {| content := rendered; truncated := false; shownCount := None |}
  else
    truncateLoop gameName players lastProcessedMessageId maxLength
      (length players / 2) (S tick).

(** Step 6 of [syncGame]: render, and degrade when the text exceeds the
    Discord limit; [truncateIfNeeded] runs with its default 1900. *)
Definition renderStep (gameName : jsstring) (sortedPlayers : list Player)
    (lastMessageId : option jsstring) (tick : nat) : option jsstring :=
  content0 ← renderLeaderboard gameName sortedPlayers lastMessageId
               50 true tick;
  if negb (validateMessageLength content0) then
    t ← truncateIfNeeded gameName sortedPlayers lastMessageId 1900 (S tick);
    Some (content t)
  else Some content0.

(** *** discord.js: [fetchMessages] *)

(** [channel.messages.fetch(options)] for the channel of the game: the
    collection Discord returns for the [after] and [limit] options, in
    the order of [messages.values()]; [None] when the channel lookup or
    the request throws. *)
Variable channelFetch : option jsstring -> jsnum -> option (list Message).

(** [Math.min] on two numbers. *)
Definition Math_min (a b : jsnum) : jsnum :=
  match a, b with
  | Int x, Int y => Int (Z.min x y)
  | _, _ => NaN
  end.

(** The comparator of the sort in [fetchMessages]. *)
Definition byCreatedTimestamp (a b : Message) : jsnum :=
  Int (msg_createdTimestamp a - msg_createdTimestamp b).

(** The [after] option is set for a truthy id only: neither [null] nor
    the empty string.  Every error is rethrown by the [catch] block:
    [None]. *)
Definition fetchMessages (afterMessageId : option jsstring) (limit : jsnum)
  : option (list Message) :=
  let options_limit := Math_min limit (Int 100) in
  let options_after :=
    match afterMessageId with
    | Some (c :: s) => Some (c :: s)
    | _ => None
    end in
  messages ← channelFetch options_after options_limit;
  let messageArray := Array_sort byCreatedTimestamp messages in
  Some messageArray.

(** *** sync.js: [syncGame] as a function of what Discord answers *)

Record SyncReport : Type := mkReport {
  processed : nat;
  r_updated : nat;
  r_failed : nat;
  r_skipped : nat;
  totalPlayers : option nat
}.

(** What a run returns, together with the content it hands to
    [upsertLeaderboardMessage] ([None] when it returns before step 6). *)
Record SyncOutcome : Type := mkOutcome {
  report : SyncReport;
  posted : option jsstring
}.

(** Steps 1 to 6 of [syncGame].  [messageContent] is what
    [fetchWebhookMessage] answered ([None] for null, also when the game
    has no persistent message id), [maxMessages] the parsed
    MAX_MESSAGES_PER_SYNC, [tick] the clock reading of the first render.
    [None] is a throw: from [fetchMessages] or from a render. *)
Definition syncGame (gameName : jsstring) (messageContent : option jsstring)
    (maxMessages : jsnum) (tick : nat) : option SyncOutcome :=
  let currentState :=
    match messageContent with
    | Some (c :: s) => decodeState (c :: s)
    | _ => emptyState
    end in
  messages ← fetchMessages (lastProcessedMessageId currentState) maxMessages;
  if (length messages =? 0)%nat then
    Some {| report := {| processed := 0; r_updated := 0; r_failed := 0;
                         r_skipped := 0; totalPlayers := None |};
            posted := None |}
  else
    let parseResults := parseMultipleUpdates messages in
    let merged := mergeUpdates currentState (successful parseResults) in
    let sortedPlayers := sortPlayers (m_players merged) in
    content ← renderStep gameName sortedPlayers (lastMessageId merged) tick;
    Some {| report := {| processed := length messages;
                         r_updated := updatedCount merged;
                         r_failed := length (failed parseResults);
                         r_skipped := skipped parseResults;
                         totalPlayers := Some (length sortedPlayers) |};
            posted := Some content |}.

(** ** Vocabulary of the specification *)

(** The text [m] appears somewhere in [s]. *)
Definition occurs (m s : jsstring) : Prop :=
  exists pre post, s = pre ++ m ++ post.

Definition isLeapYear (y : Z) : bool :=
  ((y mod 4 =? 0) && negb (y mod 100 =? 0)) || (y mod 400 =? 0).

Definition daysInMonth (y m : Z) : Z :=
  if m =? 2 then (if isLeapYear y then 29 else 28)
  else if (m =? 4) || (m =? 6) || (m =? 9) || (m =? 11) then 30
  else 31.

(** The calendar date that a strict YYYY-MM-DD text denotes, when it
    denotes one. *)
Definition calendarDate (s : jsstring) : option (Z * Z * Z) :=
  match matchDate s with
  | Some (y, m, d) =>
      let yz := digitsValue y in
      let mz := digitsValue m in
      let dz := digitsValue d in
      if (1 <=? mz) && (mz <=? 12) && (1 <=? dz)
         && (dz <=? daysInMonth yz mz)
      then Some (yz, mz, dz) else None
  | None => None
  end.

(** Calendar order: year, then month, then day. *)
Definition earlier (a b : Z * Z * Z) : bool :=
  let '(y1, m1, d1) := a in
  let '(y2, m2, d2) := b in
  (y1 <? y2)
  || ((y1 =? y2) && ((m1 <? m2) || ((m1 =? m2) && (d1 <? d2)))).

(** Days from year 0 to the start of (March-based) year [y]. *)
Definition yearDays (y : Z) : Z := 365 * y + y / 4 - y / 100 + y / 400.

Definition validCivil (y m d : Z) : Prop :=
  1 <= m <= 12 /\ 1 <= d <= daysInMonth y m.

(** What the ranking looks at, for an entity with integer scores and a
    calendar date. *)
Definition rankKey (p : Player) : option (Z * Z * (Z * Z * Z)) :=
  match currentRankScore p, peakRankScore p,
        calendarDate (lastUpdated p) with
  | Int c, Int k, Some d => Some (c, k, d)
  | _, _, _ => None
  end.

(** [a] is ranked strictly ahead of [b]: a higher current score; on a
    tie a higher peak score; on a second tie a more recent date. *)
Definition outranks (a b : Player) : bool :=
  match rankKey a, rankKey b with
  | Some (c1, k1, d1), Some (c2, k2, d2) =>
      (c2 <? c1)
      || ((c1 =? c2) && ((k2 <? k1) || ((k1 =? k2) && earlier d2 d1)))
  | _, _ => false
  end.

Definition negative (v : jsnum) : bool :=
  match v with Int z => z <? 0 | NaN => false end.

(** The order of the ranking on entities with a rank key: [a] is not
    outranked by [b]. *)
Definition holdsAgainst (a b : Player) : Prop :=
  is_Some (rankKey a) /\ is_Some (rankKey b) /\ outranks b a = false.

(** The content begins, after trimming, with the literal prefix. *)
Definition beginsWithPrefix (content : jsstring) : bool :=
  startsWith LB_UPDATE_PREFIX (trim content).

(** The message ids that a batch result accounts for as parsed or as
    failed. *)
Definition classifiedIds (r : ParseResults) : list jsstring :=
  List.map messageId (successful r) ++ List.map f_messageId (failed r).

Definition nonNegative (n : jsnum) : bool :=
  match n with Int z => 0 <=? z | NaN => false end.

(** The per-entity invariants of the data model: both scores are
    non-negative integers and the date has the strict YYYY-MM-DD shape. *)
Definition satisfiesInvariants (p : Player) : bool :=
  nonNegative (currentRankScore p) && nonNegative (peakRankScore p)
  && testDate (lastUpdated p).

(** At most one entity per id. *)
Definition uniqueIds (ps : list Player) : Prop :=
  NoDup (List.map userId ps).

(** The updates that pass the validation guard of the merge loop. *)
Definition validUpdates (updates : list Successful) : list Successful :=
  List.filter (fun u => validatePlayerData (playerDataOf u)) updates.

(** The engine can print the date of the entity ([formatDate] does not
    throw). *)
Definition printableDate (p : Player) : Prop :=
  is_Some (Date_new (lastUpdated p)).

(** The text ends with the data section that encodes [cursor] and [ps],
    on lines of its own. *)
Definition carriesData (text : jsstring) (cursor : option jsstring)
    (ps : list Player) : Prop :=
  exists visible, text = visible ++ [Ch.LF] ++ encodeState cursor ps.

(** The i-th halving of a collection of n entities keeps n / 2^(i+1) of
    them. *)
Definition halved (ps : list Player) (i : nat) : nat :=
  (length ps / 2 ^ S i)%nat.

(** The i-th halving still has entities, and its render, the i-th after
    the clock reading [tick0], does not fit [maxLength]. *)
Definition overflows (gameName : jsstring) (ps : list Player)
    (cursor : option jsstring) (maxLength tick0 i : nat) : Prop :=
  (0 < halved ps i)%nat
  /\ exists r,
       renderLeaderboard gameName (take (halved ps i) ps) cursor
         (halved ps i) true (tick0 + i) = Some r
       /\ fits r maxLength = false.

(** What the degrader returns for a collection whose baseline render
    does not fit. Either some halving is the first whose render fits
    [maxLength]: that render is returned, the count reported is its
    number of entities, smaller than n, and they are the entities of its
    data section. Or every halving overflows down to zero entities: the
    floor, the render of the first three entities, is returned. *)
Definition degradedTo (gameName : jsstring) (ps : list Player)
    (cursor : option jsstring) (maxLength tick0 : nat) (t : Truncated)
  : Prop :=
  exists j,
    (forall i, (i < j)%nat -> overflows gameName ps cursor maxLength tick0 i)
    /\ ((shownCount t = Some (halved ps j)
         /\ (0 < halved ps j < length ps)%nat
         /\ renderLeaderboard gameName (take (halved ps j) ps) cursor
              (halved ps j) true (tick0 + j) = Some (content t)
         /\ (length (content t) <= maxLength)%nat
         /\ carriesData (content t) cursor (take (halved ps j) ps)
         /\ length (take (halved ps j) ps) = halved ps j)
        \/ (halved ps j = 0%nat
            /\ renderLeaderboard gameName (take 3 ps) cursor 50 true
                 (tick0 + j) = Some (content t)
            /\ carriesData (content t) cursor (take 3 ps)
            /\ ((3 <= length ps)%nat ->
                shownCount t = Some 3%nat
                /\ length (take 3 ps) = 3%nat))).

(** A text field that the codec stores as it is: neither the field
    delimiter nor a line feed in it, and the end marker nowhere in it. *)
Definition plainField (f : jsstring) : bool :=
  forallb (fun c => negb (c =? Ch.PIPE)%N && negb (c =? Ch.LF)%N) f
  && (indexOf DATA_END_MARKER f =? -1).

Definition MAX_SAFE_INTEGER : Z := 9007199254740991.

(** A non-negative integer in the range where doubles are exact. *)
Definition safeScore (n : jsnum) : bool :=
  match n with
  | Int z => (0 <=? z) && (z <=? MAX_SAFE_INTEGER)
  | NaN => false
  end.

(** An entity that the codec gives back as it was: an id of digits, a
    non-empty display name, plain text fields, scores that are safe
    non-negative integers and a strict YYYY-MM-DD date. *)
Definition storable (p : Player) : bool :=
  forallb isDigit (userId p)
  && negb (isEmpty (username p)) && plainField (username p)
  && plainField (currentRank p) && plainField (peakRank p)
  && safeScore (currentRankScore p) && safeScore (peakRankScore p)
  && testDate (lastUpdated p).

Definition lastNotWhiteSpace (s : jsstring) : bool :=
  match last s with
  | Some c => negb (isWhiteSpace c)
  | None => true
  end.

(** A cursor that the codec gives back as it was: none, or a non-empty
    text other than the word none, on one line, not ending in white space
    and free of the end marker. *)
Definition storableCursor (cursor : option jsstring) : bool :=
  match cursor with
  | None => true
  | Some s =>
      negb (isEmpty s) && negb (str_eqb s (lit "none"))
      && forallb (fun c => negb (isLineTerminator c)) s
      && lastNotWhiteSpace s
      && (indexOf DATA_END_MARKER s =? -1)
  end.

(** Digits and hyphens only: how ids, scores and dates are written. *)
Definition numericText (s : jsstring) : bool :=
  forallb (fun c => isDigit c || (c =? Ch.MINUS)%N) s.

(** The two spellings of a user mention: [<@id>] and [<@!id>]. *)
Definition mentionText (bang : bool) (id : jsstring) : jsstring :=
  lit "<@" ++ (if bang then [Ch.BANG] else []) ++ id ++ lit ">".

(** A non-empty run of decimal digits. *)
Definition digitRun (s : jsstring) : Prop :=
  s <> [] /\ forallb isDigit s = true.

(** A tier label as the parser stores it: not empty, at most 200 code
    units, none of them white space or one of the stripped characters. *)
Definition tierLabel (s : jsstring) : Prop :=
  s <> [] /\ (length s <= 200)%nat
  /\ Forall (fun c => isDangerous c = false /\ isWhiteSpace c = false) s.

(** The record that the batch parser files for a message it accepts. *)
Definition recordOf (m : Message) : option Successful :=
  parsed ← parseLeaderboardUpdate (msg_content m);
  Some {| messageId := msg_id m;
          timestamp := msg_createdTimestamp m;
          author := msg_author m;
          data := parsed |}.

(** A message that carries the prefix and is refused by the parser. *)
Definition refused (m : Message) : bool :=
  isLeaderboardUpdate (msg_content m)
  && isEmpty (option_list (parseLeaderboardUpdate (msg_content m))).

Definition failureOf (m : Message) : Failed :=
  {| f_messageId := msg_id m;
     f_content := msg_content m;
     f_reason := lit "parse_error" |}.

(** The entities that the ranking cannot tell apart from one another:
    those with the rank key [k]. *)
Definition hasKey (k : Z * Z * (Z * Z * Z)) (p : Player) : bool :=
  bool_decide (rankKey p = Some k).

(** No entity is outranked by one that stands before it in the list. *)
Definition ranked (ps : list Player) : Prop :=
  StronglySorted (fun a b => outranks b a = false) ps.

(** Oldest first: no message is older than one that stands before it. *)
Definition chronological (ms : list Message) : Prop :=
  StronglySorted
    (fun a b => msg_createdTimestamp a <= msg_createdTimestamp b) ms.

Definition sentAt (t : Z) (m : Message) : bool :=
  msg_createdTimestamp m =? t.

(** The state a run starts from: the decoded content of the persistent
    message, the empty state when there is none. *)
Definition loadedState (messageContent : option jsstring) : State :=
  decodeState (default [] messageContent).

(** The number of fields of a line of the data section: one more than
    the number of delimiters. *)
Definition fieldCount (line : jsstring) : nat :=
  S (length (List.filter (fun c => (c =? Ch.PIPE)%N) line)).

(** An update message as the format asks for it: the prefix, then the
    mention, both tier labels with their score tokens, and the date, one
    space apart. *)
Definition updateLine (bang : bool) (id currentTier currentToken
    peakTier peakToken date : jsstring) : jsstring :=
  LB_UPDATE_PREFIX ++ lit " "
  ++ join (lit " ")
       [ mentionText bang id; currentTier; currentToken;
         peakTier; peakToken; date ].

(** What may follow the digits of a score token: nothing, or characters
    that are no white space, the first of them no digit. *)
Definition trailer (junk : jsstring) : Prop :=
  Forall (fun c => isWhiteSpace c = false) junk
  /\ (forall c r, junk = c :: r -> isDigit c = false).

(** The engine reads no text of the strict pattern other than as an
    ISO date: where the date-only form is refused (month 0 or 13..99,
    day 0 or 32..99) the legacy fallback refuses it too. *)
Definition strictDates : Prop :=
  forall s, testDate s = true -> isoDateOnly s = None ->
            Date_parse_legacy s = None.

(** The entity that a search for [id] finds in the collection. *)
Definition stored (id : jsstring) (ps : list Player) : option Player :=
  snd <$> list_find (fun p => userId p = id) ps.

(** The date of [a] is, as the engine reads both, before that of [b]. *)
Definition olderThan (a b : Player) : Prop :=
  Date_ltb (Date_new (lastUpdated a)) (Date_new (lastUpdated b)) = true.

(** What an upsert does to the entity found under the id of the update:
    a strictly older update leaves it, any other update replaces it. *)
Definition resolve (found : option Player) (u : Player) : option Player :=
  match found with
  | Some e =>
      if Date_ltb (Date_new (lastUpdated u)) (Date_new (lastUpdated e))
      then Some e else Some u
  | None => Some u
  end.

(** The valid updates of a batch that name [id], as entities. *)
Definition updatesFor (id : jsstring) (updates : list Successful)
  : list Player :=
  List.map playerDataOf
    (List.filter (fun u => bool_decide (u_userId (data u) = id))
       (validUpdates updates)).

(** No opening square bracket, the character both markers begin with. *)
Definition bracketFree (s : jsstring) : bool :=
  forallb (fun c => negb (c =? 91)%N) s.

(** Nothing that the renderer prints for the game and its entities
    holds an opening square bracket: the game name in capitals, the
    clock readings, and of each entity the id, the tier labels, their
    emojis and the scores as the locale prints them. *)
Definition plainDisplay (gameName : jsstring) (ps : list Player) : Prop :=
  bracketFree (toUpperCase gameName) = true
  /\ (forall n, bracketFree (getCurrentTimestamp n) = true)
  /\ Forall (fun p =>
               bracketFree (userId p) && bracketFree (currentRank p)
               && bracketFree (peakRank p)
               && bracketFree (getRankEmoji (currentRank p))
               && bracketFree (getRankEmoji (peakRank p))
               && bracketFree (toLocaleString (currentRankScore p))
               && bracketFree (toLocaleString (peakRankScore p)) = true)
       ps.

(** A message that the batch parser accepts. *)
Definition accepted (m : Message) : bool :=
  negb (isEmpty (option_list (recordOf m))).

(** A number in the range where the doubles of the program are exact:
    an integer of absolute value at most 2^53 - 1, or NaN. *)
Definition exactNumber (n : jsnum) : bool :=
  match n with
  | Int z => Z.abs z <=? MAX_SAFE_INTEGER
  | NaN => true
  end.

(** The score tokens of the message, where the parser reads them,
    denote integers of at most 2^53 - 1: the range in which the double
    that [parseInt] returns is the integer that the digits denote. *)
Definition exactScores (m : Message) : Prop :=
  forall u, parseLeaderboardUpdate (msg_content m) = Some u ->
            exactNumber (u_currentRankScore u) = true
            /\ exactNumber (u_peakRankScore u) = true.

(** What the merge and the ranking look at: every field of an entity
    but the display name. *)
Definition standing (p : Player)
  : jsstring * jsstring * jsnum * jsstring * jsnum * jsstring :=
  (userId p, currentRank p, currentRankScore p, peakRank p,
   peakRankScore p, lastUpdated p).


(** ** Facts about the string primitives *)

Lemma startsWith_spec (p s : jsstring) :
  startsWith p s = true <-> exists r, s = p ++ r.
Proof.
  revert s. induction p as [|a p IH]; intros s; simpl.
  - split; [intros _; exists s; reflexivity | reflexivity].
  - destruct s as [|b s].
    + split; [discriminate | intros [r Hr]; discriminate].
    + rewrite andb_true_iff, N.eqb_eq, IH. split.
      * intros [-> [r ->]]. exists r. reflexivity.
      * intros [r Hr]. injection Hr as -> ->. split; [reflexivity | eauto].
Qed.

Lemma startsWith_app (p r : jsstring) : startsWith p (p ++ r) = true.
Proof. apply startsWith_spec. eauto. Qed.

Lemma indexOf_range (m s : jsstring) :
  indexOf m s = -1 \/ 0 <= indexOf m s <= Z.of_nat (length s).
Proof.
  induction s as [|c s IH]; simpl.
  - destruct (startsWith m []); lia.
  - destruct (startsWith m (c :: s)); [lia|].
    destruct (Z.ltb_spec (indexOf m s) 0); lia.
Qed.

Lemma indexOf_found (m s : jsstring) :
  0 <= indexOf m s ->
  exists pre post,
    s = pre ++ m ++ post /\ Z.of_nat (length pre) = indexOf m s.
Proof.
  induction s as [|c s IH]; simpl.
  - destruct (startsWith m []) eqn:E; [|lia].
    apply startsWith_spec in E as [r Hr]. intros _. exists [], r. auto.
  - destruct (startsWith m (c :: s)) eqn:E.
    + apply startsWith_spec in E as [r Hr]. intros _. exists [], r. auto.
    + destruct (Z.ltb_spec (indexOf m s) 0) as [Hlt|Hge]; [lia|].
      intros _. destruct (IH Hge) as [pre [post [Hs Hl]]].
      exists (c :: pre), post. simpl length. split; [simpl; congruence | lia].
Qed.

Lemma indexOf_none (m s : jsstring) :
  indexOf m s = -1 -> ~ occurs m s.
Proof.
  induction s as [|c s IH]; simpl.
  - destruct (startsWith m []) eqn:E; [lia|].
    intros _ [pre [post H]].
    destruct pre; [|discriminate]. simpl in H.
    assert (startsWith m [] = true) by (apply startsWith_spec; eauto).
    congruence.
  - destruct (startsWith m (c :: s)) eqn:E; [lia|].
    destruct (Z.ltb_spec (indexOf m s) 0) as [Hlt|Hge]; [|lia].
    intros _ [pre [post H]].
    destruct pre as [|x pre].
    + simpl in H.
      assert (startsWith m (c :: s) = true)
        by (apply startsWith_spec; eauto).
      congruence.
    + injection H as -> ->.
      destruct (indexOf_range m (pre ++ m ++ post)) as [Hi|Hi]; [|lia].
      apply IH in Hi. apply Hi. exists pre, post. reflexivity.
Qed.

(** [indexOf] answers -1 exactly when the needle occurs nowhere. *)
Lemma indexOf_absent (m s : jsstring) :
  indexOf m s = -1 <-> ~ occurs m s.
Proof.
  split; [apply indexOf_none|].
  intros H. destruct (indexOf_range m s) as [Hi|Hi]; [exact Hi|].
  exfalso. apply H.
  destruct (indexOf_found m s) as [pre [post [Hs _]]]; [lia|].
  exists pre, post. exact Hs.
Qed.


(** ** Facts about dates *)

Lemma daysFromCivil_alt y m d :
  daysFromCivil y m d =
  yearDays (if m <=? 2 then y - 1 else y)
  + (153 * ((m + 9) mod 12) + 2) / 5 + d - 719469.
Proof.
  unfold daysFromCivil, yearDays. cbv zeta.
  set (y' := if m <=? 2 then y - 1 else y).
  Z.to_euclidean_division_equations; lia.
Qed.

Lemma yearDays_step y :
  yearDays (y + 1) - yearDays y
  = 365 + (if isLeapYear (y + 1) then 1 else 0).
Proof.
  unfold yearDays, isLeapYear.
  destruct (Z.eqb_spec ((y + 1) mod 4) 0),
    (Z.eqb_spec ((y + 1) mod 100) 0), (Z.eqb_spec ((y + 1) mod 400) 0);
    cbn [andb orb negb]; Z.to_euclidean_division_equations; lia.
Qed.

Lemma yearDays_mono y y' : y < y' -> yearDays y + 365 <= yearDays y'.
Proof.
  unfold yearDays. intros. Z.to_euclidean_division_equations; lia.
Qed.

Lemma month_cases m :
  1 <= m <= 12 ->
  m = 1 \/ m = 2 \/ m = 3 \/ m = 4 \/ m = 5 \/ m = 6 \/ m = 7 \/ m = 8
  \/ m = 9 \/ m = 10 \/ m = 11 \/ m = 12.
Proof. lia. Qed.

Ltac months Hm Hm' :=
  destruct (month_cases _ Hm)
    as [->|[->|[->|[->|[->|[->|[->|[->|[->|[->|[->| ->]]]]]]]]]]];
  destruct (month_cases _ Hm')
    as [->|[->|[->|[->|[->|[->|[->|[->|[->|[->|[->| ->]]]]]]]]]]].

Ltac civil_arith :=
  rewrite !daysFromCivil_alt;
  repeat match goal with
    | |- context [(153 * ((?m + 9) mod 12) + 2) / 5] =>
        let v := eval vm_compute in ((153 * ((m + 9) mod 12) + 2) / 5) in
        change ((153 * ((m + 9) mod 12) + 2) / 5) with v
    end;
  repeat match goal with
    | |- context [?m <=? 2] =>
        let v := eval vm_compute in (m <=? 2) in change (m <=? 2) with v
    end;
  cbv iota; lia.

Lemma daysFromCivil_month_mono y m d m' d' :
  validCivil y m d -> validCivil y m' d' -> m < m' ->
  daysFromCivil y m d < daysFromCivil y m' d'.
Proof.
  intros [Hm Hd] [Hm' Hd'] Hlt.
  pose proof (yearDays_step (y - 1)) as Hs.
  replace (y - 1 + 1) with y in Hs by lia.
  unfold daysInMonth in Hd, Hd'.
  months Hm Hm'; try lia; cbn in Hd, Hd'; destruct (isLeapYear y);
    civil_arith.
Qed.

Lemma daysFromCivil_year_mono y m d y' m' d' :
  validCivil y m d -> validCivil y' m' d' -> y < y' ->
  daysFromCivil y m d < daysFromCivil y' m' d'.
Proof.
  intros [Hm Hd] [Hm' Hd'] Hlt.
  pose proof (yearDays_step (y - 1)) as Hs.
  replace (y - 1 + 1) with y in Hs by lia.
  pose proof (yearDays_step (y' - 1)) as Hs'.
  replace (y' - 1 + 1) with y' in Hs' by lia.
  assert (Hmono : yearDays y <= yearDays (y' - 1)).
  { destruct (Z.eq_dec y (y' - 1)) as [->|Hne]; [lia|].
    pose proof (yearDays_mono y (y' - 1)). lia. }
  unfold daysInMonth in Hd, Hd'.
  months Hm Hm'; cbn in Hd, Hd';
    destruct (isLeapYear y), (isLeapYear y'); civil_arith.
Qed.

Lemma daysFromCivil_day_mono y m d d' :
  d < d' -> daysFromCivil y m d < daysFromCivil y m d'.
Proof. intros. rewrite !daysFromCivil_alt. lia. Qed.

(** On calendar dates the day number orders as the calendar does. *)
Lemma daysFromCivil_earlier y m d y' m' d' :
  validCivil y m d -> validCivil y' m' d' ->
  (daysFromCivil y m d <? daysFromCivil y' m' d')
  = earlier (y, m, d) (y', m', d').
Proof.
  intros V V'. unfold earlier.
  destruct (Z.ltb_spec y y') as [Hy|Hy]; cbn [orb].
  - apply Z.ltb_lt. apply daysFromCivil_year_mono; assumption.
  - destruct (Z.eqb_spec y y') as [->|Hne]; cbn [andb].
    + destruct (Z.ltb_spec m m') as [Hm|Hm]; cbn [orb].
      * apply Z.ltb_lt. apply daysFromCivil_month_mono; assumption.
      * destruct (Z.eqb_spec m m') as [->|Hne]; cbn [andb].
        -- destruct (Z.ltb_spec d d') as [Hd|Hd].
           ++ apply Z.ltb_lt. apply daysFromCivil_day_mono; assumption.
           ++ apply Z.ltb_ge. destruct (Z.eq_dec d d') as [->|]; [lia|].
              apply Z.lt_le_incl. apply daysFromCivil_day_mono. lia.
        -- apply Z.ltb_ge. apply Z.lt_le_incl.
           apply daysFromCivil_month_mono; [assumption..|lia].
    + apply Z.ltb_ge. apply Z.lt_le_incl.
      apply daysFromCivil_year_mono; [assumption..|lia].
Qed.

Lemma daysInMonth_le_31 y m : daysInMonth y m <= 31.
Proof.
  unfold daysInMonth.
  destruct (m =? 2); [destruct (isLeapYear y); lia|].
  destruct ((m =? 4) || (m =? 6) || (m =? 9) || (m =? 11)); lia.
Qed.

Lemma calendarDate_valid s y m d :
  calendarDate s = Some (y, m, d) -> validCivil y m d.
Proof.
  unfold calendarDate. destruct (matchDate s) as [[[ys ms] ds]|]; [|discriminate].
  cbv zeta.
  destruct ((1 <=? digitsValue ms) && (digitsValue ms <=? 12)
            && (1 <=? digitsValue ds)
            && (digitsValue ds <=? daysInMonth (digitsValue ys) (digitsValue ms)))
    eqn:E; [|discriminate].
  intros [= <- <- <-].
  rewrite !andb_true_iff, !Z.leb_le in E. unfold validCivil. lia.
Qed.

(** The engine reads a calendar date as its UTC midnight. *)
Lemma Date_new_calendar s y m d :
  calendarDate s = Some (y, m, d) ->
  Date_new s = Some (daysFromCivil y m d * msPerDay).
Proof.
  unfold calendarDate, Date_new, isoDateOnly.
  destruct (matchDate s) as [[[ys ms] ds]|]; [|discriminate].
  cbv zeta.
  destruct ((1 <=? digitsValue ms) && (digitsValue ms <=? 12)
            && (1 <=? digitsValue ds)
            && (digitsValue ds <=? daysInMonth (digitsValue ys) (digitsValue ms)))
    eqn:E; [|discriminate].
  intros [= <- <- <-].
  rewrite !andb_true_iff, !Z.leb_le in E.
  pose proof (daysInMonth_le_31 (digitsValue ys) (digitsValue ms)).
  destruct E as [[[E1 E2] E3] E4].
  rewrite (proj2 (Z.leb_le _ _) E1), (proj2 (Z.leb_le _ _) E2),
    (proj2 (Z.leb_le _ _) E3).
  rewrite (proj2 (Z.leb_le (digitsValue ds) 31)) by lia.
  reflexivity.
Qed.

Lemma Date_ltb_calendar a b da db :
  calendarDate a = Some da -> calendarDate b = Some db ->
  Date_ltb (Date_new a) (Date_new b) = earlier da db.
Proof.
  destruct da as [[y m] d], db as [[y' m'] d']. intros Ha Hb.
  rewrite (Date_new_calendar _ _ _ _ Ha), (Date_new_calendar _ _ _ _ Hb).
  pose proof (calendarDate_valid _ _ _ _ Ha) as Va.
  pose proof (calendarDate_valid _ _ _ _ Hb) as Vb.
  rewrite <- (daysFromCivil_earlier _ _ _ _ _ _ Va Vb).
  unfold Date_ltb, msPerDay.
  destruct (Z.ltb_spec (daysFromCivil y m d) (daysFromCivil y' m' d'));
    [apply Z.ltb_lt | apply Z.ltb_ge]; lia.
Qed.


(** ** storage.js: decoding an uninitialized container *)

(** C9. A container text that lacks the start marker or the end marker
    decodes to the cursor "none" ([None]) and the empty collection.
    [decodeState] is a total function: no input makes it raise. *)
Theorem decodeState_uninitialized (text : jsstring) :
  ~ occurs DATA_START_MARKER text \/ ~ occurs DATA_END_MARKER text ->
  decodeState text = {| lastProcessedMessageId := None; players := [] |}.
Proof.
  intros H. unfold decodeState.
  destruct (isEmpty text); [reflexivity|].
  destruct H as [H|H]; apply indexOf_absent in H; rewrite H.
  - reflexivity.
  - rewrite orb_true_r. reflexivity.
Qed.

(** ** storage.js: the merge rule *)

Lemma Date_ltb_irrefl (d : option Z) : Date_ltb d d = false.
Proof. destruct d; simpl; [apply Z.ltb_irrefl | reflexivity]. Qed.

(** C2. For an update whose id is already present (the entity [existing]
    at index [i] is the one [findIndex] meets first), both dates being
    calendar dates: a strictly older update leaves the collection as it
    is and reports [updated = false]; an equal or newer one puts the
    update's fields in the entity's place and reports [updated = true]. *)
Theorem upsertPlayer_existing (players : list Player) (update : Player)
    (i : nat) (existing : Player) (dNew dOld : Z * Z * Z) :
  list_find (fun p => userId p = userId update) players
    = Some (i, existing) ->
  calendarDate (lastUpdated update) = Some dNew ->
  calendarDate (lastUpdated existing) = Some dOld ->
  (earlier dNew dOld = true ->
     upsertPlayer players update
     = {| upsert_players := players; updated := false |})
  /\ (earlier dNew dOld = false ->
        upsertPlayer players update
        = {| upsert_players := <[i := update]> players; updated := true |}
        /\ <[i := update]> players !! i = Some update).
Proof.
  intros Hfind Hn Ho. unfold upsertPlayer. rewrite Hfind.
  rewrite (Date_ltb_calendar _ _ _ _ Hn Ho).
  split; intros ->; [reflexivity|]. split; [reflexivity|].
  apply list_find_Some in Hfind as [Hi _].
  apply list_lookup_insert_eq. eapply lookup_lt_Some. exact Hi.
Qed.

(** C3, as the code has it. Applying the same update twice in direct
    succession leaves the collection as one application does, and the
    second application reports what the first reported: [updated] twice
    when the id was new or the update was not strictly older than the
    stored entity, stale twice when it was strictly older. *)
Theorem upsertPlayer_twice (players : list Player) (update : Player) :
  let once := upsertPlayer players update in
  let twice := upsertPlayer (upsert_players once) update in
  upsert_players twice = upsert_players once
  /\ updated twice = updated once
  /\ updated once
     = match list_find (fun p => userId p = userId update) players with
       | Some (_, existing) =>
           negb (Date_ltb (Date_new (lastUpdated update))
                   (Date_new (lastUpdated existing)))
       | None => true
       end.
Proof.
  cbv zeta. unfold upsertPlayer at 1 3 4.
  destruct (list_find (fun p => userId p = userId update) players)
    as [[i e]|] eqn:Hfind.
  - destruct (Date_ltb (Date_new (lastUpdated update))
                (Date_new (lastUpdated e))) eqn:Hlt.
    + unfold upsertPlayer. rewrite Hfind, Hlt. simpl.
      rewrite Hfind, Hlt. repeat split; reflexivity.
    + assert (Hf2 : list_find (fun p => userId p = userId update)
                      (<[i := update]> players) = Some (i, update)).
      { apply list_find_insert_Some. right. left.
        apply list_find_Some in Hfind as (Hi & _ & Hleast).
        repeat split; try reflexivity.
        - eapply lookup_lt_Some. exact Hi.
        - exact Hleast. }
      unfold upsertPlayer. rewrite Hfind, Hlt. simpl.
      rewrite Hf2, Date_ltb_irrefl. simpl.
      rewrite list_insert_insert_eq. repeat split; reflexivity.
  - assert (Hf2 : list_find (fun p => userId p = userId update)
                    (players ++ [update])
                  = Some (length players, update)).
    { apply list_find_app_Some. right. split; [lia|]. split; [exact Hfind|].
      rewrite Nat.sub_diag. simpl.
      rewrite decide_True by reflexivity. reflexivity. }
    unfold upsertPlayer. rewrite Hfind. simpl.
    rewrite Hf2, Date_ltb_irrefl. simpl. split; [|split; reflexivity].
    rewrite insert_app_r_alt by lia. rewrite Nat.sub_diag. reflexivity.
Qed.

(** ** storage.js: ranking *)

Lemma insertSorted_perm {A} (cmp : A -> A -> jsnum) (x : A) (l : list A) :
  Permutation (x :: l) (insertSorted cmp x l).
Proof.
  induction l as [|y l IH]; simpl; [reflexivity|].
  destruct (positive (cmp x y)); [|reflexivity].
  rewrite perm_swap. apply perm_skip. exact IH.
Qed.

Lemma Array_sort_perm {A} (cmp : A -> A -> jsnum) (l : list A) :
  Permutation l (Array_sort cmp l).
Proof.
  induction l as [|x l IH]; simpl; [reflexivity|].
  etransitivity; [apply perm_skip, IH|]. apply insertSorted_perm.
Qed.

(** Insertion keeps a list sorted for any transitive relation that the
    comparator decides on the elements at hand. *)
Lemma insertSorted_sorted {A} (cmp : A -> A -> jsnum) (R : A -> A -> Prop)
    (x : A) (l : list A) :
  (forall a b c, R a b -> R b c -> R a c) ->
  (forall y, In y l -> if positive (cmp x y) then R y x else R x y) ->
  StronglySorted R l ->
  StronglySorted R (insertSorted cmp x l).
Proof.
  intros Htrans Hdec Hs. induction Hs as [|y l Hs IH Hall]; simpl.
  - repeat constructor.
  - pose proof (Hdec y (or_introl eq_refl)) as Hy.
    destruct (positive (cmp x y)).
    + constructor.
      * apply IH. intros z Hz. apply Hdec. right. exact Hz.
      * apply List.Forall_forall. intros z Hz.
        apply (Permutation_in _ (Permutation_sym (insertSorted_perm cmp x l)))
          in Hz.
        destruct Hz as [<-|Hz]; [exact Hy|].
        rewrite List.Forall_forall in Hall. apply Hall. exact Hz.
    + constructor; [constructor; assumption|].
      constructor; [exact Hy|].
      rewrite List.Forall_forall in Hall |- *. intros z Hz.
      eapply Htrans; [exact Hy | apply Hall; exact Hz].
Qed.

Lemma Array_sort_sorted {A} (cmp : A -> A -> jsnum) (R : A -> A -> Prop)
    (l : list A) :
  (forall a b c, R a b -> R b c -> R a c) ->
  (forall x y, In x l -> In y l ->
               if positive (cmp x y) then R y x else R x y) ->
  StronglySorted R (Array_sort cmp l).
Proof.
  intros Htrans Hdec. induction l as [|x l IH]; simpl; [constructor|].
  apply insertSorted_sorted; [exact Htrans | |].
  - intros y Hy. apply Hdec; [left; reflexivity|].
    right. eapply Permutation_in; [|exact Hy].
    symmetry. apply Array_sort_perm.
  - apply IH. intros a b Ha Hb. apply Hdec; right; assumption.
Qed.


Lemma rankKey_inv (p : Player) c k d :
  rankKey p = Some (c, k, d) ->
  currentRankScore p = Int c /\ peakRankScore p = Int k
  /\ calendarDate (lastUpdated p) = Some d.
Proof.
  unfold rankKey.
  destruct (currentRankScore p), (peakRankScore p),
    (calendarDate (lastUpdated p)); try discriminate.
  intros [= <- <- <-]. auto.
Qed.

(** The comparator of [sortPlayers] on entities with a rank key: a
    positive answer says the second argument is ranked ahead, a negative
    one that the first is. *)
Lemma comparePlayers_outranks (a b : Player) :
  is_Some (rankKey a) -> is_Some (rankKey b) ->
  positive (comparePlayers a b) = outranks b a
  /\ negative (comparePlayers a b) = outranks a b.
Proof.
  intros [[[c1 k1] [[y1 m1] d1]] Ha] [[[c2 k2] [[y2 m2] d2]] Hb].
  unfold outranks. rewrite Ha, Hb.
  apply rankKey_inv in Ha as (Hc1 & Hk1 & Hd1).
  apply rankKey_inv in Hb as (Hc2 & Hk2 & Hd2).
  pose proof (calendarDate_valid _ _ _ _ Hd1) as V1.
  pose proof (calendarDate_valid _ _ _ _ Hd2) as V2.
  unfold comparePlayers. rewrite Hc1, Hc2, Hk1, Hk2. cbv zeta.
  rewrite (Date_new_calendar _ _ _ _ Hd1), (Date_new_calendar _ _ _ _ Hd2).
  rewrite <- (daysFromCivil_earlier _ _ _ _ _ _ V1 V2).
  rewrite <- (daysFromCivil_earlier _ _ _ _ _ _ V2 V1).
  unfold jsnum_eqb, jsnum_sub, Date_sub, positive, negative, msPerDay.
  destruct (Z.eqb_spec c2 c1) as [->|Hc]; cbn [negb].
  - rewrite Z.ltb_irrefl, Z.eqb_refl. cbn [orb andb].
    destruct (Z.eqb_spec k2 k1) as [->|Hk]; cbn [negb].
    + rewrite Z.ltb_irrefl, Z.eqb_refl. cbn [orb andb].
      split.
      * destruct (Z.ltb_spec (daysFromCivil y1 m1 d1) (daysFromCivil y2 m2 d2));
          [apply Z.ltb_lt | apply Z.ltb_ge]; lia.
      * destruct (Z.ltb_spec (daysFromCivil y2 m2 d2) (daysFromCivil y1 m1 d1));
          [apply Z.ltb_lt | apply Z.ltb_ge]; lia.
    + rewrite (proj2 (Z.eqb_neq k1 k2)) by congruence. cbn [andb].
      rewrite !orb_false_r. split.
      * destruct (Z.ltb_spec k1 k2); [apply Z.ltb_lt | apply Z.ltb_ge]; lia.
      * destruct (Z.ltb_spec k2 k1); [apply Z.ltb_lt | apply Z.ltb_ge]; lia.
  - rewrite (proj2 (Z.eqb_neq c1 c2)) by congruence. cbn [andb].
    rewrite !orb_false_r. split.
    + destruct (Z.ltb_spec c1 c2); [apply Z.ltb_lt | apply Z.ltb_ge]; lia.
    + destruct (Z.ltb_spec c2 c1); [apply Z.ltb_lt | apply Z.ltb_ge]; lia.
Qed.


Lemma outranks_false_iff (a b : Player) c1 k1 y1 m1 d1 c2 k2 y2 m2 d2 :
  rankKey a = Some (c1, k1, (y1, m1, d1)) ->
  rankKey b = Some (c2, k2, (y2, m2, d2)) ->
  outranks a b = false <->
  (c1 < c2 \/ (c1 = c2 /\ (k1 < k2 \/ (k1 = k2
     /\ daysFromCivil y1 m1 d1 <= daysFromCivil y2 m2 d2)))).
Proof.
  intros Ha Hb. unfold outranks. rewrite Ha, Hb.
  apply rankKey_inv in Ha as (_ & _ & Hd1).
  apply rankKey_inv in Hb as (_ & _ & Hd2).
  pose proof (calendarDate_valid _ _ _ _ Hd1) as V1.
  pose proof (calendarDate_valid _ _ _ _ Hd2) as V2.
  rewrite <- (daysFromCivil_earlier _ _ _ _ _ _ V2 V1).
  rewrite orb_false_iff, andb_false_iff, orb_false_iff, andb_false_iff.
  rewrite !Z.ltb_ge, !Z.eqb_neq. lia.
Qed.

Lemma holdsAgainst_trans (a b c : Player) :
  holdsAgainst a b -> holdsAgainst b c -> holdsAgainst a c.
Proof.
  intros (Ha & Hb & Hab) (_ & Hc & Hbc).
  split; [exact Ha|]. split; [exact Hc|].
  destruct Ha as [[[c1 k1] [[y1 m1] d1]] Ha].
  destruct Hb as [[[c2 k2] [[y2 m2] d2]] Hb].
  destruct Hc as [[[c3 k3] [[y3 m3] d3]] Hc].
  rewrite (outranks_false_iff _ _ _ _ _ _ _ _ _ _ _ _ Hb Ha) in Hab.
  rewrite (outranks_false_iff _ _ _ _ _ _ _ _ _ _ _ _ Hc Hb) in Hbc.
  rewrite (outranks_false_iff _ _ _ _ _ _ _ _ _ _ _ _ Hc Ha).
  lia.
Qed.

Lemma outranks_asym (a b : Player) :
  outranks a b = true -> outranks b a = false.
Proof.
  unfold outranks.
  destruct (rankKey a) as [[[c1 k1] [[y1 m1] d1]]|] eqn:Ha; [|discriminate].
  destruct (rankKey b) as [[[c2 k2] [[y2 m2] d2]]|] eqn:Hb; [|discriminate].
  apply rankKey_inv in Ha as (_ & _ & Hd1).
  apply rankKey_inv in Hb as (_ & _ & Hd2).
  pose proof (calendarDate_valid _ _ _ _ Hd1) as V1.
  pose proof (calendarDate_valid _ _ _ _ Hd2) as V2.
  rewrite <- (daysFromCivil_earlier _ _ _ _ _ _ V2 V1).
  rewrite <- (daysFromCivil_earlier _ _ _ _ _ _ V1 V2).
  rewrite orb_true_iff, andb_true_iff, orb_true_iff, andb_true_iff.
  rewrite orb_false_iff, andb_false_iff, orb_false_iff, andb_false_iff.
  rewrite !Z.ltb_lt, !Z.ltb_ge, !Z.eqb_eq, !Z.eqb_neq. lia.
Qed.

Lemma StronglySorted_lookup {A} (R : A -> A -> Prop) (l : list A) :
  StronglySorted R l ->
  forall (i j : nat) (a b : A),
    (i < j)%nat -> l !! i = Some a -> l !! j = Some b -> R a b.
Proof.
  induction 1 as [|x l Hs IH Hall]; intros i j a b Hij Hi Hj.
  - discriminate.
  - destruct j as [|j]; [lia|]. simpl in Hj.
    destruct i as [|i]; simpl in Hi.
    + injection Hi as <-. rewrite List.Forall_forall in Hall.
      apply Hall. apply list_elem_of_In. eapply list_elem_of_lookup_2.
      exact Hj.
    + apply (IH i j); [lia | assumption..].
Qed.

(** C7. The three entities of the example rank as [2, 1, 3]; on entities
    with integer scores and calendar dates the comparator orders by
    descending current score, then descending peak score, then most
    recent date first, and the result of [sortPlayers] is a rearrangement
    of its input in which no entity is outranked by a later one. *)
Theorem sortPlayers_ranking :
  (forall e1 e2 e3 : Player,
      userId e1 = lit "1" -> currentRankScore e1 = Int 2450 ->
      peakRankScore e1 = Int 2610 -> lastUpdated e1 = lit "2026-02-14" ->
      userId e2 = lit "2" -> currentRankScore e2 = Int 2450 ->
      peakRankScore e2 = Int 2700 -> lastUpdated e2 = lit "2026-02-13" ->
      userId e3 = lit "3" -> currentRankScore e3 = Int 1980 ->
      peakRankScore e3 = Int 2100 -> lastUpdated e3 = lit "2026-02-10" ->
      sortPlayers [e1; e2; e3] = [e2; e1; e3])
  /\ (forall a b : Player,
        is_Some (rankKey a) -> is_Some (rankKey b) ->
        positive (comparePlayers a b) = outranks b a
        /\ negative (comparePlayers a b) = outranks a b)
  /\ (forall ps : list Player,
        Forall (fun p => is_Some (rankKey p)) ps ->
        Permutation ps (sortPlayers ps)
        /\ forall (i j : nat) (a b : Player),
             (i < j)%nat ->
             sortPlayers ps !! i = Some a ->
             sortPlayers ps !! j = Some b ->
             outranks b a = false).
Proof.
  split; [|split].
  - intros [u1 n1 r1 c1 q1 k1 d1] [u2 n2 r2 c2 q2 k2 d2]
      [u3 n3 r3 c3 q3 k3 d3]; simpl.
    intros -> -> -> -> -> -> -> -> -> -> -> ->.
    reflexivity.
  - apply comparePlayers_outranks.
  - intros ps Hwf. split; [apply Array_sort_perm|].
    assert (Hs : StronglySorted holdsAgainst (sortPlayers ps)).
    { apply Array_sort_sorted; [exact holdsAgainst_trans|].
      intros x y Hx Hy.
      rewrite List.Forall_forall in Hwf.
      pose proof (Hwf x Hx) as Kx. pose proof (Hwf y Hy) as Ky.
      destruct (comparePlayers_outranks x y Kx Ky) as [Hp _].
      rewrite Hp. unfold holdsAgainst.
      destruct (outranks y x) eqn:E.
      - split; [exact Ky|]. split; [exact Kx|].
        apply outranks_asym. exact E.
      - split; [exact Kx|]. split; [exact Ky|]. reflexivity. }
    intros i j a b Hij Hi Hj.
    apply (StronglySorted_lookup _ _ Hs i j a b Hij Hi Hj).
Qed.


(** ** parser.js: the batch entry point *)

Lemma isLeaderboardUpdate_prefix (content : jsstring) :
  isLeaderboardUpdate content = beginsWithPrefix content.
Proof.
  unfold isLeaderboardUpdate, beginsWithPrefix.
  destruct content; reflexivity.
Qed.

Lemma parseStep_counts (r : ParseResults) (m : Message) :
  let r' := parseStep r m in
  (length (successful r') + length (failed r') + skipped r'
   = S (length (successful r) + length (failed r) + skipped r))%nat
  /\ skipped r'
     = (skipped r
        + if beginsWithPrefix (msg_content m) then 0 else 1)%nat
  /\ Permutation (classifiedIds r')
       (classifiedIds r
        ++ if beginsWithPrefix (msg_content m) then [msg_id m] else []).
Proof.
  cbv zeta. unfold parseStep, classifiedIds.
  rewrite isLeaderboardUpdate_prefix.
  destruct (beginsWithPrefix (msg_content m)); cbn [negb].
  - destruct (parseLeaderboardUpdate (msg_content m)); cbn [successful failed skipped].
    + rewrite length_app, List.map_app. cbn [length List.map messageId].
      split; [lia|]. split; [lia|].
      rewrite <- !app_assoc. apply Permutation_app_head.
      apply Permutation_app_comm.
    + rewrite length_app, List.map_app. cbn [length List.map f_messageId].
      split; [lia|]. split; [lia|].
      rewrite <- !app_assoc. reflexivity.
  - cbn [successful failed skipped]. split; [lia|]. split; [lia|].
    rewrite app_nil_r. reflexivity.
Qed.

Lemma parseFold_counts (messages : list Message) (r : ParseResults) :
  let r' := fold_left parseStep messages r in
  (length (successful r') + length (failed r') + skipped r'
   = length (successful r) + length (failed r) + skipped r
     + length messages)%nat
  /\ skipped r'
     = (skipped r
        + length (List.filter
                    (fun m => negb (beginsWithPrefix (msg_content m)))
                    messages))%nat
  /\ Permutation (classifiedIds r')
       (classifiedIds r
        ++ List.map msg_id
             (List.filter (fun m => beginsWithPrefix (msg_content m))
                messages)).
Proof.
  revert r. induction messages as [|m ms IH]; intros r; cbv zeta.
  - cbn [fold_left List.filter List.map length]. rewrite app_nil_r.
    split; [lia|]. split; [lia|reflexivity].
  - cbn [fold_left List.filter length].
    pose proof (IH (parseStep r m)) as H. cbv zeta in H.
    destruct H as (H1 & H2 & H3).
    pose proof (parseStep_counts r m) as S. cbv zeta in S.
    destruct S as (S1 & S2 & S3).
    split; [lia|]. split.
    + rewrite H2, S2.
      destruct (beginsWithPrefix (msg_content m)); cbn [negb length]; lia.
    + rewrite H3, S3.
      destruct (beginsWithPrefix (msg_content m)); cbn [List.map].
      * rewrite <- app_assoc. reflexivity.
      * rewrite app_nil_r. reflexivity.
Qed.

(** C10. The batch parser puts every message into exactly one bucket:
    the three counts add up to the number of messages; the skipped count
    is the number of messages whose content does not begin, after
    trimming, with [LB_UPDATE:]; and the messages accounted for as parsed
    or failed are those whose content does. *)
Theorem parseMultipleUpdates_partition (messages : list Message) :
  let r := parseMultipleUpdates messages in
  (length (successful r) + length (failed r) + skipped r
   = length messages)%nat
  /\ skipped r
     = length (List.filter
                 (fun m => negb (beginsWithPrefix (msg_content m)))
                 messages)
  /\ Permutation (classifiedIds r)
       (List.map msg_id
          (List.filter (fun m => beginsWithPrefix (msg_content m))
             messages)).
Proof.
  cbv zeta. unfold parseMultipleUpdates.
  destruct (parseFold_counts messages
              {| successful := []; failed := []; skipped := 0%nat |})
    as (H1 & H2 & H3).
  cbn in H1, H2, H3. auto.
Qed.


(** ** sync.js: the merge loop *)

Lemma mergeFold_cursor (updates : list Successful) (st : MergeState) :
  lastMessageId (fold_left mergeStep updates st)
  = match last (validUpdates updates) with
    | Some u => Some (messageId u)
    | None => lastMessageId st
    end.
Proof.
  revert st. induction updates as [|u us IH]; intros st; [reflexivity|].
  cbn [fold_left]. rewrite IH. unfold validUpdates. cbn [List.filter].
  unfold mergeStep at 1.
  destruct (validatePlayerData (playerDataOf u)); cbn [negb].
  - fold (validUpdates us).
    destruct (validUpdates us) as [|v vs] eqn:E; [reflexivity|].
    rewrite last_cons_cons.
    destruct (last (v :: vs)) eqn:L; [reflexivity|].
    apply last_None in L. discriminate.
  - reflexivity.
Qed.

(** What a successful parse guarantees about the scores. *)
Lemma parseLeaderboardUpdate_scores (content : jsstring) (u : ParsedUpdate) :
  parseLeaderboardUpdate content = Some u ->
  nonNegative (u_currentRankScore u) = true
  /\ nonNegative (u_peakRankScore u) = true.
Proof.
  unfold parseLeaderboardUpdate.
  destruct (isEmpty content); [discriminate|].
  destruct (negb _); [discriminate|].
  destruct (splitWs _) as [|mention [|cr [|crs [|pr [|prs [|lu extra]]]]]];
    try discriminate.
  destruct (extractUserId mention) as [uid|]; [|discriminate].
  destruct (isEmpty uid); [discriminate|].
  destruct (parseInt crs) as [|c], (parseInt prs) as [|k];
    cbn [isNaN orb]; try discriminate.
  destruct (jsnum_ltb (Int c) (Int 0) || jsnum_ltb (Int k) (Int 0)) eqn:E;
    [discriminate|].
  destruct (parseDate lu) as [d|]; [|discriminate].
  destruct (isEmpty d); [discriminate|].
  destruct (isEmpty _ || isEmpty _); [discriminate|].
  intros [= <-]. cbn [u_currentRankScore u_peakRankScore nonNegative].
  apply orb_false_iff in E as [E1 E2]. simpl in E1, E2.
  apply Z.ltb_ge in E1, E2. split; apply Z.leb_le; assumption.
Qed.

Lemma parseFold_successful (messages : list Message) (r : ParseResults) :
  Forall (fun s => exists c, parseLeaderboardUpdate c = Some (data s))
    (successful r) ->
  Forall (fun s => exists c, parseLeaderboardUpdate c = Some (data s))
    (successful (fold_left parseStep messages r)).
Proof.
  revert r. induction messages as [|m ms IH]; intros r Hr; [exact Hr|].
  cbn [fold_left]. apply IH. unfold parseStep.
  destruct (negb _); [exact Hr|].
  destruct (parseLeaderboardUpdate (msg_content m)) eqn:E;
    cbn [successful]; [|exact Hr].
  apply Forall_app. split; [exact Hr|].
  constructor; [|constructor]. exists (msg_content m). exact E.
Qed.

Lemma upsertPlayer_uniqueIds (ps : list Player) (u : Player) :
  uniqueIds ps -> uniqueIds (upsert_players (upsertPlayer ps u)).
Proof.
  unfold uniqueIds, upsertPlayer. intros Hnd.
  destruct (list_find (fun p => userId p = userId u) ps) as [[i e]|] eqn:Hf.
  - destruct (Date_ltb _ _); cbn [upsert_players]; [exact Hnd|].
    apply list_find_Some in Hf as (Hi & Hid & _).
    change (List.map userId (<[i:=u]> ps)) with (userId <$> <[i:=u]> ps).
    rewrite list_fmap_insert, <- Hid.
    rewrite list_insert_id; [exact Hnd|].
    rewrite list_lookup_fmap, Hi. reflexivity.
  - cbn [upsert_players]. rewrite List.map_app. cbn [List.map].
    apply list_find_None in Hf.
    apply NoDup_app. split; [exact Hnd|]. split; [|apply NoDup_singleton].
    intros x Hx Hx'. apply list_elem_of_singleton in Hx'. subst x.
    apply list_elem_of_In, in_map_iff in Hx as [p [Hp Hin]].
    rewrite Forall_forall in Hf. apply (Hf p); [|exact Hp].
    apply list_elem_of_In. exact Hin.
Qed.

Lemma upsertPlayer_members (ps : list Player) (u p : Player) :
  In p (upsert_players (upsertPlayer ps u)) -> In p ps \/ p = u.
Proof.
  unfold upsertPlayer.
  destruct (list_find (fun p => userId p = userId u) ps) as [[i e]|].
  - destruct (Date_ltb _ _); cbn [upsert_players]; [auto|].
    intros Hin. apply list_elem_of_In, list_elem_of_lookup in Hin as [j Hj].
    destruct (decide (i = j)) as [->|Hne].
    + destruct (decide (j < length ps)%nat).
      * rewrite list_lookup_insert_eq in Hj by assumption.
        injection Hj as <-. auto.
      * rewrite list_insert_ge in Hj by lia.
        left. apply list_elem_of_In. eapply list_elem_of_lookup_2. exact Hj.
    + rewrite list_lookup_insert_ne in Hj by assumption.
      left. apply list_elem_of_In. eapply list_elem_of_lookup_2. exact Hj.
  - cbn [upsert_players]. intros Hin. apply in_app_or in Hin as [H|[H|[]]]; auto.
Qed.


Lemma mergeFold_invariants (updates : list Successful) (st : MergeState) :
  Forall (fun s => exists c, parseLeaderboardUpdate c = Some (data s))
    updates ->
  (forall p, In p (m_players (fold_left mergeStep updates st)) ->
             In p (m_players st) \/ satisfiesInvariants p = true)
  /\ (uniqueIds (m_players st) ->
      uniqueIds (m_players (fold_left mergeStep updates st))).
Proof.
  revert st. induction updates as [|u us IH]; intros st Hprov.
  - cbn [fold_left]. auto.
  - apply Forall_cons in Hprov as [[c Hc] Hprov].
    cbn [fold_left]. destruct (IH (mergeStep st u) Hprov) as [IH1 IH2].
    unfold mergeStep in IH1, IH2 |- *.
    destruct (validatePlayerData (playerDataOf u)) eqn:Hv;
      cbn [negb] in IH1, IH2 |- *; [|auto].
    cbn [m_players] in IH1, IH2 |- *. split.
    + intros p Hp. destruct (IH1 p Hp) as [Hin|Hok]; [|auto].
      apply upsertPlayer_members in Hin as [Hin| ->]; [auto|].
      right. unfold satisfiesInvariants.
      destruct (parseLeaderboardUpdate_scores _ _ Hc) as [S1 S2].
      cbn [playerDataOf currentRankScore peakRankScore lastUpdated].
      rewrite S1, S2. cbn [andb].
      unfold validatePlayerData in Hv.
      destruct (jsnum_ltb _ _ || jsnum_ltb _ _); [discriminate|].
      cbn [playerDataOf lastUpdated] in Hv.
      destruct (testDate (u_lastUpdated (data u))); [reflexivity|discriminate].
    + intros Hu. apply IH2. apply upsertPlayer_uniqueIds. exact Hu.
Qed.

(** C5, as the code has it.  Through the merge step (parse, validate,
    upsert), from messages whose score tokens denote at most 2^53 - 1,
    only entities with non-negative integer scores and a strict
    YYYY-MM-DD date enter the collection, and a collection with one
    entity per id keeps one entity per id.  The bound is the range in
    which [parseInt] returns the integer that the digits denote: a
    longer token is rounded to a double, from about 309 digits to
    Infinity, and the checks let that pass as well.  The decoder checks
    nothing but the number of fields, so what a container holds is
    taken as it is. *)
Theorem merge_invariants (currentState : State) (messages : list Message) :
  Forall exactScores messages ->
  let st := mergeUpdates currentState
              (successful (parseMultipleUpdates messages)) in
  (forall p, In p (m_players st) ->
             In p (players currentState) \/ satisfiesInvariants p = true)
  /\ (uniqueIds (players currentState) -> uniqueIds (m_players st)).
Proof.
  intros _. cbv zeta. unfold mergeUpdates.
  apply (mergeFold_invariants
           (successful (parseMultipleUpdates messages))
           {| m_players := players currentState;
              updatedCount := 0%nat;
              lastMessageId := lastProcessedMessageId currentState |}).
  unfold parseMultipleUpdates. apply parseFold_successful. constructor.
Qed.


(** ** renderer.js: the overflow degrader *)

Lemma join_snoc (sep : jsstring) (l : list jsstring) (x : jsstring) :
  l <> [] -> join sep (l ++ [x]) = join sep l ++ sep ++ x.
Proof.
  induction l as [|a l IH]; [congruence|]. intros _.
  destruct l as [|b l]; [reflexivity|].
  change (join sep ((a :: b :: l) ++ [x]))
    with (a ++ sep ++ join sep ((b :: l) ++ [x])).
  rewrite IH by discriminate.
  change (join sep (a :: b :: l)) with (a ++ sep ++ join sep (b :: l)).
  rewrite <- !app_assoc. reflexivity.
Qed.

Lemma renderEntries_total (showEmojis : bool) (position : nat)
    (ps : list Player) :
  Forall printableDate ps ->
  exists entries, renderEntries showEmojis position ps = Some entries.
Proof.
  revert position. induction ps as [|p ps IH]; intros position Hall.
  - exists []. reflexivity.
  - apply Forall_cons in Hall as [[t Ht] Hall].
    destruct (IH (S position) Hall) as [more Hmore].
    cbn [renderEntries]. unfold renderPlayerEntry, formatDate.
    rewrite Ht. cbn. rewrite Hmore. cbn. eauto.
Qed.

(** On printable dates a render returns, and its text ends with the data
    section of exactly the players it was given. *)
Lemma renderLeaderboard_total (gameName : jsstring) (ps : list Player)
    (cursor : option jsstring) (maxPlayers : nat) (showEmojis : bool)
    (tick : nat) :
  Forall printableDate ps ->
  exists rendered,
    renderLeaderboard gameName ps cursor maxPlayers showEmojis tick
    = Some rendered
    /\ carriesData rendered cursor ps.
Proof.
  intros Hall. unfold renderLeaderboard, carriesData.
  match goal with
  | |- context [mbind _ ?c] => assert (Hb : exists body, c = Some body)
  end.
  { destruct (isEmpty ps); [eauto|].
    destruct (renderEntries_total showEmojis 1 (take maxPlayers ps))
      as [entries He]; [apply Forall_take; exact Hall|].
    rewrite He. cbn [mbind option_bind]. eauto. }
  destruct Hb as [body ->]. cbn [mbind option_bind].
  eexists. split; [reflexivity|].
  rewrite app_assoc, join_snoc; [eexists; reflexivity|].
  intros H. apply app_eq_nil in H as [_ H]. discriminate H.
Qed.


Lemma halved_lt (n j : nat) :
  (0 < n / 2 ^ S j -> n / 2 ^ S j < n)%nat.
Proof.
  intros H. assert (0 < n)%nat
    by (destruct n; [rewrite Nat.Div0.div_0_l in H; lia | lia]).
  apply Nat.div_lt; [assumption|].
  pose proof (Nat.pow_nonzero 2 j). simpl. lia.
Qed.

Lemma truncateLoop_spec (gameName : jsstring) (ps : list Player)
    (cursor : option jsstring) (maxLength tick0 : nat) :
  Forall printableDate ps ->
  forall (playerCount j : nat),
    playerCount = halved ps j ->
    (forall i, (i < j)%nat -> overflows gameName ps cursor maxLength tick0 i) ->
    exists t,
      truncateLoop gameName ps cursor maxLength playerCount (tick0 + j)
      = Some t
      /\ truncated t = true
      /\ degradedTo gameName ps cursor maxLength tick0 t.
Proof.
  intros Hall playerCount.
  induction playerCount as [playerCount IH] using lt_wf_ind.
  intros j Hj Hover. destruct playerCount as [|n].
  - rewrite truncateLoop_equation_1.
    destruct (renderLeaderboard_total gameName (take 3 ps) cursor 50 true
                (tick0 + j))
      as (r & Hr & Hdata); [apply Forall_take; exact Hall|].
    rewrite Hr. cbn [mbind option_bind]. eexists. split; [reflexivity|].
    split; [reflexivity|]. exists j. split; [exact Hover|]. right.
    cbn [content shownCount].
    split; [symmetry; exact Hj|]. split; [exact Hr|]. split; [exact Hdata|].
    intros H3. split; [reflexivity|]. rewrite length_take. lia.
  - assert (Hlt : (S n < length ps)%nat)
      by (rewrite Hj; apply halved_lt; unfold halved in Hj; lia).
    rewrite truncateLoop_equation_2.
    destruct (renderLeaderboard_total gameName (take (S n) ps) cursor (S n)
                true (tick0 + j))
      as (r & Hr & Hdata); [apply Forall_take; exact Hall|].
    rewrite Hr. destruct (fits r maxLength) eqn:Hfit.
    + eexists. split; [reflexivity|]. split; [reflexivity|].
      exists j. split; [exact Hover|]. left.
      cbn [content shownCount]. rewrite <- Hj.
      split; [reflexivity|]. split; [lia|]. split; [exact Hr|].
      split; [apply Nat.leb_le; exact Hfit|]. split; [exact Hdata|].
      rewrite length_take. lia.
    + rewrite <- Nat.add_succ_r. apply IH.
      * apply Nat.div_lt; lia.
      * rewrite Hj. unfold halved. rewrite Nat.Div0.div_div.
        f_equal. rewrite (Nat.pow_succ_r' 2 (S j)). lia.
      * intros i Hi. destruct (Nat.eq_dec i j) as [->|Hne].
        -- unfold overflows. rewrite <- Hj. split; [lia|].
           exists r. split; [exact Hr | exact Hfit].
        -- apply Hover. lia.
Qed.

(** C8, as the code has it. For a collection with printable dates whose
    baseline render exceeds 2000 characters, [truncateIfNeeded] (with its
    default 1900) returns and reports a truncation. Along the halving
    counts n/2, n/4, ... it returns the first render that fits 1900
    characters (so at most 2000), the reported count being that count,
    strictly smaller than n and equal to the number of entities encoded in
    the data section; when every halving overflows down to zero entities
    it returns the floor, the render of the first three entities, accepted
    whatever its length. *)
Theorem truncateIfNeeded_degrades (gameName : jsstring) (ps : list Player)
    (cursor : option jsstring) (tick : nat) :
  Forall printableDate ps ->
  (forall rendered,
      renderLeaderboard gameName ps cursor 50 true tick = Some rendered ->
      (2000 < length rendered)%nat) ->
  exists t,
    truncateIfNeeded gameName ps cursor 1900 tick = Some t
    /\ truncated t = true
    /\ degradedTo gameName ps cursor 1900 (S tick) t.
Proof.
  intros Hall Hlong. unfold truncateIfNeeded.
  destruct (renderLeaderboard_total gameName ps cursor 50 true tick Hall)
    as (r & Hr & _).
  rewrite Hr. cbn [mbind option_bind].
  pose proof (Hlong r Hr) as Hlen.
  assert (Hfit : fits r 1900 = false).
  { unfold fits. apply Nat.leb_gt. lia. }
  rewrite Hfit.
  pose proof (truncateLoop_spec gameName ps cursor 1900 (S tick) Hall
                (length ps / 2) 0 eq_refl) as H.
  rewrite Nat.add_0_r in H. apply H. intros i Hi. lia.
Qed.


(** ** Facts about splitting, joining and trimming *)

Lemma splitOn_nonempty (c : N) (s : jsstring) : splitOn c s <> [].
Proof.
  destruct s as [|x s]; simpl; [discriminate|].
  destruct (x =? c)%N; [discriminate|].
  destruct (splitOn c s); discriminate.
Qed.

Lemma splitOn_plain (c : N) (a : jsstring) :
  ~ In c a -> splitOn c a = [a].
Proof.
  induction a as [|x a IH]; intros Hn; [reflexivity|]. simpl.
  destruct (N.eqb_spec x c) as [->|Hne]; [exfalso; apply Hn; left; reflexivity|].
  rewrite IH; [reflexivity|]. intros H. apply Hn. right. exact H.
Qed.

Lemma splitOn_app_sep (c : N) (a b : jsstring) :
  ~ In c a -> splitOn c (a ++ c :: b) = a :: splitOn c b.
Proof.
  induction a as [|x a IH]; intros Hn; simpl.
  - rewrite N.eqb_refl. reflexivity.
  - destruct (N.eqb_spec x c) as [->|Hne];
      [exfalso; apply Hn; left; reflexivity|].
    rewrite IH; [reflexivity|]. intros H. apply Hn. right. exact H.
Qed.

(** Splitting what was joined gives the pieces back, when no piece holds
    the separator. *)
Lemma splitOn_join (c : N) (ls : list jsstring) :
  ls <> [] -> Forall (fun l => ~ In c l) ls ->
  splitOn c (join [c] ls) = ls.
Proof.
  induction ls as [|l ls IH]; [congruence|]. intros _ Hall.
  apply Forall_cons in Hall as [Hl Hall].
  destruct ls as [|l' ls].
  - simpl. apply splitOn_plain. exact Hl.
  - change (join [c] (l :: l' :: ls)) with (l ++ c :: join [c] (l' :: ls)).
    rewrite splitOn_app_sep by exact Hl.
    rewrite IH; [reflexivity | discriminate | exact Hall].
Qed.

(** Joining what was split gives the text back. *)
Lemma join_splitOn (c : N) (s : jsstring) : join [c] (splitOn c s) = s.
Proof.
  induction s as [|x s IH]; [reflexivity|]. simpl.
  destruct (N.eqb_spec x c) as [->|Hne].
  - pose proof (splitOn_nonempty c s) as Hne.
    destruct (splitOn c s) as [|h t] eqn:E; [congruence|].
    change (join [c] ([] :: h :: t)) with ([] ++ [c] ++ join [c] (h :: t)).
    rewrite IH. reflexivity.
  - pose proof (splitOn_nonempty c s) as Hne'.
    destruct (splitOn c s) as [|h t] eqn:E; [congruence|].
    destruct t as [|h' t].
    + simpl in IH |- *. congruence.
    + change (join [c] ((x :: h) :: h' :: t))
        with (x :: (h ++ [c] ++ join [c] (h' :: t))).
      change (join [c] (h :: h' :: t))
        with (h ++ [c] ++ join [c] (h' :: t)) in IH.
      rewrite IH. reflexivity.
Qed.

Lemma dropWhile_all {A} (f : A -> bool) (w r : list A) :
  forallb f w = true -> dropWhile f (w ++ r) = dropWhile f r.
Proof.
  induction w as [|x w IH]; [reflexivity|]. simpl.
  destruct (f x); [exact IH | discriminate].
Qed.

Lemma forallb_rev {A} (f : A -> bool) (l : list A) :
  forallb f (rev l) = forallb f l.
Proof.
  induction l as [|x l IH]; [reflexivity|]. simpl.
  rewrite forallb_app, IH. simpl. rewrite andb_true_r. apply andb_comm.
Qed.

(** Trimming strips a white-space margin, and nothing else, from a text
    that begins and ends with something else. *)
Lemma trim_margins (w1 w2 : jsstring) (h c : N) (s : jsstring) :
  forallb isWhiteSpace w1 = true -> forallb isWhiteSpace w2 = true ->
  isWhiteSpace h = false -> isWhiteSpace c = false ->
  forall core, core = h :: s -> (exists s', core = s' ++ [c]) ->
  trim (w1 ++ core ++ w2) = core.
Proof.
  intros H1 H2 Hh Hc core -> [s' Hs'].
  unfold trim, trimStart, trimEnd.
  rewrite dropWhile_all by exact H1.
  cbn [app dropWhile]. rewrite Hh.
  change (h :: s ++ w2) with ((h :: s) ++ w2). rewrite Hs'.
  rewrite !rev_app_distr.
  rewrite dropWhile_all by (rewrite forallb_rev; exact H2).
  cbn [rev app dropWhile]. rewrite Hc.
  change (c :: rev s') with (rev [c] ++ rev s').
  rewrite <- rev_app_distr, rev_involutive. reflexivity.
Qed.


(** ** Facts about occurrences *)

Lemma prefix_before_sep (c : N) (m a b q : jsstring) :
  ~ In c m -> a ++ c :: b = m ++ q -> exists q', a = m ++ q'.
Proof.
  revert a. induction m as [|y m IH]; intros a Hn H.
  - exists a. reflexivity.
  - destruct a as [|x a]; simpl in H.
    + injection H as -> _. exfalso. apply Hn. left. reflexivity.
    + injection H as -> H.
      destruct (IH a) as [q' ->]; [intros Hin; apply Hn; right; exact Hin
                                  | exact H |].
      exists q'. reflexivity.
Qed.

Lemma notIn_by_test (c : N) (s : jsstring) :
  forallb (fun x => negb (x =? c)%N) s = true -> ~ In c s.
Proof.
  rewrite forallb_forall. intros H Hin. specialize (H c Hin).
  rewrite N.eqb_refl in H. discriminate H.
Qed.

(** An occurrence of [m] in a text cut by a unit that [m] does not hold
    lies on one side of the cut. *)
Lemma app_sep_split (c : N) (m a b p q : jsstring) :
  ~ In c m -> a ++ c :: b = p ++ m ++ q ->
  (exists q', a = p ++ m ++ q')
  \/ (exists p', p = a ++ c :: p' /\ b = p' ++ m ++ q).
Proof.
  intros Hn. revert p. induction a as [|x a IH]; intros p H.
  - destruct p as [|y p]; simpl in H.
    + destruct (prefix_before_sep c m [] b q Hn H) as [q' Hq].
      left. exists q'. exact Hq.
    + injection H as -> H. right. exists p. auto.
  - destruct p as [|y p]; simpl in H.
    + destruct (prefix_before_sep c m (x :: a) b q Hn H) as [q' Hq].
      left. exists q'. exact Hq.
    + injection H as -> H. destruct (IH p H) as [[q' ->]|[p' [-> ->]]].
      * left. exists q'. reflexivity.
      * right. exists p'. auto.
Qed.

Lemma occurs_sep (c : N) (m a b : jsstring) :
  ~ In c m -> occurs m (a ++ c :: b) -> occurs m a \/ occurs m b.
Proof.
  intros Hn [p [q H]].
  destruct (app_sep_split c m a b p q Hn H) as [[q' ->]|[p' [_ ->]]].
  - left. exists p, q'. reflexivity.
  - right. exists p', q. reflexivity.
Qed.

Lemma occurs_cons_ne (h x : N) (m s : jsstring) :
  x <> h -> occurs (h :: m) (x :: s) -> occurs (h :: m) s.
Proof.
  intros Hne [p [q H]]. destruct p as [|y p]; simpl in H.
  - injection H as -> _. congruence.
  - injection H as _ ->. exists p, q. reflexivity.
Qed.

Lemma occurs_head (h : N) (m s : jsstring) :
  occurs (h :: m) s -> In h s.
Proof. intros [p [q ->]]. apply in_or_app. right. left. reflexivity. Qed.

Lemma occurs_length (m s : jsstring) :
  occurs m s -> (length m <= length s)%nat.
Proof. intros [p [q ->]]. rewrite !length_app. lia. Qed.

(** Where [indexOf] finds a needle that sits at the end of the text,
    behind a unit it does not hold, and nowhere before. *)
Lemma indexOf_behind_sep (c : N) (m pre : jsstring) :
  ~ In c m -> ~ occurs m pre ->
  indexOf m (pre ++ c :: m) = Z.of_nat (length pre) + 1.
Proof.
  intros Hn Hpre.
  destruct (indexOf_range m (pre ++ c :: m)) as [Hi|Hi].
  - exfalso. apply indexOf_absent in Hi. apply Hi.
    exists (pre ++ [c]), []. rewrite <- app_assoc, app_nil_r. reflexivity.
  - destruct (indexOf_found m (pre ++ c :: m)) as (p & q & Hs & Hl); [lia|].
    rewrite <- Hl.
    destruct (app_sep_split c m pre m p q Hn Hs) as [[q' ->]|[p' [-> Hm]]].
    + exfalso. apply Hpre. exists p, q'. reflexivity.
    + apply (f_equal (@length N)) in Hm. rewrite !length_app in Hm.
      destruct p'; [|simpl in Hm; lia].
      rewrite length_app. simpl. lia.
Qed.

Lemma substring_middle (a b c : jsstring) :
  substring (a ++ b ++ c) (Z.of_nat (length a))
    (Z.of_nat (length a) + Z.of_nat (length b)) = b.
Proof.
  unfold substring. cbv zeta. rewrite !length_app.
  match goal with
  | |- take ?n (drop ?k _) = _ =>
      replace n with (length b) by lia; replace k with (length a) by lia
  end.
  rewrite drop_app_length. rewrite take_app_length. reflexivity.
Qed.


(** ** Facts about numbers as text *)

Lemma digit_plain (c : N) :
  isDigit c || (c =? Ch.MINUS)%N = true ->
  isWhiteSpace c = false /\ c <> Ch.PIPE /\ c <> Ch.LF /\ c <> 91%N
  /\ c <> Ch.PLUS.
Proof.
  unfold isDigit, Ch.MINUS, Ch.PIPE, Ch.LF, Ch.PLUS.
  rewrite orb_true_iff, andb_true_iff, !N.leb_le, N.eqb_eq.
  intros H. assert (Hr : (45 <= c <= 57)%N) by lia.
  split; [|lia]. unfold isWhiteSpace.
  repeat match goal with
         | |- context [(c =? ?k)%N] =>
             rewrite (proj2 (N.eqb_neq c k)) by lia
         end.
  rewrite (proj2 (N.leb_gt 0x2000 c)) by lia. reflexivity.
Qed.

Lemma uintChars_numeric (u : uint) : numericText (uintChars u) = true.
Proof. induction u; simpl; auto. Qed.

Lemma Number_toString_numeric (z : Z) :
  numericText (Number_toString (Int z)) = true.
Proof.
  unfold Number_toString. destruct (Z.to_int z); simpl;
    apply uintChars_numeric.
Qed.

Lemma digitPrefix_uintChars (u : uint) : digitPrefix (uintChars u) = u.
Proof. induction u; simpl; congruence. Qed.

Lemma uintChars_head (u : uint) :
  u <> Nil ->
  exists c r, uintChars u = c :: r /\ isDigit c = true.
Proof. destruct u; [congruence|..]; intros _; simpl; eauto. Qed.

Lemma Z_to_int_nonnil (z : Z) :
  match Z.to_int z with Decimal.Pos u | Decimal.Neg u => u <> Nil end.
Proof.
  destruct z; simpl; [discriminate|..];
    apply DecimalPos.Unsigned.to_uint_nonnil.
Qed.

(** Reading back what [String(n)] wrote gives the number. *)
Lemma parseInt_Number_toString (n : jsnum) :
  parseInt (Number_toString n) = n.
Proof.
  destruct n as [|z]; [reflexivity|].
  pose proof (DecimalZ.of_to z) as Hz.
  pose proof (Z_to_int_nonnil z) as Hn.
  unfold Number_toString. destruct (Z.to_int z) as [u|u].
  - destruct (uintChars_head u Hn) as (c & r & Hu & Hc).
    unfold parseInt, trimStart.
    assert (Hd : isDigit c || (c =? Ch.MINUS)%N = true)
      by (rewrite Hc; reflexivity).
    destruct (digit_plain c Hd) as (Hws & _ & _ & _ & Hplus).
    rewrite Hu. cbn [dropWhile]. rewrite Hws.
    assert (Hm : (c =? Ch.MINUS)%N = false).
    { apply N.eqb_neq. intros ->. discriminate Hc. }
    rewrite Hm, (proj2 (N.eqb_neq _ _) Hplus).
    rewrite <- Hu, digitPrefix_uintChars.
    rewrite <- Hz. destruct u; [congruence|..]; reflexivity.
  - unfold parseInt, trimStart. cbn [dropWhile].
    change (isWhiteSpace Ch.MINUS) with false. cbn iota.
    rewrite N.eqb_refl. rewrite digitPrefix_uintChars.
    rewrite <- Hz. destruct u; [congruence|..]; reflexivity.
Qed.


(** ** Facts about the fields of an encoded entity *)

Lemma in_join (c : N) (sep : jsstring) (ls : list jsstring) :
  In c (join sep ls) -> In c sep \/ exists l, In l ls /\ In c l.
Proof.
  induction ls as [|l ls IH]; [intros []|].
  destruct ls as [|l' ls].
  - simpl. intros H. right. exists l. auto.
  - change (join sep (l :: l' :: ls)) with (l ++ sep ++ join sep (l' :: ls)).
    intros H. apply in_app_or in H as [H|H].
    + right. exists l. split; [left; reflexivity | exact H].
    + apply in_app_or in H as [H|H]; [left; exact H|].
      destruct (IH H) as [Hs|[x [Hx Hc]]]; [left; exact Hs|].
      right. exists x. split; [right; exact Hx | exact Hc].
Qed.

Lemma occurs_join (c h : N) (m : jsstring) (ls : list jsstring) :
  ~ In c (h :: m) -> occurs (h :: m) (join [c] ls) ->
  exists l, In l ls /\ occurs (h :: m) l.
Proof.
  intros Hn. induction ls as [|l ls IH].
  - intros H. apply occurs_head in H. destruct H.
  - destruct ls as [|l' ls].
    + simpl. intros H. exists l. auto.
    + change (join [c] (l :: l' :: ls)) with (l ++ c :: join [c] (l' :: ls)).
      intros H. apply occurs_sep in H as [H|H]; [| |exact Hn].
      * exists l. split; [left; reflexivity | exact H].
      * destruct (IH H) as [x [Hx Ho]].
        exists x. split; [right; exact Hx | exact Ho].
Qed.

Lemma join_head (sep : jsstring) (h : N) (s : jsstring) (ls : list jsstring) :
  exists r, join sep ((h :: s) :: ls) = h :: r.
Proof. destruct ls; simpl; eauto. Qed.

Lemma join_last (sep : jsstring) (ls : list jsstring) (l s : jsstring) (c : N) :
  last ls = Some l -> l = s ++ [c] ->
  exists r, join sep ls = r ++ [c].
Proof.
  intros Hl ->. induction ls as [|x ls IH]; [discriminate|].
  destruct ls as [|y ls].
  - simpl in Hl. injection Hl as ->. exists s. reflexivity.
  - rewrite last_cons_cons in Hl. destruct (IH Hl) as [r Hr].
    change (join sep (x :: y :: ls)) with (x ++ sep ++ join sep (y :: ls)).
    rewrite Hr. exists (x ++ sep ++ r). rewrite <- !app_assoc. reflexivity.
Qed.

Lemma numericText_plain (s : jsstring) :
  numericText s = true ->
  ~ In Ch.PIPE s /\ ~ In Ch.LF s /\ ~ occurs DATA_END_MARKER s
  /\ Forall (fun c => isWhiteSpace c = false) s.
Proof.
  unfold numericText. rewrite forallb_forall. intros H.
  assert (Hc : forall c, In c s ->
             isWhiteSpace c = false /\ c <> Ch.PIPE /\ c <> Ch.LF
             /\ c <> 91%N /\ c <> Ch.PLUS)
    by (intros c Hin; apply digit_plain, H, Hin).
  split; [intros Hin; destruct (Hc _ Hin) as (_ & Hp & _); congruence|].
  split; [intros Hin; destruct (Hc _ Hin) as (_ & _ & Hp & _); congruence|].
  split.
  - change DATA_END_MARKER with (91%N :: lit "/DATA]").
    intros Ho. apply occurs_head in Ho.
    destruct (Hc _ Ho) as (_ & _ & _ & Hp & _). congruence.
  - apply List.Forall_forall. intros c Hin.
    destruct (Hc _ Hin) as (Hp & _). exact Hp.
Qed.

Lemma plainField_plain (f : jsstring) :
  plainField f = true ->
  ~ In Ch.PIPE f /\ ~ In Ch.LF f /\ ~ occurs DATA_END_MARKER f.
Proof.
  unfold plainField. rewrite andb_true_iff, forallb_forall, Z.eqb_eq.
  intros [Hc Hi].
  split; [|split].
  - intros Hin. specialize (Hc _ Hin). rewrite N.eqb_refl in Hc. discriminate.
  - intros Hin. specialize (Hc _ Hin). rewrite N.eqb_refl in Hc.
    rewrite andb_false_r in Hc. discriminate.
  - apply indexOf_absent. exact Hi.
Qed.

Lemma testDate_shape (s : jsstring) :
  testDate s = true ->
  numericText s = true
  /\ exists s' c, s = s' ++ [c] /\ isDigit c = true.
Proof.
  unfold testDate, matchDate.
  do 11 (destruct s as [|? s]; try discriminate).
  match goal with
  | |- context [if ?b then Some _ else None] =>
      destruct b eqn:E; [|discriminate]
  end.
  intros _. rewrite !andb_true_iff, !N.eqb_eq in E.
  destruct E as [[[[[[[[[E1 E2] E3] E4] E5] E6] E7] E8] E9] E10].
  split.
  - unfold numericText. cbn [forallb].
    rewrite E1, E2, E3, E4, E6, E7, E9, E10, E5, E8. reflexivity.
  - eexists [_; _; _; _; _; _; _; _; _], _. split; [reflexivity | exact E10].
Qed.


(** ** The codec on one entity *)

Lemma storable_inv (p : Player) :
  storable p = true ->
  numericText (userId p) = true
  /\ username p <> []
  /\ plainField (username p) = true
  /\ plainField (currentRank p) = true
  /\ plainField (peakRank p) = true
  /\ testDate (lastUpdated p) = true.
Proof.
  unfold storable. rewrite !andb_true_iff.
  intros [[[[[[[Hid Hn] Hu] Hc] Hp] _] _] Hd].
  split; [|split; [|auto]].
  - unfold numericText. rewrite forallb_forall in Hid |- *.
    intros c Hc'. rewrite (Hid c Hc'). reflexivity.
  - destruct (username p); [discriminate Hn | discriminate].
Qed.

(** The seven fields of an encoded entity, each free of the delimiter, of
    the line feed and of the end marker. *)
Lemma encodePlayer_fields (p : Player) :
  storable p = true ->
  Forall (fun f => ~ In Ch.PIPE f /\ ~ In Ch.LF f
                   /\ ~ occurs DATA_END_MARKER f)
    [ userId p; orElse (username p) (lit "Unknown"); currentRank p;
      Number_toString (currentRankScore p); peakRank p;
      Number_toString (peakRankScore p); lastUpdated p ].
Proof.
  intros Hs. pose proof Hs as Hs'.
  apply storable_inv in Hs as (Hid & Hn & Hu & Hc & Hp & Hd).
  unfold storable in Hs'. rewrite !andb_true_iff in Hs'.
  destruct Hs' as [[[_ Hcs] Hps] _].
  destruct (currentRankScore p) as [|c]; [discriminate Hcs|].
  destruct (peakRankScore p) as [|k]; [discriminate Hps|].
  assert (Hnum : forall s, numericText s = true ->
            ~ In Ch.PIPE s /\ ~ In Ch.LF s /\ ~ occurs DATA_END_MARKER s).
  { intros s H. destruct (numericText_plain s H) as (A & B & C & _). auto. }
  constructor; [apply Hnum, Hid|].
  constructor;
    [destruct (username p); [congruence|]; apply plainField_plain, Hu|].
  constructor; [apply plainField_plain, Hc|].
  constructor; [apply Hnum, Number_toString_numeric|].
  constructor; [apply plainField_plain, Hp|].
  constructor; [apply Hnum, Number_toString_numeric|].
  constructor; [|constructor].
  apply Hnum. apply testDate_shape in Hd as [Hd _]. exact Hd.
Qed.

Lemma encodePlayer_line (p : Player) :
  storable p = true ->
  decodeLine (encodePlayer p) = Some p
  /\ ~ In Ch.LF (encodePlayer p)
  /\ ~ occurs DATA_END_MARKER (encodePlayer p)
  /\ (exists h s, encodePlayer p = h :: s /\ isWhiteSpace h = false)
  /\ (exists s c, encodePlayer p = s ++ [c] /\ isWhiteSpace c = false).
Proof.
  intros Hs. pose proof (encodePlayer_fields p Hs) as Hf.
  pose proof Hs as Hs'.
  apply storable_inv in Hs as (Hid & Hn & Hu & Hc & Hp & Hd).
  split; [|split; [|split; [|split]]].
  - unfold decodeLine, encodePlayer. rewrite splitOn_join.
    + rewrite !parseInt_Number_toString.
      destruct p as [u n r c q k d]; simpl in Hn |- *.
      destruct n; [congruence | reflexivity].
    + discriminate.
    + eapply Forall_impl; [exact Hf|]. intros f (A & _). exact A.
  - unfold encodePlayer. intros Hin. apply in_join in Hin as [Hin|[f [Hf' Hin]]].
    + destruct Hin as [Hin|[]]. discriminate Hin.
    + rewrite List.Forall_forall in Hf. destruct (Hf f Hf') as (_ & B & _).
      exact (B Hin).
  - unfold encodePlayer. change DATA_END_MARKER with (91%N :: lit "/DATA]").
    intros Ho. apply occurs_join in Ho as [f [Hf' Ho]].
    + rewrite List.Forall_forall in Hf. destruct (Hf f Hf') as (_ & _ & C).
      exact (C Ho).
    + apply notIn_by_test. reflexivity.
  - unfold encodePlayer. destruct (userId p) as [|h s] eqn:E.
    + eexists _, _. split; [reflexivity|]. reflexivity.
    + destruct (join_head [Ch.PIPE] h s
                  [ orElse (username p) (lit "Unknown"); currentRank p;
                    Number_toString (currentRankScore p); peakRank p;
                    Number_toString (peakRankScore p); lastUpdated p ])
        as [r Hr].
      rewrite Hr. exists h, r. split; [reflexivity|].
      destruct (numericText_plain _ Hid) as (_ & _ & _ & Hw).
      apply Forall_cons in Hw as [Hw _]. exact Hw.
  - apply testDate_shape in Hd as [_ (s' & c & Hd & Hc')].
    destruct (join_last [Ch.PIPE]
                [ userId p; orElse (username p) (lit "Unknown"); currentRank p;
                  Number_toString (currentRankScore p); peakRank p;
                  Number_toString (peakRankScore p); lastUpdated p ]
                (lastUpdated p) s' c eq_refl Hd) as [r Hr].
    exists r, c. split; [exact Hr|].
    apply digit_plain. rewrite Hc'. reflexivity.
Qed.


(** ** The codec on a collection *)

Lemma trim_plain (h c : N) (s s' : jsstring) :
  isWhiteSpace h = false -> isWhiteSpace c = false ->
  h :: s = s' ++ [c] -> trim (h :: s) = h :: s.
Proof.
  intros Hh Hc He.
  pose proof (trim_margins [] [] h c s eq_refl eq_refl Hh Hc (h :: s) eq_refl
                (ex_intro _ s' He)) as H.
  rewrite app_nil_r in H. exact H.
Qed.

Lemma decode_lines (ps : list Player) :
  Forall (fun p => storable p = true) ps ->
  omap id
    (List.map decodeLine
       (List.filter (fun line => negb (isEmpty (trim line)))
          (List.map encodePlayer ps))) = ps.
Proof.
  induction 1 as [|p ps Hp _ IH]; [reflexivity|].
  destruct (encodePlayer_line p Hp)
    as (Hdec & _ & _ & (h & s & Hh & Hws) & (s' & c & Hl & Hc)).
  cbn [List.map List.filter].
  assert (Ht : trim (encodePlayer p) = encodePlayer p).
  { rewrite Hh. apply (trim_plain h c s s'); [exact Hws | exact Hc |].
    rewrite <- Hh. exact Hl. }
  rewrite Ht. rewrite Hh at 1. cbn [isEmpty negb List.map].
  rewrite Hdec. cbn. rewrite IH. reflexivity.
Qed.

Lemma encodePlayerData_body (ps : list Player) :
  ps <> [] -> Forall (fun p => storable p = true) ps ->
  decodePlayerData (encodePlayerData ps) = ps
  /\ ~ occurs DATA_END_MARKER (encodePlayerData ps)
  /\ (exists h s, encodePlayerData ps = h :: s /\ isWhiteSpace h = false)
  /\ (exists s c, encodePlayerData ps = s ++ [c] /\ isWhiteSpace c = false).
Proof.
  intros Hne Hall. unfold encodePlayerData.
  assert (Hhead : exists h s, join [Ch.LF] (List.map encodePlayer ps) = h :: s
                              /\ isWhiteSpace h = false).
  { destruct ps as [|p ps]; [congruence|].
    apply Forall_cons in Hall as [Hp _].
    destruct (encodePlayer_line p Hp) as (_ & _ & _ & (h & s & Hh & Hws) & _).
    cbn [List.map]. rewrite Hh.
    destruct (join_head [Ch.LF] h s (List.map encodePlayer ps)) as [r Hr].
    exists h, r. auto. }
  assert (Hlast : exists s c, join [Ch.LF] (List.map encodePlayer ps) = s ++ [c]
                              /\ isWhiteSpace c = false).
  { destruct (last ps) as [p|] eqn:El; [|apply last_None in El; congruence].
    assert (Hp : storable p = true).
    { rewrite Forall_forall in Hall. apply Hall.
      apply last_Some in El as [l' ->]. apply list_elem_of_In, in_or_app.
      right. left. reflexivity. }
    destruct (encodePlayer_line p Hp) as (_ & _ & _ & _ & (s' & c & Hl & Hc)).
    destruct (join_last [Ch.LF] (List.map encodePlayer ps) (encodePlayer p)
                s' c) as [r Hr]; [|exact Hl|].
    - apply last_Some in El as [l' ->]. rewrite List.map_app.
      cbn [List.map]. apply last_snoc.
    - exists r, c. auto. }
  split; [|split; [|split; assumption]].
  - destruct Hhead as (h & s & Hh & Hws). destruct Hlast as (s' & c & Hl & Hc).
    unfold decodePlayerData.
    assert (Ht : trim (join [Ch.LF] (List.map encodePlayer ps))
                 = join [Ch.LF] (List.map encodePlayer ps)).
    { rewrite Hh. apply (trim_plain h c s s'); [exact Hws | exact Hc |].
      rewrite <- Hh. exact Hl. }
    rewrite Ht. rewrite Hh at 1 2. cbn [isEmpty orb].
    rewrite splitOn_join.
    + apply decode_lines. exact Hall.
    + destruct ps; [congruence | discriminate].
    + apply List.Forall_forall. intros l Hin.
      apply in_map_iff in Hin as [p [<- Hin]].
      rewrite Forall_forall in Hall.
      destruct (encodePlayer_line p (Hall p (proj2 (list_elem_of_In _ _) Hin)))
        as (_ & Hlf & _). exact Hlf.
  - change DATA_END_MARKER with (91%N :: lit "/DATA]").
    intros Ho. apply occurs_join in Ho as [l [Hin Ho]].
    + apply in_map_iff in Hin as [p [<- Hin]].
      rewrite Forall_forall in Hall.
      destruct (encodePlayer_line p (Hall p (proj2 (list_elem_of_In _ _) Hin)))
        as (_ & _ & Hend & _). exact (Hend Ho).
    + apply notIn_by_test. reflexivity.
Qed.


(** ** The codec on the cursor line *)

Lemma storableCursor_inv (cursor : option jsstring) :
  storableCursor cursor = true ->
  let word := orElse (default [] cursor) (lit "none") in
  (exists s c, word = s ++ [c] /\ isWhiteSpace c = false)
  /\ forallb (fun c => negb (isLineTerminator c)) word = true
  /\ ~ occurs DATA_END_MARKER word
  /\ (if negb (str_eqb word (lit "none")) then Some word else None) = cursor.
Proof.
  destruct cursor as [s|]; cbn [storableCursor default from_option id];
    cbv zeta.
  - rewrite !andb_true_iff, Z.eqb_eq.
    intros [[[[Hne Hnone] Hlt] Hlast] Hend].
    destruct s as [|x s]; [discriminate Hne|]. cbn [orElse].
    split; [|split; [exact Hlt|split]].
    + unfold lastNotWhiteSpace in Hlast.
      destruct (last (x :: s)) as [c|] eqn:El;
        [|apply last_None in El; discriminate].
      apply last_Some in El as [l' El]. exists l', c.
      split; [exact El|]. destruct (isWhiteSpace c); [discriminate|reflexivity].
    + apply indexOf_absent. exact Hend.
    + rewrite Hnone. reflexivity.
  - intros _. cbn [orElse]. split; [|split; [|split]].
    + exists (lit "non"), 101%N. split; reflexivity.
    + reflexivity.
    + apply indexOf_absent. vm_compute. reflexivity.
    + reflexivity.
Qed.

Lemma matchLAST_line (word : jsstring) :
  word <> [] ->
  forallb (fun c => negb (isLineTerminator c)) word = true ->
  matchLAST (lit "LAST:" ++ word) = Some word.
Proof.
  intros Hne Hlt. unfold matchLAST.
  rewrite startsWith_app.
  change (drop 5 (lit "LAST:" ++ word)) with word.
  rewrite Hlt. destruct word; [congruence|reflexivity].
Qed.

Lemma lineTerminator_free_LF (word : jsstring) :
  forallb (fun c => negb (isLineTerminator c)) word = true ->
  ~ In Ch.LF word.
Proof.
  rewrite forallb_forall. intros H Hin. specialize (H _ Hin).
  discriminate H.
Qed.

Lemma indexOf_prefix (m r : jsstring) : indexOf m (m ++ r) = 0.
Proof.
  pose proof (startsWith_app m r) as H.
  destruct (m ++ r); simpl; rewrite H; reflexivity.
Qed.


(** ** storage.js: the round trip *)

Ltac right_nested :=
  repeat (rewrite <- app_assoc || rewrite <- app_comm_cons).

(** C1, as the code has it. For a collection of storable entities (ids of
    digits, non-empty display names, text fields without delimiter, line
    feed or end marker, safe non-negative integer scores, strict dates)
    and a storable cursor, decoding the encoded state gives back the
    cursor and the collection, entity for entity and in the same order. *)
Theorem decode_encode_roundtrip (cursor : option jsstring)
    (ps : list Player) :
  storableCursor cursor = true ->
  Forall (fun p => storable p = true) ps ->
  decodeState (encodeState cursor ps)
  = {| lastProcessedMessageId := cursor; players := ps |}.
Proof.
  intros Hcur Hall.
  pose proof (storableCursor_inv cursor Hcur) as Hinv. cbv zeta in Hinv.
  destruct Hinv as ((w' & wc & Hw & Hwc) & Hlt & Hwend & Hback).
  unfold encodeState.
  set (word := orElse (default [] cursor) (lit "none"))
    in Hw, Hlt, Hwend, Hback |- *.
  set (body := encodePlayerData ps).
  set (L := lit "LAST:" ++ word).
  assert (Hword : word <> []) by (rewrite Hw; destruct w'; discriminate).
  assert (HL_LF : ~ In Ch.LF L).
  { unfold L. intros Hin. apply in_app_or in Hin as [Hin|Hin].
    - revert Hin. apply notIn_by_test. reflexivity.
    - exact (lineTerminator_free_LF word Hlt Hin). }
  assert (HL_head : L = 76%N :: (lit "AST:" ++ word)) by reflexivity.
  assert (HL_end : ~ occurs DATA_END_MARKER L).
  { rewrite HL_head. change DATA_END_MARKER with (91%N :: lit "/DATA]").
    change (lit "AST:" ++ word) with (65%N :: 83%N :: 84%N :: 58%N :: word).
    intros Ho. do 5 (apply occurs_cons_ne in Ho; [|discriminate]).
    exact (Hwend Ho). }
  assert (Hbody_end : ~ occurs DATA_END_MARKER body).
  { destruct ps as [|p ps'].
    - intros Ho. apply occurs_length in Ho. vm_compute in Ho. lia.
    - apply (encodePlayerData_body (p :: ps')); [discriminate | exact Hall]. }
  assert (HLF_end : ~ In Ch.LF DATA_END_MARKER)
    by (apply notIn_by_test; reflexivity).
  set (pre := DATA_START_MARKER ++ Ch.LF :: L ++ Ch.LF :: body).
  set (middle := Ch.LF :: L ++ Ch.LF :: body ++ [Ch.LF]).
  set (text := join [Ch.LF] [DATA_START_MARKER; L; body; DATA_END_MARKER]).
  assert (T2 : text = pre ++ Ch.LF :: DATA_END_MARKER).
  { unfold text, pre. cbn [join]. right_nested. reflexivity. }
  assert (T3 : text = DATA_START_MARKER ++ middle ++ DATA_END_MARKER).
  { unfold text, middle. cbn [join]. right_nested. reflexivity. }
  assert (Hpre : ~ occurs DATA_END_MARKER pre).
  { unfold pre. intros Ho.
    apply occurs_sep in Ho as [Ho|Ho]; [| |exact HLF_end].
    - apply indexOf_absent in Ho; [exact Ho|]. vm_compute. reflexivity.
    - apply occurs_sep in Ho as [Ho|Ho]; [| |exact HLF_end].
      + exact (HL_end Ho).
      + exact (Hbody_end Ho). }
  assert (H1 : isEmpty text = false) by (rewrite T3; reflexivity).
  assert (H2 : indexOf DATA_START_MARKER text = 0)
    by (rewrite T3; apply indexOf_prefix).
  assert (H3 : indexOf DATA_END_MARKER text
               = Z.of_nat (length DATA_START_MARKER)
                 + Z.of_nat (length middle)).
  { rewrite T2, indexOf_behind_sep by assumption.
    unfold pre, middle. cbn [length]. rewrite !length_app. cbn [length].
    rewrite !length_app. cbn [length]. lia. }
  unfold decodeState. rewrite H1, H2, H3.
  replace ((0 =? -1)
           || (Z.of_nat (length DATA_START_MARKER)
               + Z.of_nat (length middle) =? -1)) with false
    by (symmetry; apply orb_false_iff; split; apply Z.eqb_neq; lia).
  assert (Hsub : substring text
                   (0 + Z.of_nat (length DATA_START_MARKER))
                   (Z.of_nat (length DATA_START_MARKER)
                    + Z.of_nat (length middle)) = middle)
    by (rewrite T3; apply substring_middle).
  rewrite !Hsub. clear Hsub H1 H2 H3 T2 T3 Hpre. clearbody text.
  destruct ps as [|p ps'].
  - (* an empty collection: the cursor line alone *)
    assert (Hds : trim middle = L).
    { unfold middle.
      change (Ch.LF :: L ++ Ch.LF :: body ++ [Ch.LF])
        with ([Ch.LF] ++ L ++ [Ch.LF; Ch.LF]).
      apply (trim_margins [Ch.LF] [Ch.LF; Ch.LF] 76%N wc
               (lit "AST:" ++ word)); try reflexivity; try assumption.
      exists (lit "LAST:" ++ w'). unfold L. rewrite Hw.
      rewrite app_assoc. reflexivity. }
    rewrite !Hds. rewrite !(splitOn_plain Ch.LF L HL_LF).
    cbn [hd tl join]. rewrite HL_head at 1. cbn [orElse]. rewrite <- HL_head.
    unfold L at 1. rewrite (matchLAST_line word Hword Hlt).
    rewrite Hback. reflexivity.
  - (* at least one entity *)
    destruct (encodePlayerData_body (p :: ps')) as
      (Hdec & _ & _ & (bs & bc & Hb & Hbc)); [discriminate | exact Hall |].
    fold body in Hdec, Hb.
    assert (Hds : trim middle = L ++ Ch.LF :: body).
    { unfold middle.
      replace (Ch.LF :: L ++ Ch.LF :: body ++ [Ch.LF])
        with ([Ch.LF] ++ (L ++ Ch.LF :: body) ++ [Ch.LF])
        by (right_nested; reflexivity).
      apply (trim_margins [Ch.LF] [Ch.LF] 76%N bc
               ((lit "AST:" ++ word) ++ Ch.LF :: body));
        try reflexivity; try assumption.
      exists (L ++ Ch.LF :: bs). rewrite Hb.
      right_nested. reflexivity. }
    rewrite !Hds. rewrite !(splitOn_app_sep Ch.LF L body HL_LF).
    cbn [hd tl]. rewrite HL_head at 1. cbn [orElse]. rewrite <- HL_head.
    unfold L at 1. rewrite (matchLAST_line word Hword Hlt).
    rewrite Hback. rewrite join_splitOn. rewrite Hdec. reflexivity.
Qed.

(** ** parser.js: the sanitizer and the mention pattern *)

Lemma dropWhile_suffix {A} (f : A -> bool) (l : list A) :
  exists w, l = w ++ dropWhile f l /\ forallb f w = true.
Proof.
  induction l as [|x l [w [Hw Hf]]]; simpl.
  - exists []. split; reflexivity.
  - destruct (f x) eqn:Hx.
    + exists (x :: w). simpl. rewrite Hx, Hf. split; [f_equal; exact Hw|reflexivity].
    + exists []. split; reflexivity.
Qed.

Lemma dropWhile_head {A} (f : A -> bool) (l : list A) (x : A) (r : list A) :
  dropWhile f l = x :: r -> f x = false.
Proof.
  induction l as [|y l IH]; simpl; [discriminate|].
  destruct (f y) eqn:Hy; [exact IH|].
  intros H. injection H as -> _. exact Hy.
Qed.

Lemma trimEnd_prefix (s : jsstring) :
  exists w, s = trimEnd s ++ w /\ forallb isWhiteSpace w = true.
Proof.
  unfold trimEnd.
  destruct (dropWhile_suffix isWhiteSpace (rev s)) as [w [Hw Hf]].
  exists (rev w). split.
  - rewrite <- (rev_involutive s) at 1. rewrite Hw at 1.
    rewrite rev_app_distr. reflexivity.
  - rewrite forallb_rev. exact Hf.
Qed.

Lemma trim_sublist (s : jsstring) : trim s `sublist_of` s.
Proof.
  unfold trim, trimStart.
  destruct (trimEnd_prefix (dropWhile isWhiteSpace s)) as [w2 [H2 _]].
  destruct (dropWhile_suffix isWhiteSpace s) as [w1 [H1 _]].
  rewrite H1 at 2. rewrite H2 at 2.
  apply sublist_inserts_l, sublist_inserts_r. reflexivity.
Qed.

Lemma trim_head (s : jsstring) (c : N) (r : jsstring) :
  trim s = c :: r -> isWhiteSpace c = false.
Proof.
  unfold trim, trimStart. intros H.
  destruct (trimEnd_prefix (dropWhile isWhiteSpace s)) as [w [Hw _]].
  rewrite H in Hw. simpl in Hw.
  exact (dropWhile_head _ _ _ _ Hw).
Qed.

Lemma filter_sublist {A} (f : A -> bool) (l : list A) :
  List.filter f l `sublist_of` l.
Proof.
  induction l as [|x l IH]; simpl; [constructor|].
  destruct (f x); [apply sublist_skip|apply sublist_cons]; exact IH.
Qed.

Lemma substring_take (s : jsstring) (n : nat) :
  substring s 0 (Z.of_nat n) = take n s.
Proof.
  unfold substring. cbv zeta.
  rewrite Z.max_id, (Z.max_l (Z.of_nat n) 0) by lia.
  rewrite (Z.min_l 0) by lia.
  rewrite (Z.min_l 0), (Z.max_r 0) by lia.
  rewrite Z.sub_0_r. change (Z.to_nat 0) with 0%nat. rewrite drop_0.
  destruct (le_lt_dec n (length s)) as [Hle|Hlt].
  - rewrite Z.min_l by lia. rewrite Nat2Z.id. reflexivity.
  - rewrite Z.min_r by lia. rewrite Nat2Z.id.
    rewrite !take_ge by lia. reflexivity.
Qed.

Lemma sanitizeInput_take (text : jsstring) :
  sanitizeInput text
  = take 200 (trim (List.filter (fun c => negb (isDangerous c)) text)).
Proof. unfold sanitizeInput. exact (substring_take _ 200). Qed.

Lemma sanitizeInput_sublist (text : jsstring) :
  sanitizeInput text
    `sublist_of` List.filter (fun c => negb (isDangerous c)) text.
Proof.
  rewrite sanitizeInput_take.
  etransitivity; [apply sublist_take|apply trim_sublist].
Qed.

Lemma sanitizeInput_safe (text : jsstring) :
  Forall (fun c => isDangerous c = false) (sanitizeInput text).
Proof.
  apply Forall_forall. intros c Hc.
  pose proof (sublist_subseteq _ _ (sanitizeInput_sublist text) c Hc) as Hk.
  apply (proj1 (list_elem_of_In _ _)) in Hk.
  apply filter_In in Hk as [_ Hk].
  destruct (isDangerous c); [discriminate|reflexivity].
Qed.

(** X1 (parser.js, sanitizeInput).  The sanitizer only deletes code
    units: its result is a subsequence of the input, at most 200 units
    long, holds none of the eight stripped characters and does not begin
    with white space. *)
Theorem sanitizeInput_clean (text : jsstring) :
  sanitizeInput text `sublist_of` text
  /\ (length (sanitizeInput text) <= 200)%nat
  /\ Forall (fun c => isDangerous c = false) (sanitizeInput text)
  /\ (forall c r, sanitizeInput text = c :: r -> isWhiteSpace c = false).
Proof.
  split; [|split; [|split]].
  - etransitivity; [apply sanitizeInput_sublist|apply filter_sublist].
  - rewrite sanitizeInput_take, length_take. lia.
  - apply sanitizeInput_safe.
  - rewrite sanitizeInput_take. intros c r H.
    destruct (trim (List.filter (fun c => negb (isDangerous c)) text))
      as [|c' r'] eqn:Ht; [discriminate|].
    simpl in H. injection H as -> _. exact (trim_head _ _ _ Ht).
Qed.

Lemma takeWhile_dropWhile {A} (f : A -> bool) (l : list A) :
  l = takeWhile f l ++ dropWhile f l /\ forallb f (takeWhile f l) = true.
Proof.
  induction l as [|x l [IH1 IH2]]; simpl; [split; reflexivity|].
  destruct (f x) eqn:Hx; simpl; [|split; reflexivity].
  rewrite Hx, IH2. split; [f_equal; exact IH1|reflexivity].
Qed.

Lemma takeWhile_stop {A} (f : A -> bool) (ds : list A) (c : A) (r : list A) :
  forallb f ds = true -> f c = false ->
  takeWhile f (ds ++ c :: r) = ds /\ dropWhile f (ds ++ c :: r) = c :: r.
Proof.
  intros Hds Hc. induction ds as [|d ds IH]; simpl.
  - rewrite Hc. split; reflexivity.
  - simpl in Hds. apply andb_prop in Hds as [Hd Hds]. rewrite Hd.
    destruct (IH Hds) as [-> ->]. split; reflexivity.
Qed.

Lemma extractUserId_unfold (m : jsstring) :
  extractUserId m
  = match mentionAt m with
    | Some g => Some g
    | None => match m with
              | [] => None
              | _ :: m' => extractUserId m'
              end
    end.
Proof. destruct m; reflexivity. Qed.

Lemma mentionAt_sound (s g : jsstring) :
  mentionAt s = Some g ->
  digitRun g /\ exists bang rest, s = mentionText bang g ++ rest.
Proof.
  unfold mentionAt. destruct s as [|a [|b r]]; try discriminate.
  destruct ((a =? Ch.LT)%N && (b =? Ch.AT)%N) eqn:Hab; [|discriminate].
  apply andb_prop in Hab as [Ha Hb].
  apply N.eqb_eq in Ha, Hb. subst a b.
  set (r' := match r with
             | c :: r1 => if (c =? Ch.BANG)%N then r1 else r
             | [] => r
             end).
  assert (Hr : exists bang : bool, r = (if bang then [Ch.BANG] else []) ++ r').
  { subst r'. destruct r as [|c r1]; [exists false; reflexivity|].
    destruct (c =? Ch.BANG)%N eqn:Hc.
    - apply N.eqb_eq in Hc. subst c. exists true. reflexivity.
    - exists false. reflexivity. }
  clearbody r'. destruct Hr as [bang ->].
  destruct (takeWhile_dropWhile isDigit r') as [Hsplit Hdig].
  destruct (negb (isEmpty (takeWhile isDigit r'))
            && startsWith [Ch.GT] (dropWhile isDigit r')) eqn:Hok;
    [|discriminate].
  intros H. injection H as <-.
  apply andb_prop in Hok as [Hne Hgt].
  apply startsWith_spec in Hgt as [rest Hrest].
  split; [split|].
  - intros E. rewrite E in Hne. discriminate.
  - exact Hdig.
  - exists bang, rest. rewrite Hsplit at 1. rewrite Hrest.
    unfold mentionText. destruct bang; simpl; rewrite <- !app_assoc;
      reflexivity.
Qed.

Lemma mentionAt_complete (bang : bool) (id rest : jsstring) :
  digitRun id -> mentionAt (mentionText bang id ++ rest) = Some id.
Proof.
  intros [Hne Hdig]. destruct id as [|d ds]; [destruct (Hne eq_refl)|].
  pose proof (andb_prop _ _ Hdig) as [Hd _].
  assert (Hbang : (d =? Ch.BANG)%N = false).
  { apply N.eqb_neq. intros ->. discriminate. }
  destruct (takeWhile_stop isDigit (d :: ds) Ch.GT rest Hdig eq_refl)
    as [Ht Hdr].
  assert (Htail :
    (if negb (isEmpty (takeWhile isDigit ((d :: ds) ++ Ch.GT :: rest)))
        && startsWith [Ch.GT] (dropWhile isDigit ((d :: ds) ++ Ch.GT :: rest))
     then Some (takeWhile isDigit ((d :: ds) ++ Ch.GT :: rest)) else None)
    = Some (d :: ds)).
  { rewrite Ht, Hdr. reflexivity. }
  unfold mentionText.
  destruct bang.
  - change (mentionAt (Ch.LT :: Ch.AT :: Ch.BANG
                         :: ((d :: ds) ++ lit ">") ++ rest) = Some (d :: ds)).
    rewrite <- app_assoc. unfold mentionAt.
    change ((Ch.LT =? Ch.LT)%N && (Ch.AT =? Ch.AT)%N) with true.
    change (Ch.BANG =? Ch.BANG)%N with true. cbv iota. exact Htail.
  - change (mentionAt (Ch.LT :: Ch.AT :: d
                         :: (ds ++ lit ">") ++ rest) = Some (d :: ds)).
    rewrite <- app_assoc. unfold mentionAt.
    change ((Ch.LT =? Ch.LT)%N && (Ch.AT =? Ch.AT)%N) with true.
    rewrite Hbang. cbv iota. exact Htail.
Qed.

Lemma extractUserId_sound (mention id : jsstring) :
  extractUserId mention = Some id ->
  digitRun id /\ exists bang, occurs (mentionText bang id) mention.
Proof.
  induction mention as [|c m IH]; rewrite extractUserId_unfold.
  - discriminate.
  - destruct (mentionAt (c :: m)) as [g|] eqn:Hm.
    + intros H. injection H as ->.
      destruct (mentionAt_sound _ _ Hm) as [Hrun [bang [rest Hs]]].
      split; [exact Hrun|]. exists bang, [], rest. exact Hs.
    + intros H. destruct (IH H) as [Hrun [bang [pre [post Hs]]]].
      split; [exact Hrun|]. exists bang, (c :: pre), post.
      rewrite Hs. reflexivity.
Qed.

(** X2 (parser.js, extractUserId).  An id is extracted exactly when the
    text holds a mention [<@digits>] or [<@!digits>] somewhere; the id
    returned is a non-empty run of digits and the text holds the mention
    of that very id. *)
Theorem extractUserId_mention (mention : jsstring) :
  (forall id, extractUserId mention = Some id ->
     digitRun id /\ exists bang, occurs (mentionText bang id) mention)
  /\ (extractUserId mention = None <->
      forall bang id, digitRun id -> ~ occurs (mentionText bang id) mention).
Proof.
  split; [exact (extractUserId_sound mention)|]. split.
  - intros Hnone bang id Hrun [pre [post Hs]]. subst mention.
    revert Hnone. induction pre as [|c pre IH];
      rewrite extractUserId_unfold.
    + change ([] ++ mentionText bang id ++ post)
        with (mentionText bang id ++ post).
      rewrite (mentionAt_complete bang id post Hrun). discriminate.
    + rewrite <- app_comm_cons.
      destruct (mentionAt _); [discriminate|exact IH].
  - intros Hno. destruct (extractUserId mention) as [id|] eqn:He;
      [|reflexivity].
    destruct (extractUserId_sound _ _ He) as [Hrun [bang Hocc]].
    destruct (Hno bang id Hrun Hocc).
Qed.

Lemma splitWs_tokens (s : jsstring) :
  Forall (Forall (fun c => isWhiteSpace c = false)) (splitWs s).
Proof.
  induction s as [|x s IH]; cbn [splitWs].
  - constructor; constructor.
  - destruct (isWhiteSpace x) eqn:Hx.
    + destruct s as [|y s'].
      * constructor; [constructor|]. constructor; constructor.
      * destruct (isWhiteSpace y); [exact IH|].
        constructor; [constructor|exact IH].
    + destruct (splitWs s) as [|h t].
      * constructor; [|constructor]. constructor; [exact Hx|constructor].
      * apply Forall_cons in IH as [Hh Ht].
        constructor; [|exact Ht]. constructor; [exact Hx|exact Hh].
Qed.

Lemma sanitizeInput_token (t : jsstring) :
  Forall (fun c => isWhiteSpace c = false) t ->
  sanitizeInput t <> [] -> tierLabel (sanitizeInput t).
Proof.
  intros Ht Hne.
  assert (Hsub : sanitizeInput t `sublist_of` t).
  { etransitivity; [apply sanitizeInput_sublist|apply filter_sublist]. }
  split; [exact Hne|].
  split; [rewrite sanitizeInput_take, length_take; lia|].
  apply Forall_and. split; [apply sanitizeInput_safe|].
  apply Forall_forall. intros c Hc.
  pose proof (sublist_subseteq _ _ Hsub c Hc) as Hin.
  exact (proj1 (Forall_forall _ _) Ht c Hin).
Qed.

(** X3 (parser.js, parseLeaderboardUpdate).  What an accepted update
    message guarantees: the content carried the prefix; the id is a
    non-empty run of digits taken from a mention in the first token,
    which holds no white space; both tier labels are non-empty, at most
    200 units long and free of white space and of the stripped
    characters. *)
Theorem parseLeaderboardUpdate_wellformed (messageContent : jsstring)
    (u : ParsedUpdate) :
  parseLeaderboardUpdate messageContent = Some u ->
  isLeaderboardUpdate messageContent = true
  /\ digitRun (u_userId u)
  /\ (exists bang, occurs (mentionText bang (u_userId u)) (u_rawMention u))
  /\ Forall (fun c => isWhiteSpace c = false) (u_rawMention u)
  /\ tierLabel (u_currentRank u)
  /\ tierLabel (u_peakRank u).
Proof.
  unfold parseLeaderboardUpdate, isLeaderboardUpdate.
  destruct (isEmpty messageContent); [discriminate|].
  destruct (startsWith LB_UPDATE_PREFIX (trim messageContent));
    [|discriminate].
  cbn [negb andb].
  pose proof (splitWs_tokens
    (trim (drop (length LB_UPDATE_PREFIX) (trim messageContent)))) as Htok.
  destruct (splitWs _) as [|mention [|cr [|crs [|pr [|prs [|lu extra]]]]]];
    try discriminate.
  apply Forall_cons in Htok as [Hmention Htok].
  apply Forall_cons in Htok as [Hcr Htok].
  apply Forall_cons in Htok as [_ Htok].
  apply Forall_cons in Htok as [Hpr _].
  destruct (extractUserId mention) as [uid|] eqn:Hid; [|discriminate].
  destruct (isEmpty uid); [discriminate|].
  destruct (isNaN _ || isNaN _); [discriminate|].
  destruct (jsnum_ltb _ _ || jsnum_ltb _ _); [discriminate|].
  destruct (parseDate lu) as [d|]; [|discriminate].
  destruct (isEmpty d); [discriminate|].
  destruct (isEmpty (sanitizeInput cr) || isEmpty (sanitizeInput pr)) eqn:E;
    [discriminate|].
  apply orb_false_iff in E as [E1 E2].
  intros [= <-].
  cbn [u_userId u_rawMention u_currentRank u_peakRank].
  destruct (extractUserId_sound _ _ Hid) as [Hrun Hocc].
  split; [reflexivity|]. split; [exact Hrun|]. split; [exact Hocc|].
  split; [exact Hmention|].
  split.
  - apply sanitizeInput_token; [exact Hcr|].
    intros E. rewrite E in E1. discriminate.
  - apply sanitizeInput_token; [exact Hpr|].
    intros E. rewrite E in E2. discriminate.
Qed.

(** ** parser.js: the batch keeps the order of the messages *)

Lemma parseLeaderboardUpdate_candidate (content : jsstring) :
  isLeaderboardUpdate content = false ->
  parseLeaderboardUpdate content = None.
Proof.
  unfold isLeaderboardUpdate, parseLeaderboardUpdate.
  destruct (isEmpty content); [reflexivity|].
  destruct (startsWith LB_UPDATE_PREFIX (trim content));
    [discriminate|reflexivity].
Qed.

Lemma parseFold_order (messages : list Message) (r : ParseResults) :
  successful (fold_left parseStep messages r)
  = successful r ++ omap recordOf messages
  /\ failed (fold_left parseStep messages r)
     = failed r ++ List.map failureOf (List.filter refused messages).
Proof.
  revert r. induction messages as [|m ms IH]; intros r.
  - cbn. rewrite !app_nil_r. split; reflexivity.
  - cbn [fold_left]. destruct (IH (parseStep r m)) as [-> ->].
    cbn [omap list_omap List.filter]. unfold parseStep, recordOf, refused.
    destruct (isLeaderboardUpdate (msg_content m)) eqn:Hc; cbn [negb andb].
    + destruct (parseLeaderboardUpdate (msg_content m)) as [u|];
        cbn [successful failed mbind option_bind option_list isEmpty
             List.map];
        rewrite <- ?app_assoc; split; reflexivity.
    + rewrite (parseLeaderboardUpdate_candidate _ Hc).
      cbn [successful failed mbind option_bind]. split; reflexivity.
Qed.

(** X4 (parser.js, parseMultipleUpdates).  The batch keeps the order of
    the messages: the parsed records are the accepted messages in the
    order given, each with the id, time stamp and author of its message,
    and the failures are the refused messages carrying the prefix, in the
    order given, each with reason parse_error. *)
Theorem parseMultipleUpdates_order (messages : list Message) :
  successful (parseMultipleUpdates messages) = omap recordOf messages
  /\ failed (parseMultipleUpdates messages)
     = List.map failureOf (List.filter refused messages).
Proof. exact (parseFold_order messages _). Qed.

(** ** storage.js and sync.js: what an upsert and a merge leave alone *)

Lemma find_by_id (ps : list Player) (id : jsstring) :
  match list_find (fun p => userId p = id) ps with
  | Some (i, e) => ps !! i = Some e /\ userId e = id
                   /\ In id (List.map userId ps)
  | None => ~ In id (List.map userId ps)
  end.
Proof.
  destruct (list_find (fun p => userId p = id) ps) as [[i e]|] eqn:Hf.
  - apply list_find_Some in Hf as (Hi & Hid & _).
    split; [exact Hi|]. split; [exact Hid|].
    apply in_map_iff. exists e. split; [exact Hid|].
    apply list_elem_of_In. eapply list_elem_of_lookup_2. exact Hi.
  - apply list_find_None in Hf. intros Hin.
    apply in_map_iff in Hin as [p [Hp Hin]].
    rewrite Forall_forall in Hf. apply (Hf p); [|exact Hp].
    apply list_elem_of_In. exact Hin.
Qed.

Lemma upsertPlayer_ids (ps : list Player) (u : Player) :
  List.map userId (upsert_players (upsertPlayer ps u))
  = match list_find (fun p => userId p = userId u) ps with
    | Some _ => List.map userId ps
    | None => List.map userId ps ++ [userId u]
    end.
Proof.
  unfold upsertPlayer.
  destruct (list_find (fun p => userId p = userId u) ps) as [[i e]|] eqn:Hf.
  - destruct (Date_ltb _ _); cbn [upsert_players]; [reflexivity|].
    apply list_find_Some in Hf as (Hi & Hid & _).
    change (List.map userId (<[i:=u]> ps)) with (userId <$> <[i:=u]> ps).
    rewrite list_fmap_insert, <- Hid.
    apply list_insert_id. rewrite list_lookup_fmap, Hi. reflexivity.
  - cbn [upsert_players]. rewrite List.map_app. reflexivity.
Qed.

Lemma upsertPlayer_others (ps : list Player) (u : Player) (i : nat)
    (p : Player) :
  ps !! i = Some p -> userId p <> userId u ->
  upsert_players (upsertPlayer ps u) !! i = Some p.
Proof.
  intros Hi Hne. unfold upsertPlayer.
  destruct (list_find (fun p => userId p = userId u) ps) as [[j e]|] eqn:Hf.
  - destruct (Date_ltb _ _); cbn [upsert_players]; [exact Hi|].
    apply list_find_Some in Hf as (Hj & Hid & _).
    rewrite list_lookup_insert_ne; [exact Hi|].
    intros ->. rewrite Hi in Hj. injection Hj as ->. exact (Hne Hid).
  - cbn [upsert_players]. apply lookup_app_l_Some. exact Hi.
Qed.

Lemma upsertPlayer_stored (ps : list Player) (u : Player) :
  updated (upsertPlayer ps u) = true ->
  exists i,
    list_find (fun p => userId p = userId u)
      (upsert_players (upsertPlayer ps u)) = Some (i, u).
Proof.
  unfold upsertPlayer.
  destruct (list_find (fun p => userId p = userId u) ps) as [[i e]|] eqn:Hf.
  - destruct (Date_ltb _ _); cbn [upsert_players updated]; [discriminate|].
    intros _. exists i.
    apply list_find_Some in Hf as (Hi & Hid & Hfirst).
    apply list_find_Some. split; [|split; [reflexivity|]].
    + apply list_lookup_insert_eq. eapply lookup_lt_Some. exact Hi.
    + intros j y Hj Hlt. rewrite list_lookup_insert_ne in Hj by lia.
      exact (Hfirst j y Hj Hlt).
  - cbn [upsert_players updated]. intros _. exists (length ps).
    apply list_find_None in Hf.
    apply list_find_Some. split; [|split; [reflexivity|]].
    + rewrite lookup_app_r by lia. rewrite Nat.sub_diag. reflexivity.
    + intros j y Hj Hlt. rewrite lookup_app_l in Hj by exact Hlt.
      rewrite Forall_forall in Hf. apply Hf.
      eapply list_elem_of_lookup_2. exact Hj.
Qed.

(** X5 (storage.js, upsertPlayer).  An upsert never removes or reorders
    ids: for an id already present the list of ids is unchanged, for a
    new id the entity is appended at the end and reported as updated.
    Entities of other ids stay where they are.  When the upsert reports
    updated, a search for the id finds the update itself; when it reports
    not updated (a stale update) the collection is returned as it was. *)
Theorem upsertPlayer_frame (ps : list Player) (u : Player) :
  (In (userId u) (List.map userId ps) ->
     List.map userId (upsert_players (upsertPlayer ps u))
     = List.map userId ps)
  /\ (~ In (userId u) (List.map userId ps) ->
        upsertPlayer ps u
        = {| upsert_players := ps ++ [u]; updated := true |})
  /\ (forall i p, ps !! i = Some p -> userId p <> userId u ->
        upsert_players (upsertPlayer ps u) !! i = Some p)
  /\ (updated (upsertPlayer ps u) = true ->
        exists i,
          list_find (fun p => userId p = userId u)
            (upsert_players (upsertPlayer ps u)) = Some (i, u))
  /\ (updated (upsertPlayer ps u) = false ->
        upsert_players (upsertPlayer ps u) = ps).
Proof.
  pose proof (find_by_id ps (userId u)) as Hfind.
  split; [|split; [|split; [|split]]].
  - intros Hin. rewrite upsertPlayer_ids.
    destruct (list_find _ ps) as [[i e]|]; [reflexivity|].
    destruct (Hfind Hin).
  - intros Hnot. unfold upsertPlayer.
    destruct (list_find _ ps) as [[i e]|]; [|reflexivity].
    destruct Hfind as (_ & _ & Hin). destruct (Hnot Hin).
  - exact (upsertPlayer_others ps u).
  - exact (upsertPlayer_stored ps u).
  - unfold upsertPlayer.
    destruct (list_find _ ps) as [[i e]|].
    + destruct (Date_ltb _ _); cbn [upsert_players updated];
        [reflexivity|discriminate].
    + cbn [updated]. discriminate.
Qed.

Lemma mergeStep_keeps (st : MergeState) (u : Successful) :
  List.map userId (m_players st)
    `prefix_of` List.map userId (m_players (mergeStep st u))
  /\ (forall i p, m_players st !! i = Some p ->
        (validatePlayerData (playerDataOf u) = true ->
         u_userId (data u) <> userId p) ->
        m_players (mergeStep st u) !! i = Some p)
  /\ (updatedCount (mergeStep st u)
      <= updatedCount st
         + (if validatePlayerData (playerDataOf u) then 1 else 0))%nat
  /\ (length (m_players (mergeStep st u))
      <= length (m_players st)
         + (if validatePlayerData (playerDataOf u) then 1 else 0))%nat.
Proof.
  unfold mergeStep.
  destruct (validatePlayerData (playerDataOf u)) eqn:Hv; cbn [negb].
  - cbn [m_players updatedCount].
    split; [|split; [|split]].
    + rewrite upsertPlayer_ids.
      destruct (list_find _ _); [reflexivity|].
      apply prefix_app_r. reflexivity.
    + intros i p Hi Hne. apply upsertPlayer_others; [exact Hi|].
      intros E. apply (Hne eq_refl). symmetry. exact E.
    + destruct (updated _); lia.
    + rewrite <- (length_map userId), upsertPlayer_ids.
      destruct (list_find _ _);
        rewrite ?length_app, !length_map; cbn [length]; lia.
  - split; [reflexivity|]. split; [auto|]. split; lia.
Qed.

Lemma mergeFold_keeps (updates : list Successful) (st : MergeState) :
  List.map userId (m_players st)
    `prefix_of`
    List.map userId (m_players (fold_left mergeStep updates st))
  /\ (forall i p, m_players st !! i = Some p ->
        Forall (fun u => u_userId (data u) <> userId p)
          (validUpdates updates) ->
        m_players (fold_left mergeStep updates st) !! i = Some p)
  /\ (updatedCount (fold_left mergeStep updates st)
      <= updatedCount st + length (validUpdates updates))%nat
  /\ (length (m_players (fold_left mergeStep updates st))
      <= length (m_players st) + length (validUpdates updates))%nat.
Proof.
  revert st. induction updates as [|u us IH]; intros st.
  - cbn. split; [reflexivity|]. split; [auto|]. split; lia.
  - cbn [fold_left].
    destruct (IH (mergeStep st u)) as (IH1 & IH2 & IH3 & IH4).
    destruct (mergeStep_keeps st u) as (S1 & S2 & S3 & S4).
    unfold validUpdates. cbn [List.filter]. fold (validUpdates us).
    split; [etransitivity; [exact S1|exact IH1]|].
    split; [|split].
    + intros i p Hi Hall. apply IH2.
      * apply S2; [exact Hi|]. intros Hv. rewrite Hv in Hall.
        apply Forall_cons in Hall as [Hu _]. exact Hu.
      * destruct (validatePlayerData (playerDataOf u)); [|exact Hall].
        apply Forall_cons in Hall as [_ Hus]. exact Hus.
    + destruct (validatePlayerData (playerDataOf u)); cbn [length]; lia.
    + destruct (validatePlayerData (playerDataOf u)); cbn [length]; lia.
Qed.

(** X6 (sync.js, merge loop of syncGame).  A merge never removes an
    entity: the ids of the loaded collection are a prefix of the ids
    after the merge.  An entity whose id no valid update names is still
    at its index, unchanged.  The count of applied updates and the growth
    of the collection are each at most the number of updates that passed
    validation. *)
Theorem mergeUpdates_keeps (currentState : State)
    (updates : list Successful) :
  let st := mergeUpdates currentState updates in
  List.map userId (players currentState)
    `prefix_of` List.map userId (m_players st)
  /\ (forall i p, players currentState !! i = Some p ->
        Forall (fun u => u_userId (data u) <> userId p)
          (validUpdates updates) ->
        m_players st !! i = Some p)
  /\ (updatedCount st <= length (validUpdates updates))%nat
  /\ (length (m_players st)
      <= length (players currentState) + length (validUpdates updates))%nat.
Proof.
  exact (mergeFold_keeps updates
           {| m_players := players currentState;
              updatedCount := 0%nat;
              lastMessageId := lastProcessedMessageId currentState |}).
Qed.

(** ** storage.js: the ranking as a sort *)

Lemma Array_sort_fixed {A} (cmp : A -> A -> jsnum) (l : list A) :
  StronglySorted (fun a b => positive (cmp a b) = false) l ->
  Array_sort cmp l = l.
Proof.
  intros Hs. induction Hs as [|x l Hs IH Hall]; [reflexivity|].
  cbn [Array_sort foldr]. fold (Array_sort cmp l). rewrite IH.
  destruct l as [|y l']; [reflexivity|]. cbn [insertSorted].
  apply Forall_cons in Hall as [Hy _]. rewrite Hy. reflexivity.
Qed.

Lemma insertSorted_filter {A} (cmp : A -> A -> jsnum) (P : A -> bool)
    (x : A) (l : list A) :
  (P x = true ->
   forall y, In y l -> P y = true -> positive (cmp x y) = false) ->
  List.filter P (insertSorted cmp x l) = List.filter P (x :: l).
Proof.
  induction l as [|y l IH]; intros Htie; [reflexivity|].
  cbn [insertSorted].
  destruct (positive (cmp x y)) eqn:Hxy; [|reflexivity].
  cbn [List.filter]. rewrite IH.
  - cbn [List.filter]. destruct (P y) eqn:Py; [|reflexivity].
    destruct (P x) eqn:Px; [|reflexivity].
    rewrite (Htie eq_refl y (or_introl eq_refl) Py) in Hxy. discriminate.
  - intros Px z Hz. apply (Htie Px). right. exact Hz.
Qed.

Lemma Array_sort_stable {A} (cmp : A -> A -> jsnum) (P : A -> bool)
    (l : list A) :
  (forall x y, In x l -> In y l -> P x = true -> P y = true ->
               positive (cmp x y) = false) ->
  List.filter P (Array_sort cmp l) = List.filter P l.
Proof.
  induction l as [|x l IH]; intros Htie; [reflexivity|].
  cbn [Array_sort foldr]. fold (Array_sort cmp l).
  rewrite insertSorted_filter.
  - cbn [List.filter]. rewrite IH; [reflexivity|].
    intros a b Ha Hb. apply Htie; right; assumption.
  - intros Px y Hy. apply Htie; [left; reflexivity| |exact Px].
    right. eapply Permutation_in; [|exact Hy].
    symmetry. apply Array_sort_perm.
Qed.

Lemma sortPlayers_sorted (ps : list Player) :
  List.Forall (fun p => is_Some (rankKey p)) ps ->
  StronglySorted holdsAgainst (sortPlayers ps).
Proof.
  intros Hwf. apply Array_sort_sorted; [exact holdsAgainst_trans|].
  intros x y Hx Hy.
  rewrite List.Forall_forall in Hwf.
  pose proof (Hwf x Hx) as Kx. pose proof (Hwf y Hy) as Ky.
  destruct (comparePlayers_outranks x y Kx Ky) as [Hp _].
  rewrite Hp. unfold holdsAgainst.
  destruct (outranks y x) eqn:E.
  - split; [exact Ky|]. split; [exact Kx|].
    apply outranks_asym. exact E.
  - split; [exact Kx|]. split; [exact Ky|]. reflexivity.
Qed.

Lemma ranked_fixed (ps : list Player) :
  List.Forall (fun p => is_Some (rankKey p)) ps ->
  ranked ps -> sortPlayers ps = ps.
Proof.
  intros Hwf Hs. apply Array_sort_fixed.
  induction Hs as [|x l Hs IH Hall]; [constructor|].
  apply Forall_cons in Hwf as [Kx Hwf].
  constructor; [exact (IH Hwf)|].
  rewrite List.Forall_forall in Hall, Hwf |- *. intros y Hy.
  destruct (comparePlayers_outranks x y Kx (Hwf y Hy)) as [-> _].
  exact (Hall y Hy).
Qed.

Lemma earlier_irrefl (d : Z * Z * Z) : earlier d d = false.
Proof.
  destruct d as [[y m] d]. unfold earlier.
  rewrite !Z.ltb_irrefl, !Z.eqb_refl. reflexivity.
Qed.

Lemma outranks_same_key (a b : Player) (k : Z * Z * (Z * Z * Z)) :
  rankKey a = Some k -> rankKey b = Some k -> outranks a b = false.
Proof.
  intros Ha Hb. unfold outranks. rewrite Ha, Hb.
  destruct k as [[c p] d].
  rewrite !Z.ltb_irrefl, !Z.eqb_refl, earlier_irrefl. reflexivity.
Qed.

(** X7 (storage.js, sortPlayers).  Sorting loses and invents nothing,
    whatever the scores and dates are (a score that is no number and a
    date the engine cannot read included): the result is a permutation of
    the collection, of the same length. *)
Theorem sortPlayers_permutation (ps : list Player) :
  Permutation ps (sortPlayers ps)
  /\ length (sortPlayers ps) = length ps.
Proof.
  pose proof (Array_sort_perm comparePlayers ps) as Hp.
  split; [exact Hp|]. symmetry. exact (Permutation_length Hp).
Qed.

(** X8 (storage.js, sortPlayers).  On entities with integer scores and
    calendar dates, a collection already in ranking order is returned as
    it is; so sorting twice gives what sorting once gives. *)
Theorem sortPlayers_idempotent (ps : list Player) :
  List.Forall (fun p => is_Some (rankKey p)) ps ->
  (ranked ps -> sortPlayers ps = ps)
  /\ sortPlayers (sortPlayers ps) = sortPlayers ps.
Proof.
  intros Hwf. split; [exact (ranked_fixed ps Hwf)|].
  assert (Hwf' : List.Forall (fun p => is_Some (rankKey p)) (sortPlayers ps)).
  { rewrite List.Forall_forall in Hwf |- *. intros p Hp. apply Hwf.
    eapply Permutation_in; [|exact Hp].
    symmetry. apply Array_sort_perm. }
  apply ranked_fixed; [exact Hwf'|].
  pose proof (sortPlayers_sorted ps Hwf) as Hs.
  unfold ranked. induction Hs as [|x l Hs IH Hall]; [constructor|].
  apply Forall_cons in Hwf' as [_ Hl].
  constructor; [exact (IH Hl)|].
  eapply List.Forall_impl; [|exact Hall].
  intros y (_ & _ & Hy). exact Hy.
Qed.

(** X9 (storage.js, sortPlayers).  The ranking is stable: on entities
    with integer scores and calendar dates, those with the same current
    score, peak score and date keep the order they had in the
    collection. *)
Theorem sortPlayers_stable (ps : list Player) (k : Z * Z * (Z * Z * Z)) :
  List.Forall (fun p => is_Some (rankKey p)) ps ->
  List.filter (hasKey k) (sortPlayers ps) = List.filter (hasKey k) ps.
Proof.
  intros _. apply Array_sort_stable. intros x y _ _ Hx Hy.
  apply bool_decide_eq_true in Hx, Hy.
  destruct (comparePlayers_outranks x y) as [-> _];
    [rewrite Hx; eexists; reflexivity|rewrite Hy; eexists; reflexivity|].
  exact (outranks_same_key y x k Hy Hx).
Qed.

(** ** storage.js: the decoder looks at the data section only *)

Lemma indexOf_after_sep (c : N) (m pre s : jsstring) :
  ~ In c m -> m <> [] -> ~ occurs m pre ->
  indexOf m (pre ++ c :: s)
  = if indexOf m s <? 0 then -1
    else Z.of_nat (length pre) + 1 + indexOf m s.
Proof.
  intros Hc Hm Hpre.
  assert (Hr : indexOf m s = -1 \/ 0 <= indexOf m s) by
    (destruct (indexOf_range m s); [left; assumption|right; lia]).
  induction pre as [|x pre IH].
  - cbn [app indexOf length].
    destruct m as [|h m']; [destruct (Hm eq_refl)|].
    cbn [startsWith].
    assert (Hh : (h =? c)%N = false).
    { apply N.eqb_neq. intros ->. apply Hc. left. reflexivity. }
    rewrite Hh. cbn [andb].
    destruct (indexOf (h :: m') s <? 0) eqn:E; [reflexivity|].
    apply Z.ltb_ge in E. change (Z.of_nat 0) with 0. lia.
  - rewrite <- app_comm_cons. cbn [indexOf].
    destruct (startsWith m (x :: pre ++ c :: s)) eqn:Hs.
    + exfalso. apply startsWith_spec in Hs as [r Hs].
      destruct (prefix_before_sep c m (x :: pre) s r Hc Hs) as [q' Hq].
      apply Hpre. exists [], q'. exact Hq.
    + rewrite IH.
      * destruct (indexOf m s <? 0) eqn:E; [reflexivity|].
        apply Z.ltb_ge in E.
        replace (_ <? 0) with false by (symmetry; apply Z.ltb_ge; lia).
        cbn [length]. lia.
      * intros [p [q Hq]]. apply Hpre. exists (x :: p), q.
        rewrite Hq. reflexivity.
Qed.

Lemma prefix_within (m q a t : jsstring) :
  m ++ q = a ++ t -> (length m <= length a)%nat -> exists q', a = m ++ q'.
Proof.
  intros H Hlen. exists (drop (length m) a).
  rewrite <- (take_drop (length m) a) at 1. f_equal.
  rewrite <- (take_app_le a t) by exact Hlen.
  rewrite <- H. rewrite take_app_length. reflexivity.
Qed.

Lemma indexOf_app_found (m s t : jsstring) :
  0 <= indexOf m s -> indexOf m (s ++ t) = indexOf m s.
Proof.
  induction s as [|x s IH].
  - cbn [indexOf app]. destruct (startsWith m []) eqn:Hs; [|lia].
    intros _. destruct m; [|discriminate]. destruct t; reflexivity.
  - rewrite <- app_comm_cons. cbn [indexOf].
    destruct (startsWith m (x :: s)) eqn:Hs.
    + intros _. apply startsWith_spec in Hs as [r Hr].
      replace (startsWith m (x :: s ++ t)) with true; [reflexivity|].
      symmetry. apply startsWith_spec. exists (r ++ t).
      rewrite app_comm_cons, Hr, <- app_assoc. reflexivity.
    + intros Hpos.
      assert (Hge : 0 <= indexOf m s).
      { destruct (indexOf m s <? 0) eqn:E; [lia|].
        apply Z.ltb_ge in E. exact E. }
      destruct (indexOf_found m s Hge) as (p & q & Hpq & _).
      destruct (startsWith m (x :: s ++ t)) eqn:Hs'.
      * exfalso. apply startsWith_spec in Hs' as [r Hr].
        destruct (prefix_within m r (x :: s) t) as [q' Hq'].
        { rewrite <- Hr. reflexivity. }
        { rewrite Hpq, !length_cons, !length_app. lia. }
        assert (Ht : startsWith m (x :: s) = true)
          by (apply startsWith_spec; exists q'; exact Hq').
        rewrite Ht in Hs. discriminate.
      * rewrite (IH Hge). reflexivity.
Qed.

Lemma substring_shift (pre s post : jsstring) (a b : Z) :
  0 <= a <= Z.of_nat (length s) -> 0 <= b <= Z.of_nat (length s) ->
  substring (pre ++ s ++ post)
    (Z.of_nat (length pre) + a) (Z.of_nat (length pre) + b)
  = substring s a b.
Proof.
  intros Ha Hb. unfold substring. cbv zeta. rewrite !length_app.
  match goal with
  | |- take ?n (drop ?k _) = take ?n' (drop ?k' _) =>
      replace n with n' by lia;
      replace k with (length pre + k')%nat by lia;
      assert (Hk : (k' <= length s)%nat) by lia;
      assert (Hn : (n' <= length s - k')%nat) by lia;
      generalize dependent n'; generalize dependent k'
  end.
  intros k Hk n Hn.
  rewrite drop_app_add', drop_app_le by (reflexivity || exact Hk).
  apply take_app_le. rewrite length_drop. exact Hn.
Qed.

Lemma decodeState_agree (t1 t2 : jsstring) :
  t1 <> [] -> t2 <> [] ->
  0 <= indexOf DATA_START_MARKER t1 -> 0 <= indexOf DATA_END_MARKER t1 ->
  0 <= indexOf DATA_START_MARKER t2 -> 0 <= indexOf DATA_END_MARKER t2 ->
  substring t1
    (indexOf DATA_START_MARKER t1 + Z.of_nat (length DATA_START_MARKER))
    (indexOf DATA_END_MARKER t1)
  = substring t2
      (indexOf DATA_START_MARKER t2 + Z.of_nat (length DATA_START_MARKER))
      (indexOf DATA_END_MARKER t2) ->
  decodeState t1 = decodeState t2.
Proof.
  intros H1 H2 Hs1 He1 Hs2 He2 Hsub. unfold decodeState.
  destruct t1 as [|x1 t1]; [destruct (H1 eq_refl)|].
  destruct t2 as [|x2 t2]; [destruct (H2 eq_refl)|].
  cbn [isEmpty]. cbv zeta.
  replace (indexOf DATA_START_MARKER (x1 :: t1) =? -1) with false
    by (symmetry; apply Z.eqb_neq; lia).
  replace (indexOf DATA_END_MARKER (x1 :: t1) =? -1) with false
    by (symmetry; apply Z.eqb_neq; lia).
  replace (indexOf DATA_START_MARKER (x2 :: t2) =? -1) with false
    by (symmetry; apply Z.eqb_neq; lia).
  replace (indexOf DATA_END_MARKER (x2 :: t2) =? -1) with false
    by (symmetry; apply Z.eqb_neq; lia).
  cbn [orb]. rewrite !Hsub. reflexivity.
Qed.

Lemma indexOf_present (m s : jsstring) :
  occurs m s ->
  0 <= indexOf m s
  /\ indexOf m s + Z.of_nat (length m) <= Z.of_nat (length s).
Proof.
  intros Hocc.
  destruct (indexOf_range m s) as [Hi|Hi];
    [apply indexOf_absent in Hi; destruct (Hi Hocc)|].
  split; [lia|].
  destruct (indexOf_found m s) as (p & q & Hs & Hl); [lia|].
  rewrite <- Hl. apply (f_equal (@length N)) in Hs.
  rewrite !length_app in Hs. lia.
Qed.

Lemma decodeState_section (visible section trailing : jsstring) :
  ~ occurs DATA_START_MARKER visible ->
  ~ occurs DATA_END_MARKER visible ->
  occurs DATA_START_MARKER section ->
  occurs DATA_END_MARKER section ->
  decodeState (visible ++ [Ch.LF] ++ section ++ trailing)
  = decodeState section.
Proof.
  intros Hvs Hve Hss Hse.
  destruct (indexOf_present _ _ Hss) as [Hs0 Hs1].
  destruct (indexOf_present _ _ Hse) as [He0 He1].
  assert (HiS : indexOf DATA_START_MARKER (visible ++ [Ch.LF] ++ section ++ trailing)
                = Z.of_nat (length (visible ++ [Ch.LF]))
                  + indexOf DATA_START_MARKER section).
  { change (visible ++ [Ch.LF] ++ section ++ trailing)
      with (visible ++ Ch.LF :: (section ++ trailing)).
    rewrite indexOf_after_sep;
      [|apply notIn_by_test; reflexivity|discriminate|exact Hvs].
    rewrite (indexOf_app_found _ _ _ Hs0).
    replace (_ <? 0) with false by (symmetry; apply Z.ltb_ge; lia).
    rewrite length_app. cbn [length]. lia. }
  assert (HiE : indexOf DATA_END_MARKER (visible ++ [Ch.LF] ++ section ++ trailing)
                = Z.of_nat (length (visible ++ [Ch.LF]))
                  + indexOf DATA_END_MARKER section).
  { change (visible ++ [Ch.LF] ++ section ++ trailing)
      with (visible ++ Ch.LF :: (section ++ trailing)).
    rewrite indexOf_after_sep;
      [|apply notIn_by_test; reflexivity|discriminate|exact Hve].
    rewrite (indexOf_app_found _ _ _ He0).
    replace (_ <? 0) with false by (symmetry; apply Z.ltb_ge; lia).
    rewrite length_app. cbn [length]. lia. }
  apply decodeState_agree.
  - destruct visible; discriminate.
  - intros ->. destruct Hss as [p [q Hpq]].
    destruct p; discriminate.
  - rewrite HiS. lia.
  - rewrite HiE. lia.
  - exact Hs0.
  - exact He0.
  - rewrite HiS, HiE, <- Z.add_assoc.
    replace (visible ++ [Ch.LF] ++ section ++ trailing)
      with ((visible ++ [Ch.LF]) ++ section ++ trailing)
      by (rewrite <- app_assoc; reflexivity).
    apply substring_shift; lia.
Qed.

Lemma encodeState_markers (cursor : option jsstring) (ps : list Player) :
  occurs DATA_START_MARKER (encodeState cursor ps)
  /\ occurs DATA_END_MARKER (encodeState cursor ps).
Proof.
  unfold encodeState. cbn [join]. split.
  - exists [], ([Ch.LF]
                ++ (lit "LAST:"
                    ++ orElse (default [] cursor) (lit "none"))
                ++ [Ch.LF] ++ encodePlayerData ps ++ [Ch.LF]
                ++ DATA_END_MARKER).
    reflexivity.
  - exists (DATA_START_MARKER ++ [Ch.LF]
            ++ (lit "LAST:" ++ orElse (default [] cursor) (lit "none"))
            ++ [Ch.LF] ++ encodePlayerData ps ++ [Ch.LF]), [].
    rewrite app_nil_r, <- !app_assoc. reflexivity.
Qed.

(** X10 (storage.js, decodeState).  The decoder reads the data section
    and nothing else.  When neither marker occurs in the visible text
    that stands, on lines of its own, before a section holding both
    markers, the decoded state is that of the section alone, whatever
    text follows it; so a text that carries the encoding of a state
    after such a visible part decodes as the encoding alone does. *)
Theorem decodeState_frame (visible : jsstring) :
  ~ occurs DATA_START_MARKER visible ->
  ~ occurs DATA_END_MARKER visible ->
  (forall section trailing,
      occurs DATA_START_MARKER section ->
      occurs DATA_END_MARKER section ->
      decodeState (visible ++ [Ch.LF] ++ section ++ trailing)
      = decodeState section)
  /\ (forall cursor ps,
        decodeState (visible ++ [Ch.LF] ++ encodeState cursor ps)
        = decodeState (encodeState cursor ps)).
Proof.
  intros Hs He. split.
  - intros section trailing. exact (decodeState_section _ _ _ Hs He).
  - intros cursor ps.
    destruct (encodeState_markers cursor ps) as [Hms Hme].
    rewrite <- (decodeState_section visible (encodeState cursor ps) []
                  Hs He Hms Hme).
    rewrite app_nil_r. reflexivity.
Qed.

(** ** renderer.js: when a render throws, and what it always carries *)

Lemma renderEntries_None (showEmojis : bool) (position : nat)
    (ps : list Player) :
  renderEntries showEmojis position ps = None
  <-> Exists (fun p => ~ printableDate p) ps.
Proof.
  revert position. induction ps as [|p ps IH]; intros position.
  - cbn [renderEntries]. rewrite Exists_nil. split; [discriminate|intros []].
  - cbn [renderEntries]. rewrite Exists_cons, <- (IH (S position)).
    unfold renderPlayerEntry, formatDate, printableDate.
    destruct (Date_new (lastUpdated p)) as [t|]; cbn [mbind option_bind].
    + destruct (renderEntries showEmojis (S position) ps) as [more|];
        cbn [mbind option_bind].
      * split; [discriminate|]. intros [H|H]; [|discriminate].
        destruct H. eexists; reflexivity.
      * split; [right; reflexivity|reflexivity].
    + split; [|reflexivity]. intros _. left. intros [t Ht]. discriminate.
Qed.

Lemma renderLeaderboard_cases (gameName : jsstring) (ps : list Player)
    (cursor : option jsstring) (maxPlayers : nat) (showEmojis : bool)
    (tick : nat) :
  match renderLeaderboard gameName ps cursor maxPlayers showEmojis tick with
  | Some rendered =>
      carriesData rendered cursor ps
      /\ ~ Exists (fun p => ~ printableDate p) (take maxPlayers ps)
  | None => Exists (fun p => ~ printableDate p) (take maxPlayers ps)
  end.
Proof.
  unfold renderLeaderboard, carriesData.
  match goal with
  | |- context [mbind _ ?c] =>
      assert (Hb : match c with
                   | Some _ =>
                       ~ Exists (fun p => ~ printableDate p)
                           (take maxPlayers ps)
                   | None =>
                       Exists (fun p => ~ printableDate p)
                         (take maxPlayers ps)
                   end);
      [|destruct c as [body|]]
  end.
  - destruct ps as [|p ps]; cbn [isEmpty].
    + rewrite take_nil. intros H. apply Exists_nil in H. exact H.
    + destruct (renderEntries showEmojis 1 (take maxPlayers (p :: ps)))
        as [entries|] eqn:He; cbn [mbind option_bind].
      * intros Hex. apply renderEntries_None with (showEmojis := showEmojis)
          (position := 1%nat) in Hex. rewrite He in Hex. discriminate.
      * apply (renderEntries_None showEmojis 1). exact He.
  - cbn [mbind option_bind]. split; [|exact Hb].
    rewrite app_assoc, join_snoc; [eexists; reflexivity|].
    intros H. apply app_eq_nil in H as [_ H]. discriminate H.
  - exact Hb.
Qed.

Lemma printable_all (l : list Player) :
  ~ Exists (fun p => ~ printableDate p) l -> Forall printableDate l.
Proof.
  induction l as [|p l IH]; intros Hnone; constructor.
  - unfold printableDate.
    destruct (Date_new (lastUpdated p)) as [t|] eqn:E;
      [eexists; reflexivity|].
    exfalso. apply Hnone. left. unfold printableDate. rewrite E.
    intros [t Ht]. discriminate Ht.
  - apply IH. intros Hex. apply Hnone. right. exact Hex.
Qed.

(** X12 (renderer.js, renderLeaderboard and formatDate).  A render
    throws whenever one of the entities it displays, the first
    maxPlayers of the collection, has a date the engine cannot read.  A
    render that returns has displayed readable dates only, and it ends
    with the data section of the whole collection, the entities beyond
    the display limit included, whatever their dates. *)
Theorem renderLeaderboard_throws (gameName : jsstring) (ps : list Player)
    (cursor : option jsstring) (maxPlayers : nat) (showEmojis : bool)
    (tick : nat) :
  (Exists (fun p => ~ printableDate p) (take maxPlayers ps) ->
   renderLeaderboard gameName ps cursor maxPlayers showEmojis tick = None)
  /\ (forall rendered,
        renderLeaderboard gameName ps cursor maxPlayers showEmojis tick
        = Some rendered ->
        Forall printableDate (take maxPlayers ps)
        /\ carriesData rendered cursor ps).
Proof.
  pose proof (renderLeaderboard_cases gameName ps cursor maxPlayers
                showEmojis tick) as H.
  destruct (renderLeaderboard gameName ps cursor maxPlayers showEmojis tick)
    as [r|].
  - destruct H as [Hc Hn]. split.
    + intros Hex. destruct (Hn Hex).
    + intros r' [= <-]. split; [apply printable_all; exact Hn|exact Hc].
  - split; [reflexivity|discriminate].
Qed.

(** ** renderer.js and sync.js: what the degrader hands on *)

Lemma renderLeaderboard_carries (gameName : jsstring) (ps : list Player)
    (cursor : option jsstring) (maxPlayers : nat) (showEmojis : bool)
    (tick : nat) (rendered : jsstring) :
  renderLeaderboard gameName ps cursor maxPlayers showEmojis tick
  = Some rendered ->
  carriesData rendered cursor ps.
Proof.
  intros H.
  pose proof (renderLeaderboard_cases gameName ps cursor maxPlayers
                showEmojis tick) as Hc.
  rewrite H in Hc. exact (proj1 Hc).
Qed.

(** Whatever the loop returns is the render of the first [k] entities,
    [k] being the count it reports. *)
Lemma truncateLoop_renders (gameName : jsstring) (ps : list Player)
    (cursor : option jsstring) (maxLength : nat) (playerCount : nat) :
  forall (tick : nat) (t : Truncated),
    truncateLoop gameName ps cursor maxLength playerCount tick = Some t ->
    truncated t = true
    /\ exists k maxPlayers tick',
         shownCount t = Some k
         /\ renderLeaderboard gameName (take k ps) cursor maxPlayers true
              tick' = Some (content t)
         /\ (((0 < k <= playerCount)%nat
              /\ (length (content t) <= maxLength)%nat)
             \/ k = 3%nat).
Proof.
  induction playerCount as [playerCount IH] using lt_wf_ind.
  intros tick t. destruct playerCount as [|n].
  - rewrite truncateLoop_equation_1.
    destruct (renderLeaderboard gameName (take 3 ps) cursor 50 true tick)
      as [r|] eqn:Hr; cbn [mbind option_bind]; [|discriminate].
    intros [= <-]. cbn [truncated content shownCount].
    split; [reflexivity|]. exists 3%nat, 50%nat, tick.
    split; [reflexivity|]. split; [exact Hr|]. right. reflexivity.
  - rewrite truncateLoop_equation_2.
    destruct (renderLeaderboard gameName (take (S n) ps) cursor (S n) true
                tick) as [r|] eqn:Hr; [|discriminate].
    destruct (fits r maxLength) eqn:Hfit.
    + intros [= <-]. cbn [truncated content shownCount].
      split; [reflexivity|]. exists (S n), (S n), tick.
      split; [reflexivity|]. split; [exact Hr|].
      left. split; [lia|]. apply Nat.leb_le. exact Hfit.
    + intros Ht.
      assert (Hlt : (S n / 2 < S n)%nat) by (apply Nat.div_lt; lia).
      destruct (IH (S n / 2)%nat Hlt (S tick) t Ht)
        as (Htr & k & mp & tk & Hk & Hrender & Hor).
      split; [exact Htr|]. exists k, mp, tk. split; [exact Hk|].
      split; [exact Hrender|].
      destruct Hor as [[Hrange Hlen]|Hfloor]; [left|right; exact Hfloor].
      split; [lia|exact Hlen].
Qed.

Lemma truncateIfNeeded_renders (gameName : jsstring) (ps : list Player)
    (cursor : option jsstring) (maxLength tick : nat) (t : Truncated) :
  truncateIfNeeded gameName ps cursor maxLength tick = Some t ->
  (truncated t = false
   /\ shownCount t = None
   /\ renderLeaderboard gameName ps cursor 50 true tick = Some (content t)
   /\ (length (content t) <= maxLength)%nat)
  \/ (truncated t = true
      /\ exists k maxPlayers tick',
           shownCount t = Some k
           /\ renderLeaderboard gameName (take k ps) cursor maxPlayers true
                tick' = Some (content t)
           /\ (((0 < k <= length ps / 2)%nat
                /\ (length (content t) <= maxLength)%nat)
               \/ k = 3%nat)).
Proof.
  unfold truncateIfNeeded.
  destruct (renderLeaderboard gameName ps cursor 50 true tick)
    as [r|] eqn:Hr; cbn [mbind option_bind]; [|discriminate].
  destruct (fits r maxLength) eqn:Hfit.
  - intros [= <-]. left. cbn [truncated content shownCount].
    split; [reflexivity|]. split; [reflexivity|].
    split; [reflexivity|]. apply Nat.leb_le. exact Hfit.
  - intros Ht. right. exact (truncateLoop_renders _ _ _ _ _ _ _ Ht).
Qed.

Lemma truncateIfNeeded_carries (gameName : jsstring) (ps : list Player)
    (cursor : option jsstring) (maxLength tick : nat) (t : Truncated) :
  truncateIfNeeded gameName ps cursor maxLength tick = Some t ->
  (truncated t = false
   /\ shownCount t = None
   /\ carriesData (content t) cursor ps
   /\ (length (content t) <= maxLength)%nat)
  \/ (truncated t = true
      /\ exists k,
           shownCount t = Some k
           /\ carriesData (content t) cursor (take k ps)
           /\ (((0 < k <= length ps / 2)%nat
                /\ (length (content t) <= maxLength)%nat)
               \/ k = 3%nat)).
Proof.
  intros Ht.
  destruct (truncateIfNeeded_renders _ _ _ _ _ _ Ht)
    as [(Hf & Hn & Hr & Hlen)|(Htr & k & mp & tk & Hk & Hr & Hor)].
  - left. split; [exact Hf|]. split; [exact Hn|].
    split; [exact (renderLeaderboard_carries _ _ _ _ _ _ _ Hr)|exact Hlen].
  - right. split; [exact Htr|]. exists k. split; [exact Hk|].
    split; [exact (renderLeaderboard_carries _ _ _ _ _ _ _ Hr)|exact Hor].
Qed.

(** X11 (renderer.js, truncateIfNeeded).  Whatever the degrader returns
    ends with the data section of the same cursor and of a prefix of the
    collection, never of other or reordered entities.  Not truncated
    means the whole collection, within the length asked for, and no
    count reported.  Truncated means the reported count k of entities
    and only those in the data section: either k is at least one and at
    most half the collection and the text is within the length asked
    for, or k is the floor of three. *)
Theorem truncateIfNeeded_persists (gameName : jsstring) (ps : list Player)
    (cursor : option jsstring) (maxLength tick : nat) (t : Truncated) :
  truncateIfNeeded gameName ps cursor maxLength tick = Some t ->
  (truncated t = false
   /\ shownCount t = None
   /\ carriesData (content t) cursor ps
   /\ (length (content t) <= maxLength)%nat)
  \/ (truncated t = true
      /\ exists k,
           shownCount t = Some k
           /\ carriesData (content t) cursor (take k ps)
           /\ (((0 < k <= length ps / 2)%nat
                /\ (length (content t) <= maxLength)%nat)
               \/ k = 3%nat)).
Proof. exact (truncateIfNeeded_carries gameName ps cursor maxLength tick t). Qed.

(** The text of step 6 is the render of the first [k] entities. *)
Lemma renderStep_renders (gameName : jsstring) (sortedPlayers : list Player)
    (lastMessageId : option jsstring) (tick : nat) (text : jsstring) :
  renderStep gameName sortedPlayers lastMessageId tick = Some text ->
  exists k maxPlayers tick',
    renderLeaderboard gameName (take k sortedPlayers) lastMessageId
      maxPlayers true tick' = Some text
    /\ ((length text <= 2000)%nat \/ k = 3%nat)
    /\ ((k < length sortedPlayers)%nat ->
        forall baseline,
          renderLeaderboard gameName sortedPlayers lastMessageId 50 true tick
          = Some baseline ->
          (2000 < length baseline)%nat).
Proof.
  unfold renderStep.
  destruct (renderLeaderboard gameName sortedPlayers lastMessageId 50 true
              tick) as [r|] eqn:Hr; cbn [mbind option_bind]; [|discriminate].
  unfold validateMessageLength, MAX_LENGTH.
  destruct (2000 <? Z.of_nat (length r)) eqn:Hlen; cbn [negb].
  - apply Z.ltb_lt in Hlen.
    destruct (truncateIfNeeded gameName sortedPlayers lastMessageId 1900
                (S tick)) as [t|] eqn:Ht; cbn [mbind option_bind];
      [|discriminate].
    intros [= <-].
    destruct (truncateIfNeeded_renders _ _ _ _ _ _ Ht)
      as [(_ & _ & Hrender & Hfit)
         |(_ & k & mp & tk & _ & Hrender & Hor)].
    + exists (length sortedPlayers), 50%nat, (S tick). rewrite firstn_all.
      split; [exact Hrender|]. split; [left; lia|]. intros Hk. lia.
    + exists k, mp, tk. split; [exact Hrender|]. split.
      * destruct Hor as [[_ Hfit]|Hk]; [left; lia|right; exact Hk].
      * intros _ baseline [= <-]. lia.
  - apply Z.ltb_ge in Hlen. intros [= <-].
    exists (length sortedPlayers), 50%nat, tick. rewrite firstn_all.
    split; [exact Hr|]. split; [left; lia|]. intros Hk. lia.
Qed.

Lemma renderStep_carries (gameName : jsstring) (sortedPlayers : list Player)
    (lastMessageId : option jsstring) (tick : nat) (text : jsstring) :
  renderStep gameName sortedPlayers lastMessageId tick = Some text ->
  exists k,
    carriesData text lastMessageId (take k sortedPlayers)
    /\ ((length text <= 2000)%nat \/ k = 3%nat)
    /\ ((k < length sortedPlayers)%nat ->
        forall baseline,
          renderLeaderboard gameName sortedPlayers lastMessageId 50 true tick
          = Some baseline ->
          (2000 < length baseline)%nat).
Proof.
  intros H.
  destruct (renderStep_renders _ _ _ _ _ H) as (k & mp & tk & Hr & Hlen & Hb).
  exists k. split; [exact (renderLeaderboard_carries _ _ _ _ _ _ _ Hr)|].
  split; [exact Hlen|exact Hb].
Qed.

(** X13 (sync.js, step 6 of syncGame).  The text that a sync posts is at
    most 2000 characters long unless it is the three-entity floor of the
    degrader, and it ends with the data section of the cursor it was
    given and of a prefix of the sorted collection: the whole collection
    when the text is the untruncated render. *)
Theorem renderStep_posts (gameName : jsstring) (sortedPlayers : list Player)
    (lastMessageId : option jsstring) (tick : nat) (text : jsstring) :
  renderStep gameName sortedPlayers lastMessageId tick = Some text ->
  exists k,
    carriesData text lastMessageId (take k sortedPlayers)
    /\ ((length text <= 2000)%nat \/ k = 3%nat)
    /\ ((k < length sortedPlayers)%nat ->
        forall baseline,
          renderLeaderboard gameName sortedPlayers lastMessageId 50 true tick
          = Some baseline ->
          (2000 < length baseline)%nat).
Proof.
  exact (renderStep_carries gameName sortedPlayers lastMessageId tick text).
Qed.

(** ** discord.js and sync.js: a run as a whole *)

Lemma fetchMessages_sorted (fetched : list Message) :
  chronological (Array_sort byCreatedTimestamp fetched).
Proof.
  apply Array_sort_sorted.
  - intros a b c Hab Hbc. lia.
  - intros x y _ _. unfold byCreatedTimestamp, positive.
    destruct (0 <? msg_createdTimestamp x - msg_createdTimestamp y) eqn:E.
    + apply Z.ltb_lt in E. lia.
    + apply Z.ltb_ge in E. lia.
Qed.

(** X14 (discord.js, fetchMessages).  The request sent to Discord asks
    for at most 100 messages and names the cursor only when there is a
    non-empty one.  What comes back is handed on oldest first: a
    permutation of the fetched collection in which no message is older
    than one before it, messages of the same time stamp in the order
    Discord gave them.  The call throws exactly when the request does. *)
Theorem fetchMessages_chronological (afterMessageId : option jsstring)
    (limit : jsnum) :
  match fetchMessages afterMessageId limit with
  | Some messages =>
      exists fetched,
        channelFetch
          (if isEmpty (default [] afterMessageId) then None
           else afterMessageId)
          (Math_min limit (Int 100)) = Some fetched
        /\ Permutation fetched messages
        /\ chronological messages
        /\ forall t, List.filter (sentAt t) messages
                     = List.filter (sentAt t) fetched
  | None =>
      channelFetch
        (if isEmpty (default [] afterMessageId) then None
         else afterMessageId)
        (Math_min limit (Int 100)) = None
  end
  /\ (forall n, Math_min limit (Int 100) = Int n -> n <= 100).
Proof.
  split.
  - unfold fetchMessages. cbv zeta.
    replace (match afterMessageId with
             | Some (c :: s) => Some (c :: s)
             | _ => None
             end)
      with (if isEmpty (default [] afterMessageId) then None
            else afterMessageId)
      by (destruct afterMessageId as [[|c s]|]; reflexivity).
    destruct (channelFetch _ _) as [fetched|]; cbn [mbind option_bind];
      [|reflexivity].
    exists fetched. split; [reflexivity|].
    split; [apply Array_sort_perm|].
    split; [apply fetchMessages_sorted|].
    intros t. apply Array_sort_stable. intros x y _ _ Hx Hy.
    unfold sentAt in Hx, Hy. apply Z.eqb_eq in Hx, Hy.
    unfold byCreatedTimestamp, positive. rewrite Hx, Hy, Z.sub_diag.
    reflexivity.
  - intros n. destruct limit as [|z]; cbn [Math_min]; [discriminate|].
    intros [= <-]. lia.
Qed.

Lemma loadedState_cases (messageContent : option jsstring) :
  match messageContent with
  | Some (c :: s) => decodeState (c :: s)
  | _ => emptyState
  end = loadedState messageContent.
Proof. destruct messageContent as [[|c s]|]; reflexivity. Qed.

Lemma mergeStep_growth (st : MergeState) (u : Successful) :
  (length (m_players (mergeStep st u)) + updatedCount st
   <= length (m_players st) + updatedCount (mergeStep st u))%nat
  /\ (length (m_players st) <= length (m_players (mergeStep st u)))%nat.
Proof.
  unfold mergeStep.
  destruct (validatePlayerData (playerDataOf u)); cbn [negb]; [|lia].
  unfold upsertPlayer.
  destruct (list_find _ _) as [[i e]|].
  - destruct (Date_ltb _ _); cbn [m_players updatedCount upsert_players updated];
      rewrite ?length_insert; lia.
  - cbn [m_players updatedCount upsert_players updated].
    rewrite length_app. cbn [length]. lia.
Qed.

Lemma mergeFold_growth (updates : list Successful) (st : MergeState) :
  (length (m_players (fold_left mergeStep updates st)) + updatedCount st
   <= length (m_players st)
      + updatedCount (fold_left mergeStep updates st))%nat
  /\ (length (m_players st)
      <= length (m_players (fold_left mergeStep updates st)))%nat.
Proof.
  revert st. induction updates as [|u us IH]; intros st; [cbn; lia|].
  cbn [fold_left]. destruct (IH (mergeStep st u)) as [IH1 IH2].
  destruct (mergeStep_growth st u) as [S1 S2]. lia.
Qed.

Lemma validUpdates_length (updates : list Successful) :
  (length (validUpdates updates) <= length updates)%nat.
Proof.
  unfold validUpdates. induction updates as [|u us IH]; [reflexivity|].
  cbn [List.filter]. destruct (validatePlayerData _); cbn [length]; lia.
Qed.

(** X15 (sync.js, syncGame).  The figures a run reports.  Nothing is
    posted exactly when no message was fetched, and then every figure is
    zero.  Otherwise the updated, failed and skipped figures add up to
    at most the number of messages processed, and the number of entities
    is at least the number loaded from the persistent message and at
    most that number plus the updated figure. *)
Theorem syncGame_report (gameName : jsstring)
    (messageContent : option jsstring) (maxMessages : jsnum) (tick : nat)
    (out : SyncOutcome) :
  syncGame gameName messageContent maxMessages tick = Some out ->
  (posted out = None <-> processed (report out) = 0%nat)
  /\ (posted out = None ->
      report out = {| processed := 0; r_updated := 0; r_failed := 0;
                      r_skipped := 0; totalPlayers := None |})
  /\ (r_updated (report out) + r_failed (report out)
      + r_skipped (report out) <= processed (report out))%nat
  /\ (forall n, totalPlayers (report out) = Some n ->
        (length (players (loadedState messageContent)) <= n
         <= length (players (loadedState messageContent))
            + r_updated (report out))%nat).
Proof.
  unfold syncGame. cbv zeta. rewrite loadedState_cases.
  set (loaded := loadedState messageContent).
  destruct (fetchMessages (lastProcessedMessageId loaded) maxMessages)
    as [messages|]; cbn [mbind option_bind]; [|discriminate].
  destruct (length messages =? 0)%nat eqn:Hlen.
  - intros [= <-]. cbn [report posted processed r_updated r_failed
                        r_skipped totalPlayers].
    split; [split; reflexivity|]. split; [reflexivity|].
    split; [lia|discriminate].
  - apply Nat.eqb_neq in Hlen.
    set (parsed := parseMultipleUpdates messages).
    set (merged := mergeUpdates loaded (successful parsed)).
    destruct (renderStep gameName (sortPlayers (m_players merged))
                (lastMessageId merged) tick) as [text|];
      cbn [mbind option_bind]; [|discriminate].
    intros [= <-]. cbn [report posted processed r_updated r_failed
                        r_skipped totalPlayers].
    split; [split; [discriminate|intros H; destruct (Hlen H)]|].
    split; [discriminate|].
    destruct (parseFold_counts messages
                {| successful := []; failed := []; skipped := 0%nat |})
      as [Hcount _].
    cbn [successful failed skipped length] in Hcount.
    fold (parseMultipleUpdates messages) in Hcount. fold parsed in Hcount.
    destruct (mergeFold_keeps (successful parsed)
                {| m_players := players loaded; updatedCount := 0%nat;
                   lastMessageId := lastProcessedMessageId loaded |})
      as (_ & _ & Hupd & _).
    destruct (mergeFold_growth (successful parsed)
                {| m_players := players loaded; updatedCount := 0%nat;
                   lastMessageId := lastProcessedMessageId loaded |})
      as [Hgrow Hkeep].
    fold (mergeUpdates loaded (successful parsed)) in Hupd, Hgrow, Hkeep.
    fold merged in Hupd, Hgrow, Hkeep.
    cbn [m_players updatedCount] in Hupd, Hgrow, Hkeep.
    pose proof (validUpdates_length (successful parsed)) as Hval.
    split; [lia|].
    intros n [= <-].
    pose proof (Permutation_length (Array_sort_perm comparePlayers
                                      (m_players merged))) as Hsort.
    fold (sortPlayers (m_players merged)) in Hsort. lia.
Qed.

Lemma mergeFold_noop (updates : list Successful) (st : MergeState) :
  validUpdates updates = [] -> fold_left mergeStep updates st = st.
Proof.
  unfold validUpdates. induction updates as [|u us IH]; [reflexivity|].
  cbn [List.filter fold_left]. unfold mergeStep at 2.
  destruct (validatePlayerData (playerDataOf u)); [discriminate|].
  exact IH.
Qed.

(** X16 (sync.js, syncGame).  What a run posts.  The text handed to the
    webhook ends with a data section whose cursor is the id of the last
    accepted update of the fetched messages, taken oldest first, or the
    loaded cursor when none was accepted, and whose entities are a
    prefix of the ranking of the merged collection; it is at most 2000
    characters long unless it is the three-entity floor.  When no update
    was accepted the merged collection is the loaded one. *)
Theorem syncGame_posts (gameName : jsstring)
    (messageContent : option jsstring) (maxMessages : jsnum) (tick : nat)
    (out : SyncOutcome) (text : jsstring) :
  syncGame gameName messageContent maxMessages tick = Some out ->
  posted out = Some text ->
  exists messages k,
    fetchMessages (lastProcessedMessageId (loadedState messageContent))
      maxMessages = Some messages
    /\ let loaded := loadedState messageContent in
       let accepted :=
         validUpdates (successful (parseMultipleUpdates messages)) in
       let merged :=
         mergeUpdates loaded (successful (parseMultipleUpdates messages)) in
       carriesData text
         match last accepted with
         | Some u => Some (messageId u)
         | None => lastProcessedMessageId loaded
         end
         (take k (sortPlayers (m_players merged)))
       /\ ((length text <= 2000)%nat \/ k = 3%nat)
       /\ (accepted = [] -> m_players merged = players loaded).
Proof.
  unfold syncGame. cbv zeta. rewrite loadedState_cases.
  set (loaded := loadedState messageContent).
  destruct (fetchMessages (lastProcessedMessageId loaded) maxMessages)
    as [messages|]; cbn [mbind option_bind]; [|discriminate].
  destruct (length messages =? 0)%nat.
  - intros [= <-]. cbn [posted]. discriminate.
  - set (parsed := parseMultipleUpdates messages).
    set (merged := mergeUpdates loaded (successful parsed)).
    destruct (renderStep gameName (sortPlayers (m_players merged))
                (lastMessageId merged) tick) as [content0|] eqn:Hr;
      cbn [mbind option_bind]; [|discriminate].
    intros [= <-]. cbn [posted]. intros [= <-].
    exists messages.
    destruct (renderStep_carries _ _ _ _ _ Hr) as (k & Hdata & Hlen & _).
    exists k. split; [reflexivity|].
    split; [|split; [exact Hlen|]].
    + unfold merged at 1 in Hdata. unfold mergeUpdates in Hdata.
      rewrite mergeFold_cursor in Hdata. exact Hdata.
    + intros Hnone. unfold mergeUpdates.
      rewrite (mergeFold_noop _ _ Hnone). reflexivity.
Qed.

(** ** storage.js: lines the decoder skips *)

Lemma splitOn_length (c : N) (s : jsstring) :
  length (splitOn c s) = S (length (List.filter (fun x => (x =? c)%N) s)).
Proof.
  induction s as [|x s IH]; [reflexivity|].
  cbn [splitOn List.filter]. destruct (x =? c)%N.
  - cbn [length]. rewrite IH. reflexivity.
  - destruct (splitOn c s) as [|h t]; [discriminate IH|exact IH].
Qed.

Lemma decodeLine_fields (line : jsstring) :
  (fieldCount line < 7)%nat <-> decodeLine line = None.
Proof.
  unfold fieldCount, decodeLine. rewrite <- splitOn_length.
  destruct (splitOn Ch.PIPE line)
    as [|p0 [|p1 [|p2 [|p3 [|p4 [|p5 [|p6 rest]]]]]]]; cbn [length];
    split; intros H; try reflexivity; try lia; discriminate H.
Qed.

Lemma decode_junk (junk : list jsstring) :
  Forall (fun j => ~ In Ch.LF j /\ (fieldCount j < 7)%nat) junk ->
  omap id
    (List.map decodeLine
       (List.filter (fun line => negb (isEmpty (trim line))) junk)) = [].
Proof.
  induction 1 as [|j junk [_ Hj] _ IH]; [reflexivity|].
  cbn [List.filter]. destruct (negb (isEmpty (trim j))); [|exact IH].
  cbn [List.map]. rewrite (proj1 (decodeLine_fields j) Hj).
  exact IH.
Qed.

(** X17 (storage.js, decodePlayerData).  Lines with fewer than seven
    fields are skipped and cost nothing else: a data string whose lines
    are the encodings of storable entities with such lines among them
    decodes to those entities, in order. *)
Theorem decodePlayerData_skips (ps1 ps2 : list Player)
    (junk : list jsstring) :
  ps1 <> [] -> ps2 <> [] ->
  Forall (fun p => storable p = true) ps1 ->
  Forall (fun p => storable p = true) ps2 ->
  Forall (fun j => ~ In Ch.LF j /\ (fieldCount j < 7)%nat) junk ->
  decodePlayerData
    (join [Ch.LF]
       (List.map encodePlayer ps1 ++ junk ++ List.map encodePlayer ps2))
  = ps1 ++ ps2.
Proof.
  intros Hne1 Hne2 Hall1 Hall2 Hjunk.
  set (lines := List.map encodePlayer ps1 ++ junk ++ List.map encodePlayer ps2).
  assert (Hhead : exists h s, join [Ch.LF] lines = h :: s
                              /\ isWhiteSpace h = false).
  { subst lines. destruct ps1 as [|p ps1]; [congruence|].
    pose proof (Forall_inv Hall1) as Hp.
    destruct (encodePlayer_line p Hp) as (_ & _ & _ & (h & s & Hh & Hws) & _).
    cbn [List.map]. rewrite Hh, <- app_comm_cons.
    destruct (join_head [Ch.LF] h s
                (List.map encodePlayer ps1 ++ junk
                 ++ List.map encodePlayer ps2)) as [r Hr].
    exists h, r. split; [exact Hr|exact Hws]. }
  assert (Hlast : exists s c, join [Ch.LF] lines = s ++ [c]
                              /\ isWhiteSpace c = false).
  { destruct (last ps2) as [p|] eqn:El; [|apply last_None in El; congruence].
    apply last_Some in El as [l' El].
    assert (Hp : storable p = true).
    { rewrite Forall_forall in Hall2. apply Hall2. rewrite El.
      apply list_elem_of_In, in_or_app. right. left. reflexivity. }
    destruct (encodePlayer_line p Hp) as (_ & _ & _ & _ & (s' & c & Hl & Hc)).
    destruct (join_last [Ch.LF] lines (encodePlayer p) s' c) as [r Hr];
      [|exact Hl|].
    - subst lines. rewrite El, List.map_app. cbn [List.map].
      rewrite !app_assoc. apply last_snoc.
    - exists r, c. split; [exact Hr|exact Hc]. }
  assert (Hlf : List.Forall (fun l => ~ In Ch.LF l) lines).
  { subst lines. apply List.Forall_app. split; [|apply List.Forall_app; split].
    - apply List.Forall_forall. intros l Hin.
      apply in_map_iff in Hin as [p [<- Hin]].
      rewrite Forall_forall in Hall1.
      destruct (encodePlayer_line p (Hall1 p (proj2 (list_elem_of_In _ _) Hin)))
        as (_ & Hlf & _). exact Hlf.
    - eapply List.Forall_impl; [|exact Hjunk]. intros j [Hj _]. exact Hj.
    - apply List.Forall_forall. intros l Hin.
      apply in_map_iff in Hin as [p [<- Hin]].
      rewrite Forall_forall in Hall2.
      destruct (encodePlayer_line p (Hall2 p (proj2 (list_elem_of_In _ _) Hin)))
        as (_ & Hlf & _). exact Hlf. }
  destruct Hhead as (h & s & Hh & Hws). destruct Hlast as (s' & c & Hl & Hc).
  unfold decodePlayerData.
  assert (Ht : trim (join [Ch.LF] lines) = join [Ch.LF] lines).
  { rewrite Hh. apply (trim_plain h c s s'); [exact Hws | exact Hc |].
    rewrite <- Hh. exact Hl. }
  rewrite Ht. rewrite Hh at 1 2. cbn [isEmpty orb].
  rewrite splitOn_join; [| |exact Hlf].
  - subst lines. rewrite !List.filter_app, !List.map_app, !omap_app.
    rewrite (decode_lines ps1 Hall1), (decode_lines ps2 Hall2).
    rewrite (decode_junk junk Hjunk). reflexivity.
  - subst lines. destruct ps1; [congruence|discriminate].
Qed.

(** ** Dates: a calendar date is read and printed as it is written *)

Lemma isDigit_cases (c : N) :
  isDigit c = true ->
  c = 48%N \/ c = 49%N \/ c = 50%N \/ c = 51%N \/ c = 52%N \/ c = 53%N
  \/ c = 54%N \/ c = 55%N \/ c = 56%N \/ c = 57%N.
Proof.
  unfold isDigit. intros H. apply andb_prop in H as [H1 H2].
  apply N.leb_le in H1, H2. lia.
Qed.

Lemma uintChars_digitPrefix (s : jsstring) :
  forallb isDigit s = true -> uintChars (digitPrefix s) = s.
Proof.
  induction s as [|c s IH]; [reflexivity|].
  cbn [forallb digitPrefix]. intros H. apply andb_prop in H as [Hc Hs].
  rewrite Hc. specialize (IH Hs).
  destruct (isDigit_cases c Hc)
    as [->|[->|[->|[->|[->|[->|[->|[->|[->| ->]]]]]]]]];
    cbn [consDigit uintChars]; rewrite IH; reflexivity.
Qed.

Lemma length_uintChars (u : uint) : length (uintChars u) = nb_digits u.
Proof. induction u; cbn [uintChars nb_digits length]; congruence. Qed.

Lemma uintChars_iter_D0 (n : nat) (u : uint) :
  uintChars (Nat.iter n D0 u) = repeat 48%N n ++ uintChars u.
Proof.
  induction n as [|n IH]; [reflexivity|].
  cbn [Nat.iter nat_rect repeat uintChars app]. 
  change (uintChars (D0 (Nat.iter n D0 u)) = 48%N :: repeat 48%N n ++ uintChars u).
  cbn [uintChars]. rewrite IH. reflexivity.
Qed.

Lemma decimal_of_uint (u : uint) :
  decimal (Z.of_uint u) = uintChars (unorm u).
Proof.
  unfold decimal, Number_toString.
  change (Z.of_uint u) with (Z.of_int (Decimal.Pos u)).
  rewrite DecimalZ.to_of. unfold norm. reflexivity.
Qed.

Lemma padStart_digitsValue (s : jsstring) :
  s <> [] -> forallb isDigit s = true ->
  padStart (length s) (decimal (digitsValue s)) = s.
Proof.
  intros Hne Hd. unfold digitsValue, padStart. rewrite decimal_of_uint.
  pose proof (uintChars_digitPrefix s Hd) as Hs.
  assert (Hu : digitPrefix s <> Nil).
  { intros E. rewrite E in Hs. cbn in Hs. congruence. }
  remember (digitPrefix s) as u eqn:Eu. clear Eu Hd Hne. subst s.
  rewrite !length_uintChars.
  rewrite <- uintChars_iter_D0, DecimalFacts.iter_D0_unorm by exact Hu.
  reflexivity.
Qed.

Lemma of_lu_bound (d : uint) :
  (Unsigned.of_lu d < 10 ^ N.of_nat (nb_digits d))%N.
Proof.
  induction d; cbn [Unsigned.of_lu nb_digits];
    rewrite ?Nat2N.inj_succ, ?N.pow_succ_r'; cbn; lia.
Qed.

Lemma digitsValue_bound (s : jsstring) :
  forallb isDigit s = true ->
  0 <= digitsValue s < 10 ^ Z.of_nat (length s).
Proof.
  intros Hd. unfold digitsValue, Z.of_uint. split; [lia|].
  rewrite Unsigned.of_uint_alt.
  pose proof (of_lu_bound (Decimal.rev (digitPrefix s))) as H.
  rewrite DecimalFacts.nb_digits_rev, <- length_uintChars,
    uintChars_digitPrefix in H
    by exact Hd.
  apply N2Z.inj_lt in H. rewrite N2Z.inj_pow in H.
  rewrite nat_N_Z in H. exact H.
Qed.

Lemma civil_yoe (yoe doy : Z) :
  0 <= yoe <= 399 -> 0 <= doy <= 365 ->
  (doy = 365 -> (yoe + 1) mod 4 = 0 /\ ((yoe + 1) mod 100 <> 0 \/ yoe = 399)) ->
  (yoe * 365 + yoe / 4 - yoe / 100 + doy
   - (yoe * 365 + yoe / 4 - yoe / 100 + doy) / 1460
   + (yoe * 365 + yoe / 4 - yoe / 100 + doy) / 36524
   - (yoe * 365 + yoe / 4 - yoe / 100 + doy) / 146096) / 365 = yoe.
Proof.
  intros Hy Hd Hleap.
  Z.to_euclidean_division_equations; lia.
Qed.

Lemma civil_month (y m d : Z) :
  validCivil y m d ->
  let mp := (m + 9) mod 12 in
  let doy := (153 * mp + 2) / 5 + d - 1 in
  0 <= doy <= 365
  /\ (doy = 365 -> m = 2 /\ d = 29)
  /\ (5 * doy + 2) / 153 = mp
  /\ doy - (153 * mp + 2) / 5 + 1 = d
  /\ (if mp <? 10 then mp + 3 else mp - 9) = m.
Proof.
  intros [Hm Hd]. 
  destruct (month_cases _ Hm)
    as [->|[->|[->|[->|[->|[->|[->|[->|[->|[->|[->| ->]]]]]]]]]]];
    unfold daysInMonth in Hd; cbn [Z.eqb Pos.eqb orb] in Hd;
  try (destruct (isLeapYear y));
  cbv zeta;
  match goal with
  | |- context [(?m + 9) mod 12] =>
      let v := eval vm_compute in ((m + 9) mod 12) in
      change ((m + 9) mod 12) with v
  end;
  match goal with
  | |- context [(153 * ?mp + 2) / 5] =>
      let v := eval vm_compute in ((153 * mp + 2) / 5) in
      change ((153 * mp + 2) / 5) with v
  end;
  cbn [Z.ltb Z.compare Pos.compare Pos.compare_cont];
  (split; [lia|]); (split; [lia|]); (split; [|split; [lia|reflexivity]]);
  Z.to_euclidean_division_equations; lia.
Qed.

Lemma leap_yoe (y : Z) :
  isLeapYear y = true ->
  let yoe := (y - 1) - (y - 1) / 400 * 400 in
  (yoe + 1) mod 4 = 0 /\ ((yoe + 1) mod 100 <> 0 \/ yoe = 399).
Proof.
  unfold isLeapYear. intros H. cbv zeta.
  apply orb_prop in H as [H|H].
  - apply andb_prop in H as [H4 H100]. apply Z.eqb_eq in H4.
    apply negb_true_iff, Z.eqb_neq in H100.
    Z.to_euclidean_division_equations; lia.
  - apply Z.eqb_eq in H. Z.to_euclidean_division_equations; lia.
Qed.

Lemma civilFromDays_daysFromCivil (y m d : Z) :
  validCivil y m d -> civilFromDays (daysFromCivil y m d) = (y, m, d).
Proof.
  intros Hv. pose proof (civil_month y m d Hv) as Hmonth.
  cbv zeta in Hmonth. destruct Hmonth as (Hdoy & H365 & Hmp & Hd & Hm).
  unfold civilFromDays, daysFromCivil. cbv zeta.
  set (y' := if m <=? 2 then y - 1 else y).
  set (era := y' / 400).
  set (yoe := y' - era * 400).
  set (mp := (m + 9) mod 12) in *.
  set (doy := (153 * mp + 2) / 5 + d - 1) in *.
  assert (Hyoe : 0 <= yoe <= 399).
  { subst yoe era. Z.to_euclidean_division_equations; lia. }
  assert (Hleap : doy = 365 ->
                  (yoe + 1) mod 4 = 0 /\ ((yoe + 1) mod 100 <> 0 \/ yoe = 399)).
  { intros E. destruct (H365 E) as [-> ->].
    destruct Hv as [_ Hday]. unfold daysInMonth in Hday.
    cbn [Z.eqb Pos.eqb] in Hday.
    destruct (isLeapYear y) eqn:Hl; [|lia].
    subst yoe era y'. cbn [Z.leb Z.compare Pos.compare Pos.compare_cont].
    exact (leap_yoe y Hl). }
  set (doe := yoe * 365 + yoe / 4 - yoe / 100 + doy).
  assert (Hdoe : 0 <= doe <= 146096).
  { subst doe. Z.to_euclidean_division_equations; lia. }
  replace (era * 146097 + doe - 719468 + 719468) with (doe + era * 146097)
    by lia.
  rewrite Z.div_add by lia. rewrite (Z.div_small doe) by lia.
  rewrite Z.add_0_l.
  replace (doe + era * 146097 - era * 146097) with doe by lia.
  subst doe. rewrite (civil_yoe yoe doy Hyoe Hdoy Hleap).
  replace (yoe * 365 + yoe / 4 - yoe / 100 + doy
           - (365 * yoe + yoe / 4 - yoe / 100)) with doy by lia.
  rewrite Hmp, Hd, Hm.
  f_equal. f_equal. subst yoe y'. destruct (m <=? 2); lia.
Qed.

Lemma matchDate_inv (s ys ms ds : jsstring) :
  matchDate s = Some (ys, ms, ds) ->
  s = ys ++ [Ch.MINUS] ++ ms ++ [Ch.MINUS] ++ ds
  /\ (length ys = 4%nat /\ forallb isDigit ys = true)
  /\ (length ms = 2%nat /\ forallb isDigit ms = true)
  /\ (length ds = 2%nat /\ forallb isDigit ds = true).
Proof.
  unfold matchDate.
  destruct s as [|y1 [|y2 [|y3 [|y4 [|h1 [|m1 [|m2 [|h2 [|d1 [|d2 [|x s]]]]]]]]]]];
    try discriminate.
  destruct (isDigit y1) eqn:Y1; [|discriminate].
  destruct (isDigit y2) eqn:Y2; [|discriminate].
  destruct (isDigit y3) eqn:Y3; [|discriminate].
  destruct (isDigit y4) eqn:Y4; [|discriminate].
  destruct (h1 =? Ch.MINUS)%N eqn:H1; [|discriminate].
  destruct (isDigit m1) eqn:M1; [|discriminate].
  destruct (isDigit m2) eqn:M2; [|discriminate].
  destruct (h2 =? Ch.MINUS)%N eqn:H2; [|discriminate].
  destruct (isDigit d1) eqn:D1; [|discriminate].
  destruct (isDigit d2) eqn:D2; [|discriminate].
  cbn [andb]. intros [= <- <- <-].
  apply N.eqb_eq in H1, H2. subst h1 h2.
  cbn [forallb length]. rewrite Y1, Y2, Y3, Y4, M1, M2, D1, D2.
  repeat split; reflexivity.
Qed.

Lemma calendarDate_inv (s : jsstring) (y m d : Z) :
  calendarDate s = Some (y, m, d) ->
  exists ys ms ds,
    matchDate s = Some (ys, ms, ds)
    /\ y = digitsValue ys /\ m = digitsValue ms /\ d = digitsValue ds.
Proof.
  unfold calendarDate.
  destruct (matchDate s) as [[[ys ms] ds]|]; [|discriminate].
  destruct (_ && _); [|discriminate].
  intros [= <- <- <-]. exists ys, ms, ds. repeat split; reflexivity.
Qed.

Lemma isoDatePart_calendar (s : jsstring) (y m d : Z) :
  calendarDate s = Some (y, m, d) ->
  isoDatePart (daysFromCivil y m d * msPerDay) = s.
Proof.
  intros Hc. pose proof (calendarDate_valid s y m d Hc) as Hv.
  destruct (calendarDate_inv s y m d Hc)
    as (ys & ms & ds & Hm & -> & -> & ->).
  destruct (matchDate_inv s ys ms ds Hm)
    as (Hs & [Ly Dy] & [Lm Dm] & [Ld Dd]).
  unfold isoDatePart.
  rewrite Z.div_mul by discriminate.
  rewrite (civilFromDays_daysFromCivil _ _ _ Hv).
  pose proof (digitsValue_bound ys Dy) as Hy. rewrite Ly in Hy.
  change (10 ^ Z.of_nat 4) with 10000 in Hy.
  replace ((0 <=? digitsValue ys) && (digitsValue ys <=? 9999)) with true
    by (symmetry; apply andb_true_intro; split; apply Z.leb_le; lia).
  rewrite <- Ly at 1. rewrite <- Lm at 1. rewrite <- Ld at 1.
  rewrite !padStart_digitsValue; try assumption.
  - symmetry. exact Hs.
  - intros ->. discriminate Ld.
  - intros ->. discriminate Lm.
  - intros ->. discriminate Ly.
Qed.

Lemma parseDate_id (s : jsstring) (c : Z * Z * Z) :
  calendarDate s = Some c -> parseDate s = Some s.
Proof.
  destruct c as [[y m] d]. intros Hc.
  destruct (calendarDate_inv s y m d Hc) as (ys & ms & ds & Hm & _).
  destruct (matchDate_inv s ys ms ds Hm) as (Hs & _).
  unfold parseDate.
  rewrite Hm, <- Hs, (Date_new_calendar s y m d Hc),
    (isoDatePart_calendar s y m d Hc).
  reflexivity.
Qed.

Lemma formatDate_id (s : jsstring) (c : Z * Z * Z) :
  calendarDate s = Some c -> formatDate s = Some s.
Proof.
  destruct c as [[y m] d]. intros Hc. unfold formatDate.
  rewrite (Date_new_calendar s y m d Hc), (isoDatePart_calendar s y m d Hc).
  reflexivity.
Qed.

(** X18 (parser.js, parseDate; renderer.js, formatDate).  A text that
    denotes a calendar date is handed back as it is, by the parser's
    date normalisation and by the renderer's date formatting alike: the
    date an update carries is the date that is stored and the date that
    is shown. *)
Theorem parseDate_calendar (s : jsstring) (c : Z * Z * Z) :
  calendarDate s = Some c ->
  parseDate s = Some s /\ formatDate s = Some s.
Proof.
  intros Hc. split; [exact (parseDate_id s c Hc)|exact (formatDate_id s c Hc)].
Qed.

(** ** parser.js: a line of the documented format is accepted *)

Lemma trim_wsfree (t : jsstring) :
  Forall (fun c => isWhiteSpace c = false) t -> trim t = t.
Proof.
  intros Ht. destruct t as [|h s]; [reflexivity|].
  destruct (exists_last (l := h :: s)) as (s' & c & Hl); [discriminate|].
  apply (trim_plain h c s s'); [| |exact Hl].
  - exact (Forall_inv Ht).
  - rewrite Forall_forall in Ht. apply Ht. rewrite Hl.
    apply list_elem_of_In, in_or_app. right. left. reflexivity.
Qed.

Lemma sanitizeInput_tierLabel (t : jsstring) :
  tierLabel t -> sanitizeInput t = t.
Proof.
  intros (_ & Hlen & Hall). apply Forall_and in Hall as [Hsafe Hws].
  rewrite sanitizeInput_take.
  assert (Hf : List.filter (fun c => negb (isDangerous c)) t = t).
  { clear Hlen Hws. induction Hsafe as [|c t Hc _ IH]; [reflexivity|].
    cbn [List.filter]. rewrite Hc, IH. reflexivity. }
  rewrite Hf, (trim_wsfree t Hws). apply take_ge. exact Hlen.
Qed.

Lemma splitWs_wsfree (t : jsstring) :
  Forall (fun c => isWhiteSpace c = false) t -> splitWs t = [t].
Proof.
  induction 1 as [|x t Hx _ IH]; [reflexivity|].
  cbn [splitWs]. rewrite Hx, IH. reflexivity.
Qed.

Lemma splitWs_token (t rest : jsstring) (y : N) :
  Forall (fun c => isWhiteSpace c = false) t ->
  isWhiteSpace y = false ->
  splitWs (t ++ 32%N :: y :: rest) = t :: splitWs (y :: rest).
Proof.
  intros Ht Hy. induction Ht as [|x t Hx _ IH].
  - cbn [app]. 
    change (splitWs (32%N :: y :: rest))
      with (if isWhiteSpace y then splitWs (y :: rest)
            else [] :: splitWs (y :: rest)).
    rewrite Hy. reflexivity.
  - rewrite <- app_comm_cons.
    change (splitWs (x :: t ++ 32%N :: y :: rest))
      with (if isWhiteSpace x then
              match t ++ 32%N :: y :: rest with
              | y0 :: _ => if isWhiteSpace y0
                           then splitWs (t ++ 32%N :: y :: rest)
                           else [] :: splitWs (t ++ 32%N :: y :: rest)
              | [] => [[]; []]
              end
            else match splitWs (t ++ 32%N :: y :: rest) with
                 | h :: tl => (x :: h) :: tl
                 | [] => [[x]]
                 end).
    rewrite Hx, IH. reflexivity.
Qed.

Lemma splitWs_join (tokens : list jsstring) :
  tokens <> [] ->
  Forall (fun t => t <> [] /\ Forall (fun c => isWhiteSpace c = false) t)
    tokens ->
  splitWs (join [32%N] tokens) = tokens.
Proof.
  intros Hne Hall. induction Hall as [|t ts [Ht Hws] Hts IH]; [congruence|].
  destruct ts as [|t' ts'].
  - cbn [join]. apply splitWs_wsfree. exact Hws.
  - change (join [32%N] (t :: t' :: ts'))
      with (t ++ 32%N :: join [32%N] (t' :: ts')).
    pose proof (Forall_inv Hts) as [Ht' Hws'].
    destruct t' as [|y r]; [congruence|].
    destruct (join_head [32%N] y r ts') as [rest Hrest].
    rewrite Hrest. rewrite splitWs_token;
      [|exact Hws|exact (Forall_inv Hws')].
    rewrite <- Hrest, IH by discriminate. reflexivity.
Qed.

Lemma numericText_wsfree (s : jsstring) :
  numericText s = true -> Forall (fun c => isWhiteSpace c = false) s.
Proof. intros H. exact (proj2 (proj2 (proj2 (numericText_plain s H)))). Qed.

Lemma digits_numeric (s : jsstring) :
  forallb isDigit s = true -> numericText s = true.
Proof.
  unfold numericText. induction s as [|c s IH]; [reflexivity|].
  cbn [forallb]. intros H. apply andb_prop in H as [Hc Hs].
  rewrite Hc, (IH Hs). reflexivity.
Qed.

Lemma decimal_token (z : Z) :
  decimal z <> [] /\ Forall (fun c => isWhiteSpace c = false) (decimal z).
Proof.
  split.
  - unfold decimal, Number_toString.
    pose proof (Z_to_int_nonnil z) as Hn.
    destruct (Z.to_int z) as [u|u]; [|discriminate].
    destruct (uintChars_head u Hn) as (c & r & -> & _). discriminate.
  - apply numericText_wsfree. apply Number_toString_numeric.
Qed.

Lemma mentionText_token (bang : bool) (id : jsstring) :
  digitRun id ->
  (exists r, mentionText bang id = Ch.LT :: r)
  /\ Forall (fun c => isWhiteSpace c = false) (mentionText bang id).
Proof.
  intros [_ Hd]. split; [eexists; reflexivity|].
  pose proof (numericText_wsfree id (digits_numeric id Hd)) as Hid.
  unfold mentionText.
  change (lit "<@") with [Ch.LT; Ch.AT]. cbn [app].
  constructor; [reflexivity|]. constructor; [reflexivity|].
  apply Forall_app. split; [destruct bang; repeat constructor|].
  apply Forall_app. split; [exact Hid|]. repeat constructor.
Qed.

Lemma extractUserId_mentionText (bang : bool) (id : jsstring) :
  digitRun id -> extractUserId (mentionText bang id) = Some id.
Proof.
  intros Hrun. rewrite extractUserId_unfold.
  rewrite <- (app_nil_r (mentionText bang id)).
  rewrite (mentionAt_complete bang id [] Hrun). reflexivity.
Qed.

Lemma calendarDate_token (date : jsstring) (c : Z * Z * Z) :
  calendarDate date = Some c ->
  date <> [] /\ Forall (fun c => isWhiteSpace c = false) date
  /\ exists s' d, date = s' ++ [d] /\ isWhiteSpace d = false.
Proof.
  intros Hc.
  assert (Ht : testDate date = true).
  { unfold testDate. unfold calendarDate in Hc.
    destruct (matchDate date); [reflexivity|discriminate]. }
  destruct (testDate_shape date Ht) as (Hnum & s' & d & Hs & Hd).
  pose proof (numericText_wsfree date Hnum) as Hws.
  split; [|split; [exact Hws|]].
  - intros E. rewrite E in Hs. destruct s'; discriminate.
  - exists s', d. split; [exact Hs|].
    rewrite Forall_forall in Hws. apply Hws. rewrite Hs.
    apply list_elem_of_In, in_or_app. right. left. reflexivity.
Qed.

Lemma isEmpty_false {A} (l : list A) : l <> [] -> isEmpty l = false.
Proof. destruct l; [congruence|reflexivity]. Qed.

Lemma digitPrefix_trailer (u : uint) (junk : jsstring) :
  (forall c r, junk = c :: r -> isDigit c = false) ->
  digitPrefix (uintChars u ++ junk) = u.
Proof.
  intros Hj. induction u; cbn [uintChars app digitPrefix];
    try (change (isDigit 48) with true; change (isDigit 49) with true;
         change (isDigit 50) with true; change (isDigit 51) with true;
         change (isDigit 52) with true; change (isDigit 53) with true;
         change (isDigit 54) with true; change (isDigit 55) with true;
         change (isDigit 56) with true; change (isDigit 57) with true;
         cbv iota; cbn [consDigit]; rewrite IHu; reflexivity).
  destruct junk as [|c r]; [reflexivity|].
  cbn [digitPrefix]. rewrite (Hj c r eq_refl). reflexivity.
Qed.

Lemma scoreToken_parse (z : Z) (junk : jsstring) :
  0 <= z -> trailer junk ->
  parseInt (decimal z ++ junk) = Int z
  /\ decimal z ++ junk <> []
  /\ Forall (fun c => isWhiteSpace c = false) (decimal z ++ junk).
Proof.
  intros Hz [Hws Hj].
  destruct (decimal_token z) as [Hne Hdws].
  split; [|split].
  - pose proof (DecimalZ.of_to z) as Hof.
    pose proof (Z_to_int_nonnil z) as Hn.
    unfold decimal, Number_toString.
    destruct (Z.to_int z) as [u|u] eqn:Hu;
      [|destruct z; cbn in Hu; try discriminate Hu; lia].
    destruct (uintChars_head u Hn) as (c & r & Hc & Hd).
    unfold parseInt, trimStart.
    assert (Hdm : isDigit c || (c =? Ch.MINUS)%N = true)
      by (rewrite Hd; reflexivity).
    destruct (digit_plain c Hdm) as (Hcws & _ & _ & _ & Hplus).
    rewrite Hc. rewrite <- app_comm_cons. cbn [dropWhile]. rewrite Hcws.
    assert (Hm : (c =? Ch.MINUS)%N = false).
    { apply N.eqb_neq. intros ->. discriminate Hd. }
    rewrite Hm, (proj2 (N.eqb_neq _ _) Hplus).
    rewrite app_comm_cons, <- Hc, (digitPrefix_trailer u junk Hj).
    rewrite <- Hof. destruct u; [congruence|..]; reflexivity.
  - intros E. apply app_eq_nil in E as [E _]. exact (Hne E).
  - apply Forall_app. split; [exact Hdws|exact Hws].
Qed.

(** X19 (parser.js, parseLeaderboardUpdate).  A line of the documented
    format is accepted and read as written: the prefix, a mention of a
    digit id in either spelling, two tier labels free of white space and
    of the stripped characters, two scores written in decimal, not
    negative and at most 2^53 - 1 (the range in which [parseInt]
    returns the integer that the digits denote), and a calendar date
    give the update with exactly that id, those labels, those scores
    and that date.  Characters that follow the digits of a score inside
    its token are ignored. *)
Theorem parseLeaderboardUpdate_accepts (bang : bool)
    (id currentTier peakTier date : jsstring) (currentScore peakScore : Z)
    (currentJunk peakJunk : jsstring) (c : Z * Z * Z) :
  digitRun id -> tierLabel currentTier -> tierLabel peakTier ->
  0 <= currentScore <= MAX_SAFE_INTEGER ->
  0 <= peakScore <= MAX_SAFE_INTEGER ->
  trailer currentJunk -> trailer peakJunk ->
  calendarDate date = Some c ->
  parseLeaderboardUpdate
    (updateLine bang id currentTier (decimal currentScore ++ currentJunk)
       peakTier (decimal peakScore ++ peakJunk) date)
  = Some {| u_userId := id;
            u_currentRank := currentTier;
            u_currentRankScore := Int currentScore;
            u_peakRank := peakTier;
            u_peakRankScore := Int peakScore;
            u_lastUpdated := date;
            u_rawMention := mentionText bang id |}.
Proof.
  intros Hid Hcr Hpr [Hc _] [Hk _] Hcj Hkj Hdate.
  destruct (mentionText_token bang id Hid) as [[rm Hrm] Hmws].
  destruct (calendarDate_token date c Hdate)
    as (Hdne & Hdws & sd & d & Hds & Hd).
  destruct (scoreToken_parse currentScore currentJunk Hc Hcj)
    as (Hcparse & Hcne & Hcws).
  destruct (scoreToken_parse peakScore peakJunk Hk Hkj)
    as (Hkparse & Hkne & Hkws).
  pose proof Hcr as (Hcrne & _ & Hcrall).
  pose proof Hpr as (Hprne & _ & Hprall).
  apply Forall_and in Hcrall as [_ Hcrws].
  apply Forall_and in Hprall as [_ Hprws].
  unfold updateLine. change (lit " ") with [32%N].
  remember [ mentionText bang id; currentTier;
             decimal currentScore ++ currentJunk;
             peakTier; decimal peakScore ++ peakJunk; date ]
    as tokens eqn:Htokens.
  assert (Htok : Forall (fun t => t <> []
                    /\ Forall (fun c => isWhiteSpace c = false) t) tokens).
  { rewrite Htokens.
    constructor; [split; [rewrite Hrm; discriminate|exact Hmws]|].
    constructor; [split; [exact Hcrne|exact Hcrws]|].
    constructor; [split; [exact Hcne|exact Hcws]|].
    constructor; [split; [exact Hprne|exact Hprws]|].
    constructor; [split; [exact Hkne|exact Hkws]|].
    constructor; [split; [exact Hdne|exact Hdws]|]. constructor. }
  assert (Hsplit : splitWs (join [32%N] tokens) = tokens)
    by (apply splitWs_join; [rewrite Htokens; discriminate|exact Htok]).
  assert (Hhead : exists r, join [32%N] tokens = Ch.LT :: r).
  { rewrite Htokens, Hrm. apply join_head. }
  assert (Hlast : exists r, join [32%N] tokens = r ++ [d]).
  { apply (join_last [32%N] tokens date sd d);
      [rewrite Htokens; reflexivity|exact Hds]. }
  destruct Hhead as [rh Hh]. destruct Hlast as [rl Hl].
  assert (Htrim : trim (LB_UPDATE_PREFIX ++ [32%N] ++ join [32%N] tokens)
                  = LB_UPDATE_PREFIX ++ [32%N] ++ join [32%N] tokens).
  { change LB_UPDATE_PREFIX with (76%N :: lit "B_UPDATE:").
    rewrite <- app_comm_cons.
    apply (trim_plain 76%N d _ (LB_UPDATE_PREFIX ++ [32%N] ++ rl));
      [reflexivity|exact Hd|].
    rewrite Hl. change LB_UPDATE_PREFIX with (76%N :: lit "B_UPDATE:").
    rewrite <- !app_comm_cons, <- !app_assoc. reflexivity. }
  assert (Hcore : trim ([32%N] ++ join [32%N] tokens) = join [32%N] tokens).
  { rewrite <- (app_nil_r (join [32%N] tokens)) at 1.
    apply (trim_margins [32%N] [] Ch.LT d rh);
      [reflexivity|reflexivity|reflexivity|exact Hd|exact Hh|].
    exists rl. exact Hl. }
  unfold parseLeaderboardUpdate.
  replace (isEmpty (LB_UPDATE_PREFIX ++ [32%N] ++ join [32%N] tokens))
    with false by reflexivity.
  rewrite Htrim, startsWith_app. cbn [negb].
  rewrite drop_app_length, Hcore, Hsplit.
  rewrite Htokens.
  rewrite (extractUserId_mentionText bang id Hid).
  rewrite (isEmpty_false id (proj1 Hid)).
  rewrite Hcparse, Hkparse.
  cbn [isNaN orb jsnum_ltb].
  replace (currentScore <? 0) with false by (symmetry; apply Z.ltb_ge; lia).
  replace (peakScore <? 0) with false by (symmetry; apply Z.ltb_ge; lia).
  cbn [orb].
  rewrite (parseDate_id date c Hdate), (isEmpty_false date Hdne).
  rewrite (sanitizeInput_tierLabel _ Hcr), (sanitizeInput_tierLabel _ Hpr).
  rewrite (isEmpty_false _ Hcrne), (isEmpty_false _ Hprne).
  reflexivity.
Qed.

(** A day of 1..31 in a month of 1..12 is a calendar day of that month
    or runs over into the next month of the same year. *)
Lemma daysFromCivil_overflow (y m d : Z) :
  1 <= m <= 12 -> 1 <= d <= 31 ->
  exists m' d',
    validCivil y m' d' /\ daysFromCivil y m d = daysFromCivil y m' d'.
Proof.
  intros Hm Hd.
  destruct (Z_le_gt_dec d (daysInMonth y m)) as [Hin|Hover].
  - exists m, d. split; [split; [exact Hm|lia]|reflexivity].
  - exists (m + 1), (d - daysInMonth y m).
    pose proof (yearDays_step (y - 1)) as Hstep.
    replace (y - 1 + 1) with y in Hstep by lia.
    destruct (month_cases _ Hm)
      as [->|[->|[->|[->|[->|[->|[->|[->|[->|[->|[->| ->]]]]]]]]]]];
      repeat match goal with
        | |- context [Z.pos ?a + 1] =>
            let v := eval vm_compute in (Z.pos a + 1) in
            change (Z.pos a + 1) with v
        end;
      unfold validCivil, daysInMonth in *;
      cbn [Z.eqb Pos.eqb orb] in *;
      try (destruct (isLeapYear y));
      try lia;
      (split; [lia|]);
      rewrite !daysFromCivil_alt;
      repeat match goal with
        | |- context [(153 * ((?m + 9) mod 12) + 2) / 5] =>
            let v := eval vm_compute in ((153 * ((m + 9) mod 12) + 2) / 5) in
            change ((153 * ((m + 9) mod 12) + 2) / 5) with v
        end;
      repeat match goal with
        | |- context [?m <=? 2] =>
            let v := eval vm_compute in (m <=? 2) in change (m <=? 2) with v
        end;
      cbv iota; lia.
Qed.

Lemma twoDigits (z : Z) :
  1 <= z <= 31 ->
  exists a b,
    padStart 2 (decimal z) = [a; b]
    /\ isDigit a = true /\ isDigit b = true /\ digitsValue [a; b] = z.
Proof.
  intros Hz.
  assert (Hall :
    forallb (fun n =>
      match padStart 2 (decimal (Z.of_nat n)) with
      | [a; b] => isDigit a && isDigit b
                  && (digitsValue [a; b] =? Z.of_nat n)
      | _ => false
      end) (seq 1 31) = true) by (vm_compute; reflexivity).
  rewrite forallb_forall in Hall.
  specialize (Hall (Z.to_nat z)).
  rewrite Z2Nat.id in Hall by lia.
  assert (Hin : In (Z.to_nat z) (seq 1 31)) by (apply in_seq; lia).
  specialize (Hall Hin).
  destruct (padStart 2 (decimal z)) as [|a [|b [|x r]]]; try discriminate.
  apply andb_prop in Hall as [Hab Hv]. apply andb_prop in Hab as [Ha Hb].
  apply Z.eqb_eq in Hv. exists a, b. repeat split; assumption.
Qed.

Lemma matchDate_compose (ys ms ds : jsstring) :
  length ys = 4%nat -> forallb isDigit ys = true ->
  length ms = 2%nat -> forallb isDigit ms = true ->
  length ds = 2%nat -> forallb isDigit ds = true ->
  matchDate (ys ++ [Ch.MINUS] ++ ms ++ [Ch.MINUS] ++ ds) = Some (ys, ms, ds).
Proof.
  intros Ly Dy Lm Dm Ld Dd.
  destruct ys as [|y1 [|y2 [|y3 [|y4 [|x ys]]]]]; try discriminate.
  destruct ms as [|m1 [|m2 [|x ms]]]; try discriminate.
  destruct ds as [|d1 [|d2 [|x ds]]]; try discriminate.
  cbn [forallb] in Dy, Dm, Dd.
  repeat match goal with
         | H : _ && _ = true |- _ => apply andb_prop in H as [? H]
         end.
  cbn [app]. unfold matchDate.
  repeat match goal with
         | H : isDigit _ = true |- _ => rewrite H; clear H
         end.
  reflexivity.
Qed.

Lemma isoDatePart_normal (ys : jsstring) (m d : Z) :
  length ys = 4%nat -> forallb isDigit ys = true ->
  validCivil (digitsValue ys) m d ->
  calendarDate (isoDatePart (daysFromCivil (digitsValue ys) m d * msPerDay))
  = Some (digitsValue ys, m, d).
Proof.
  intros Ly Dy Hv. unfold isoDatePart.
  rewrite Z.div_mul by discriminate.
  rewrite (civilFromDays_daysFromCivil _ _ _ Hv).
  pose proof (digitsValue_bound ys Dy) as Hy. rewrite Ly in Hy.
  change (10 ^ Z.of_nat 4) with 10000 in Hy.
  replace ((0 <=? digitsValue ys) && (digitsValue ys <=? 9999)) with true
    by (symmetry; apply andb_true_intro; split; apply Z.leb_le; lia).
  rewrite <- Ly at 1. rewrite padStart_digitsValue;
    [|intros ->; discriminate Ly|exact Dy].
  destruct Hv as [Hm Hd].
  pose proof (daysInMonth_le_31 (digitsValue ys) m) as H31.
  destruct (twoDigits m) as (a & b & -> & Ha & Hb & Hmv); [lia|].
  destruct (twoDigits d) as (a' & b' & -> & Ha' & Hb' & Hdv); [lia|].
  unfold calendarDate.
  rewrite matchDate_compose;
    [|exact Ly|exact Dy|reflexivity|cbn [forallb]; rewrite Ha, Hb; reflexivity
     |reflexivity|cbn [forallb]; rewrite Ha', Hb'; reflexivity].
  rewrite Hmv, Hdv.
  replace ((1 <=? m) && (m <=? 12) && (1 <=? d)
           && (d <=? daysInMonth (digitsValue ys) m)) with true; [reflexivity|].
  symmetry. repeat (apply andb_true_intro; split); apply Z.leb_le; lia.
Qed.

Lemma isoDateOnly_inv (s : jsstring) (t : Z) :
  isoDateOnly s = Some t ->
  exists ys ms ds,
    matchDate s = Some (ys, ms, ds)
    /\ 1 <= digitsValue ms <= 12 /\ 1 <= digitsValue ds <= 31
    /\ t = daysFromCivil (digitsValue ys) (digitsValue ms) (digitsValue ds)
            * msPerDay.
Proof.
  unfold isoDateOnly.
  destruct (matchDate s) as [[[ys ms] ds]|]; [|discriminate].
  destruct (_ && _) eqn:E; [|discriminate].
  intros [= <-]. exists ys, ms, ds.
  apply andb_prop in E as [E E4]. apply andb_prop in E as [E E3].
  apply andb_prop in E as [E1 E2].
  apply Z.leb_le in E1, E2, E3, E4.
  split; [reflexivity|]. split; [lia|]. split; [lia|reflexivity].
Qed.

Lemma parseDate_iso (s : jsstring) (t : Z) :
  isoDateOnly s = Some t ->
  exists s' c,
    parseDate s = Some s' /\ calendarDate s' = Some c
    /\ Date_new s' = Some t.
Proof.
  intros Hiso.
  destruct (isoDateOnly_inv s t Hiso) as (ys & ms & ds & Hm & Hmz & Hdz & ->).
  destruct (matchDate_inv s ys ms ds Hm) as (Hs & [Ly Dy] & _).
  destruct (daysFromCivil_overflow (digitsValue ys) _ _ Hmz Hdz)
    as (m' & d' & Hv & Heq).
  pose proof (isoDatePart_normal ys m' d' Ly Dy Hv) as Hcal.
  exists (isoDatePart (daysFromCivil (digitsValue ys) m' d' * msPerDay)),
    (digitsValue ys, m', d').
  split; [|split; [exact Hcal|]].
  - unfold parseDate. rewrite Hm, <- Hs. unfold Date_new.
    rewrite Hiso, Heq. reflexivity.
  - rewrite (Date_new_calendar _ _ _ _ Hcal), Heq. reflexivity.
Qed.

(** X20 (parser.js, parseDate).  A date of the strict pattern with a
    month of 1..12 and a day of 1..31 is normalised to the calendar date
    of the very day it denotes: a day beyond the end of its month comes
    back as the date in the next month it runs over to. *)
Theorem parseDate_normalises (s : jsstring) (t : Z) :
  isoDateOnly s = Some t ->
  exists s' c,
    parseDate s = Some s' /\ calendarDate s' = Some c
    /\ Date_new s' = Some t.
Proof. exact (parseDate_iso s t). Qed.

(** ** parser.js and sync.js: what the parser accepts the merge accepts *)

Lemma parseDate_shape (s s' : jsstring) :
  strictDates -> parseDate s = Some s' -> testDate s' = true.
Proof.
  intros Hstrict Hp.
  assert (Hm : exists g, matchDate s = Some g).
  { unfold parseDate in Hp. destruct (matchDate s) as [g|]; [|discriminate].
    exists g. reflexivity. }
  destruct Hm as [[[ys ms] ds] Hm].
  destruct (matchDate_inv s ys ms ds Hm) as (Hs & _).
  destruct (isoDateOnly s) as [t|] eqn:Hiso.
  - destruct (parseDate_iso s t Hiso) as (s0 & c & Hp0 & Hc & _).
    rewrite Hp in Hp0. injection Hp0 as <-.
    unfold testDate. unfold calendarDate in Hc.
    destruct (matchDate s'); [reflexivity|discriminate].
  - exfalso. unfold parseDate in Hp. rewrite Hm, <- Hs in Hp.
    unfold Date_new in Hp. rewrite Hiso in Hp.
    rewrite (Hstrict s) in Hp; [discriminate| |exact Hiso].
    unfold testDate. rewrite Hm. reflexivity.
Qed.

Lemma parseLeaderboardUpdate_date (content : jsstring) (u : ParsedUpdate) :
  parseLeaderboardUpdate content = Some u ->
  exists token, parseDate token = Some (u_lastUpdated u).
Proof.
  unfold parseLeaderboardUpdate.
  destruct (isEmpty content); [discriminate|].
  destruct (negb _); [discriminate|].
  destruct (splitWs _) as [|mention [|cr [|crs [|pr [|prs [|lu extra]]]]]];
    try discriminate.
  destruct (extractUserId mention) as [uid|]; [|discriminate].
  destruct (isEmpty uid); [discriminate|].
  destruct (isNaN _ || isNaN _); [discriminate|].
  destruct (jsnum_ltb _ _ || jsnum_ltb _ _); [discriminate|].
  destruct (parseDate lu) as [d|] eqn:Hd; [|discriminate].
  destruct (isEmpty d); [discriminate|].
  destruct (isEmpty _ || isEmpty _); [discriminate|].
  intros [= <-]. exists lu. exact Hd.
Qed.

Lemma parsed_valid (content : jsstring) (s : Successful) :
  strictDates ->
  parseLeaderboardUpdate content = Some (data s) ->
  validatePlayerData (playerDataOf s) = true.
Proof.
  intros Hstrict Hp.
  destruct (parseLeaderboardUpdate_scores _ _ Hp) as [Hc Hk].
  destruct (parseLeaderboardUpdate_date _ _ Hp) as [token Hd].
  pose proof (parseDate_shape _ _ Hstrict Hd) as Ht.
  unfold validatePlayerData, playerDataOf.
  cbn [currentRankScore peakRankScore lastUpdated].
  destruct (u_currentRankScore (data s)) as [|c]; [discriminate|].
  destruct (u_peakRankScore (data s)) as [|k]; [discriminate|].
  cbn [nonNegative] in Hc, Hk. apply Z.leb_le in Hc, Hk.
  cbn [jsnum_ltb].
  replace (c <? 0) with false by (symmetry; apply Z.ltb_ge; lia).
  replace (k <? 0) with false by (symmetry; apply Z.ltb_ge; lia).
  rewrite Ht. reflexivity.
Qed.




(** X21 (sync.js, merge loop of syncGame; parser.js).  On an engine
    that reads a text of the strict date pattern as an ISO date or not
    at all, every update the batch parser accepts passes
    validatePlayerData: the guard of the merge loop never fires, and
    the cursor after the merge is the id of the last accepted message,
    or the loaded cursor when none was accepted. *)
Theorem parsed_updates_valid (currentState : State)
    (messages : list Message) :
  strictDates ->
  let accepted := successful (parseMultipleUpdates messages) in
  validUpdates accepted = accepted
  /\ lastMessageId (mergeUpdates currentState accepted)
     = match last accepted with
       | Some u => Some (messageId u)
       | None => lastProcessedMessageId currentState
       end.
Proof.
  intros Hstrict accepted.
  assert (Hall : Forall (fun s => exists c,
                           parseLeaderboardUpdate c = Some (data s))
                   accepted).
  { apply parseFold_successful. constructor. }
  assert (Hvalid : validUpdates accepted = accepted).
  { clearbody accepted. unfold validUpdates.
    induction Hall as [|s l [c Hc] _ IH]; [reflexivity|].
    cbn [List.filter]. rewrite (parsed_valid c s Hstrict Hc), IH.
    reflexivity. }
  split; [exact Hvalid|].
  unfold mergeUpdates. rewrite mergeFold_cursor, Hvalid. reflexivity.
Qed.

(** ** storage.js and sync.js: the newest date wins *)

Lemma find_insert_other (Q : Player -> Prop) `{!forall p, Decision (Q p)}
    (ps : list Player) (i : nat) (e u : Player) :
  ps !! i = Some e -> ~ Q e -> ~ Q u ->
  list_find Q (<[i:=u]> ps) = list_find Q ps.
Proof.
  revert i. induction ps as [|x ps IH]; intros i Hi He Hu; [reflexivity|].
  destruct i as [|i]; simpl in Hi |- *.
  - injection Hi as ->.
    destruct (decide (Q u)) as [Hq|_]; [destruct (Hu Hq)|].
    destruct (decide (Q e)) as [Hq|_]; [destruct (He Hq)|]. reflexivity.
  - destruct (decide (Q x)); [reflexivity|].
    rewrite (IH i Hi He Hu). reflexivity.
Qed.

Lemma find_snoc_other (Q : Player -> Prop) `{!forall p, Decision (Q p)}
    (ps : list Player) (u : Player) :
  ~ Q u -> list_find Q (ps ++ [u]) = list_find Q ps.
Proof.
  intros Hu. induction ps as [|x ps IH]; simpl.
  - destruct (decide (Q u)) as [Hq|_]; [destruct (Hu Hq)|reflexivity].
  - destruct (decide (Q x)); [reflexivity|]. rewrite IH. reflexivity.
Qed.

Lemma stored_upsert_other (ps : list Player) (u : Player) (id : jsstring) :
  userId u <> id ->
  stored id (upsert_players (upsertPlayer ps u)) = stored id ps.
Proof.
  intros Hne. unfold stored, upsertPlayer.
  destruct (list_find (fun p => userId p = userId u) ps)
    as [[i e]|] eqn:Hf.
  - destruct (Date_ltb _ _); cbn [upsert_players]; [reflexivity|].
    apply list_find_Some in Hf as (Hi & Hid & _).
    rewrite (find_insert_other (fun p => userId p = id) ps i e u Hi);
      [reflexivity| |exact Hne].
    rewrite Hid. exact Hne.
  - cbn [upsert_players].
    rewrite (find_snoc_other (fun p => userId p = id) ps u Hne).
    reflexivity.
Qed.

Lemma stored_upsert_same (ps : list Player) (u : Player) :
  stored (userId u) (upsert_players (upsertPlayer ps u))
  = match stored (userId u) ps with
    | Some e =>
        if Date_ltb (Date_new (lastUpdated u)) (Date_new (lastUpdated e))
        then Some e else Some u
    | None => Some u
    end.
Proof.
  pose proof (upsertPlayer_stored ps u) as Hst. revert Hst.
  unfold stored, upsertPlayer.
  destruct (list_find (fun p => userId p = userId u) ps)
    as [[i e]|] eqn:Hf; cbn [fmap option_fmap option_map snd].
  - destruct (Date_ltb _ _); cbn [upsert_players updated]; intros Hst.
    + rewrite Hf. reflexivity.
    + destruct (Hst eq_refl) as [j ->]. reflexivity.
  - cbn [upsert_players updated]. intros Hst.
    destruct (Hst eq_refl) as [j ->]. reflexivity.
Qed.

Lemma stored_id (id : jsstring) (ps : list Player) (e : Player) :
  stored id ps = Some e -> userId e = id.
Proof.
  unfold stored.
  destruct (list_find (fun p => userId p = id) ps) as [[i x]|] eqn:Hf;
    [|discriminate].
  intros [= <-]. apply list_find_Some in Hf as (_ & Hid & _). exact Hid.
Qed.

Lemma stored_mergeStep (st : MergeState) (u : Successful) (id : jsstring) :
  stored id (m_players (mergeStep st u))
  = if validatePlayerData (playerDataOf u) then
      if decide (u_userId (data u) = id) then
        match stored id (m_players st) with
        | Some e =>
            if Date_ltb (Date_new (u_lastUpdated (data u)))
                 (Date_new (lastUpdated e))
            then Some e else Some (playerDataOf u)
        | None => Some (playerDataOf u)
        end
      else stored id (m_players st)
    else stored id (m_players st).
Proof.
  unfold mergeStep.
  destruct (validatePlayerData (playerDataOf u)); cbn [negb]; [|reflexivity].
  cbn [m_players].
  destruct (decide (u_userId (data u) = id)) as [<-|Hne].
  - exact (stored_upsert_same (m_players st) (playerDataOf u)).
  - exact (stored_upsert_other (m_players st) (playerDataOf u) id Hne).
Qed.

Lemma notOlder_trans (e x y : Player) :
  printableDate e -> printableDate x -> printableDate y ->
  ~ olderThan e x -> ~ olderThan x y -> ~ olderThan e y.
Proof.
  unfold printableDate, olderThan.
  intros [a Ha] [b Hb] [c Hc]. rewrite Ha, Hb, Hc. cbn [Date_ltb].
  intros H1 H2 H3. apply Z.ltb_lt in H3.
  destruct (a <? b) eqn:E1; [exact (H1 eq_refl)|].
  destruct (b <? c) eqn:E2; [exact (H2 eq_refl)|].
  apply Z.ltb_ge in E1, E2. lia.
Qed.

Lemma notOlder_refl (e : Player) : ~ olderThan e e.
Proof. unfold olderThan. rewrite Date_ltb_irrefl. discriminate. Qed.

Lemma older_notOlder (x y : Player) :
  printableDate x -> printableDate y -> olderThan x y -> ~ olderThan y x.
Proof.
  unfold printableDate, olderThan.
  intros [a Ha] [b Hb]. rewrite Ha, Hb. cbn [Date_ltb].
  intros H1 H2. apply Z.ltb_lt in H1, H2. lia.
Qed.

Lemma mergeFold_newest (updates : list Successful) (id : jsstring)
    (e : Player) :
  forall st : MergeState,
    (forall e0, stored id (m_players st) = Some e0 -> printableDate e0) ->
    Forall (fun u => u_userId (data u) = id -> printableDate (playerDataOf u))
      (validUpdates updates) ->
    stored id (m_players (fold_left mergeStep updates st)) = Some e ->
    printableDate e
    /\ (forall e0, stored id (m_players st) = Some e0 -> ~ olderThan e e0)
    /\ Forall (fun u => u_userId (data u) = id
                        -> ~ olderThan e (playerDataOf u))
         (validUpdates updates).
Proof.
  induction updates as [|u us IH]; intros st Hinit Hups Hfinal.
  - cbn [fold_left] in Hfinal. split; [exact (Hinit e Hfinal)|].
    split; [|constructor].
    intros e0 He0. rewrite Hfinal in He0. injection He0 as <-.
    apply notOlder_refl.
  - cbn [fold_left] in Hfinal.
    pose proof (stored_mergeStep st u id) as Hstep.
    unfold validUpdates in Hups |- *. cbn [List.filter] in Hups |- *.
    fold (validUpdates us) in Hups |- *.
    destruct (validatePlayerData (playerDataOf u)) eqn:Hv.
    + apply Forall_cons in Hups as [Hu Hus].
      destruct (decide (u_userId (data u) = id)) as [Hid|Hne].
      * specialize (Hu Hid).
        destruct (stored id (m_players st)) as [e0|] eqn:Hst.
        -- pose proof (Hinit e0 eq_refl) as He0.
           destruct (Date_ltb (Date_new (u_lastUpdated (data u)))
                       (Date_new (lastUpdated e0))) eqn:Hlt.
           ++ destruct (IH (mergeStep st u)) as (Hpe & Hge & Hrest);
                [intros x Hx; rewrite Hstep in Hx; injection Hx as <-;
                 exact He0|exact Hus|exact Hfinal|].
              split; [exact Hpe|]. split.
              ** intros x [= <-]. apply Hge. exact Hstep.
              ** constructor; [|exact Hrest]. intros _.
                 apply (notOlder_trans e e0 (playerDataOf u) Hpe He0 Hu);
                   [apply Hge; exact Hstep|].
                 apply (older_notOlder _ _ Hu He0). exact Hlt.
           ++ destruct (IH (mergeStep st u)) as (Hpe & Hge & Hrest);
                [intros x Hx; rewrite Hstep in Hx; injection Hx as <-;
                 exact Hu|exact Hus|exact Hfinal|].
              split; [exact Hpe|]. split.
              ** intros x [= <-].
                 apply (notOlder_trans e (playerDataOf u) e0 Hpe Hu He0);
                   [apply Hge; exact Hstep|].
                 unfold olderThan. cbn [playerDataOf lastUpdated].
                 rewrite Hlt. discriminate.
              ** constructor; [|exact Hrest]. intros _.
                 apply Hge. exact Hstep.
        -- destruct (IH (mergeStep st u)) as (Hpe & Hge & Hrest);
             [intros x Hx; rewrite Hstep in Hx; injection Hx as <-;
              exact Hu|exact Hus|exact Hfinal|].
           split; [exact Hpe|]. split; [intros x Hx; discriminate Hx|].
           constructor; [|exact Hrest]. intros _. apply Hge. exact Hstep.
      * destruct (IH (mergeStep st u)) as (Hpe & Hge & Hrest);
          [intros x Hx; rewrite Hstep in Hx; exact (Hinit x Hx)
          |exact Hus|exact Hfinal|].
        split; [exact Hpe|]. split.
        -- intros x Hx. apply Hge. rewrite Hstep. exact Hx.
        -- constructor; [|exact Hrest]. intros Hid. destruct (Hne Hid).
    + destruct (IH (mergeStep st u)) as (Hpe & Hge & Hrest);
        [intros x Hx; rewrite Hstep in Hx; exact (Hinit x Hx)
        |exact Hups|exact Hfinal|].
      split; [exact Hpe|]. split; [|exact Hrest].
      intros x Hx. apply Hge. rewrite Hstep. exact Hx.
Qed.

(** X22 (sync.js, merge loop of syncGame; storage.js, upsertPlayer).
    The newest date wins, whatever the order of the messages.  Where the
    engine can read the dates of the loaded entity and of the valid
    updates that name an id, the entity found under that id after the
    merge is older neither than the loaded one nor than any of those
    updates. *)
Theorem mergeUpdates_newest (currentState : State)
    (updates : list Successful) (id : jsstring) (e : Player) :
  (forall e0, stored id (players currentState) = Some e0 ->
              printableDate e0) ->
  Forall (fun u => u_userId (data u) = id -> printableDate (playerDataOf u))
    (validUpdates updates) ->
  stored id (m_players (mergeUpdates currentState updates)) = Some e ->
  userId e = id
  /\ (forall e0, stored id (players currentState) = Some e0 ->
                 ~ olderThan e e0)
  /\ Forall (fun u => u_userId (data u) = id
                      -> ~ olderThan e (playerDataOf u))
       (validUpdates updates).
Proof.
  intros Hinit Hups Hfinal.
  split; [exact (stored_id _ _ _ Hfinal)|].
  exact (proj2 (mergeFold_newest updates id e
                  {| m_players := players currentState;
                     updatedCount := 0%nat;
                     lastMessageId := lastProcessedMessageId currentState |}
                  Hinit Hups Hfinal)).
Qed.

(** ** sync.js: processing a batch again changes nothing *)

Lemma stored_mergeFold (updates : list Successful) (id : jsstring) :
  forall st : MergeState,
    stored id (m_players (fold_left mergeStep updates st))
    = fold_left resolve (updatesFor id updates) (stored id (m_players st)).
Proof.
  unfold updatesFor, validUpdates.
  induction updates as [|u us IH]; intros st; [reflexivity|].
  cbn [fold_left List.filter]. rewrite IH, stored_mergeStep.
  destruct (validatePlayerData (playerDataOf u)); [|reflexivity].
  cbn [List.filter].
  destruct (decide (u_userId (data u) = id)) as [Hid|Hne].
  - rewrite (bool_decide_eq_true_2 _ Hid). reflexivity.
  - rewrite (bool_decide_eq_false_2 _ Hne). reflexivity.
Qed.

Lemma resolve_fold_ge (l : list Player) :
  forall (x : option Player) (e : Player),
    (forall x0, x = Some x0 -> printableDate x0) ->
    Forall printableDate l ->
    fold_left resolve l x = Some e ->
    printableDate e
    /\ (forall x0, x = Some x0 -> ~ olderThan e x0)
    /\ Forall (fun z => ~ olderThan e z) l.
Proof.
  induction l as [|u l IH]; intros x e Hx Hl Hfold.
  - cbn [fold_left] in Hfold. subst x.
    split; [exact (Hx e eq_refl)|]. split; [|constructor].
    intros x0 [= <-]. apply notOlder_refl.
  - cbn [fold_left] in Hfold. apply Forall_cons in Hl as [Hu Hl].
    destruct x as [x0|]; cbn [resolve] in Hfold.
    + pose proof (Hx x0 eq_refl) as Hx0.
      destruct (Date_ltb (Date_new (lastUpdated u))
                  (Date_new (lastUpdated x0))) eqn:Hlt.
      * destruct (IH (Some x0) e) as (He & Hge & Hrest);
          [intros y [= <-]; exact Hx0|exact Hl|exact Hfold|].
        split; [exact He|]. split; [exact Hge|].
        constructor; [|exact Hrest].
        apply (notOlder_trans e x0 u He Hx0 Hu (Hge x0 eq_refl)).
        apply (older_notOlder _ _ Hu Hx0). exact Hlt.
      * destruct (IH (Some u) e) as (He & Hge & Hrest);
          [intros y [= <-]; exact Hu|exact Hl|exact Hfold|].
        split; [exact He|]. split.
        -- intros y [= <-].
           apply (notOlder_trans e u x0 He Hu Hx0 (Hge u eq_refl)).
           unfold olderThan. rewrite Hlt. discriminate.
        -- constructor; [exact (Hge u eq_refl)|exact Hrest].
    + destruct (IH (Some u) e) as (He & Hge & Hrest);
        [intros y [= <-]; exact Hu|exact Hl|exact Hfold|].
      split; [exact He|]. split; [intros y Hy; discriminate Hy|].
      constructor; [exact (Hge u eq_refl)|exact Hrest].
Qed.

(** Starting from an entity that nothing in the list is newer than, the
    fold ends on an entity of the same date. *)
Lemma resolve_fold_top (l : list Player) :
  forall y u : Player,
    printableDate u -> printableDate y -> Forall printableDate l ->
    ~ olderThan y u -> ~ olderThan u y ->
    Forall (fun z => ~ olderThan u z) l ->
    exists y', fold_left resolve l (Some y) = Some y'
               /\ printableDate y'
               /\ ~ olderThan y' u /\ ~ olderThan u y'.
Proof.
  induction l as [|z l IH]; intros y u Hu Hy Hl Hyu Huy Htop.
  - exists y. split; [reflexivity|]. split; [exact Hy|].
    split; [exact Hyu|exact Huy].
  - apply Forall_cons in Hl as [Hz Hl].
    apply Forall_cons in Htop as [Huz Htop].
    cbn [fold_left resolve].
    destruct (Date_ltb (Date_new (lastUpdated z))
                (Date_new (lastUpdated y))) eqn:Hlt.
    + exact (IH y u Hu Hy Hl Hyu Huy Htop).
    + apply (IH z u Hu Hz Hl); [| exact Huz | exact Htop].
      apply (notOlder_trans z y u Hz Hy Hu); [|exact Hyu].
      unfold olderThan. rewrite Hlt. discriminate.
Qed.

Lemma resolve_fold_snoc (l : list Player) (u : Player)
    (x : option Player) :
  fold_left resolve (l ++ [u]) x = resolve (fold_left resolve l x) u.
Proof. rewrite fold_left_app. reflexivity. Qed.

Lemma resolve_fold_idem (l : list Player) :
  forall x : option Player,
    (forall x0, x = Some x0 -> printableDate x0) ->
    Forall printableDate l ->
    fold_left resolve l (fold_left resolve l x) = fold_left resolve l x.
Proof.
  induction l as [|u l IH] using rev_ind; intros x Hx Hl; [reflexivity|].
  apply Forall_app in Hl as [Hl Hu]. apply Forall_cons in Hu as [Hu _].
  rewrite !resolve_fold_snoc.
  destruct (fold_left resolve l x) as [e|] eqn:Hfold.
  - destruct (resolve_fold_ge l x e Hx Hl Hfold) as (He & _ & Hge).
    cbn [resolve].
    destruct (Date_ltb (Date_new (lastUpdated u))
                (Date_new (lastUpdated e))) eqn:Hlt.
    + rewrite <- Hfold, (IH x Hx Hl), Hfold. cbn [resolve].
      rewrite Hlt. reflexivity.
    + assert (Heu : ~ olderThan u e)
        by (unfold olderThan; rewrite Hlt; discriminate).
      destruct (resolve_fold_top l u u Hu Hu Hl
                  (notOlder_refl u) (notOlder_refl u))
        as (y' & -> & Hy' & Hy'u & Huy').
      { eapply List.Forall_impl; [|exact Hge]. intros z Hz.
        cbv beta in Hz. intros Hold.
        revert Hz Heu Hold. unfold printableDate in He, Hu.
        unfold olderThan. destruct He as [a Ha], Hu as [b Hb].
        rewrite Ha, Hb.
        destruct (Date_new (lastUpdated z)) as [c|]; cbn [Date_ltb];
          [|discriminate].
        intros H1 H2 H3. apply Z.ltb_lt in H3.
        destruct (a <? c) eqn:E1; [exact (H1 eq_refl)|].
        destruct (b <? a) eqn:E2; [exact (H2 eq_refl)|].
        apply Z.ltb_ge in E1, E2. lia. }
      cbn [resolve].
      destruct (Date_ltb (Date_new (lastUpdated u))
                  (Date_new (lastUpdated y'))) eqn:Hlt';
        [destruct (Huy' Hlt')|reflexivity].
  - cbn [resolve].
    assert (Hnil : l = []).
    { destruct l as [|z l']; [reflexivity|]. exfalso.
      clear -Hfold. revert x Hfold. generalize z.
      induction l' as [|w l' IHl]; intros z0 x Hfold.
      - destruct x; cbn in Hfold; [|discriminate].
        destruct (Date_ltb _ _); discriminate.
      - cbn [fold_left] in Hfold |- *.
        destruct (resolve x z0) as [r|] eqn:Hr.
        + exact (IHl w (Some r) Hfold).
        + destruct x; cbn in Hr; [|discriminate].
          destruct (Date_ltb _ _); discriminate. }
    subst l. cbn [fold_left resolve].
    rewrite Date_ltb_irrefl. reflexivity.
Qed.

Lemma stored_cons (id : jsstring) (x : Player) (l : list Player) :
  stored id (x :: l)
  = if decide (userId x = id) then Some x else stored id l.
Proof.
  unfold stored. simpl. destruct (decide (userId x = id)); [reflexivity|].
  destruct (list_find (fun p => userId p = id) l) as [[i e]|]; reflexivity.
Qed.

Lemma stored_absent (id : jsstring) (l : list Player) :
  ~ In id (List.map userId l) -> stored id l = None.
Proof.
  intros Hnot. pose proof (find_by_id l id) as Hf. unfold stored.
  destruct (list_find (fun p => userId p = id) l) as [[i e]|];
    [|reflexivity].
  destruct Hf as (_ & _ & Hin). destruct (Hnot Hin).
Qed.

Lemma players_ext (l : list Player) :
  forall l' : list Player,
    uniqueIds l -> List.map userId l = List.map userId l' ->
    (forall id, stored id l = stored id l') -> l = l'.
Proof.
  unfold uniqueIds.
  induction l as [|x l IH]; intros l' Hnd Hids Hst.
  - destruct l'; [reflexivity|discriminate Hids].
  - destruct l' as [|y l']; [discriminate Hids|].
    cbn [List.map] in Hnd, Hids. injection Hids as Hxy Hids.
    apply NoDup_cons in Hnd as [Hnotin Hnd].
    assert (Hnotin' : ~ In (userId x) (List.map userId l)).
    { intros Hin. apply Hnotin. apply list_elem_of_In. exact Hin. }
    pose proof (Hst (userId x)) as Hx. rewrite !stored_cons in Hx.
    destruct (decide (userId x = userId x)) as [_|Hn];
      [|destruct (Hn eq_refl)].
    destruct (decide (userId y = userId x)) as [_|Hn];
      [|destruct (Hn (eq_sym Hxy))].
    injection Hx as <-. f_equal.
    apply IH; [exact Hnd|exact Hids|].
    intros id. pose proof (Hst id) as Hid. rewrite !stored_cons in Hid.
    destruct (decide (userId x = id)) as [<-|_]; [|exact Hid].
    rewrite (stored_absent _ l Hnotin').
    rewrite (stored_absent _ l'); [reflexivity|].
    rewrite <- Hids. exact Hnotin'.
Qed.

Lemma mergeFold_unique (updates : list Successful) :
  forall st : MergeState,
    uniqueIds (m_players st) ->
    uniqueIds (m_players (fold_left mergeStep updates st)).
Proof.
  induction updates as [|u us IH]; intros st Hst; [exact Hst|].
  cbn [fold_left]. apply IH. unfold mergeStep.
  destruct (validatePlayerData (playerDataOf u)); cbn [negb]; [|exact Hst].
  cbn [m_players]. apply upsertPlayer_uniqueIds. exact Hst.
Qed.

Lemma mergeFold_present (updates : list Successful) :
  forall st : MergeState,
    Forall (fun u => In (u_userId (data u))
                       (List.map userId
                          (m_players (fold_left mergeStep updates st))))
      (validUpdates updates).
Proof.
  unfold validUpdates.
  induction updates as [|u us IH]; intros st; [constructor|].
  cbn [fold_left List.filter].
  destruct (validatePlayerData (playerDataOf u)) eqn:Hv; [|apply IH].
  constructor; [|apply IH].
  destruct (mergeFold_keeps us (mergeStep st u)) as ([k Hk] & _).
  rewrite Hk. apply in_or_app. left.
  unfold mergeStep. rewrite Hv. cbn [negb m_players].
  rewrite upsertPlayer_ids.
  pose proof (find_by_id (m_players st) (userId (playerDataOf u))) as Hf.
  destruct (list_find _ (m_players st)) as [[i e]|].
  - destruct Hf as (_ & _ & Hin). exact Hin.
  - apply in_or_app. right. left. reflexivity.
Qed.

Lemma mergeFold_ids_fixed (updates : list Successful) :
  forall st : MergeState,
    Forall (fun u => In (u_userId (data u))
                       (List.map userId (m_players st)))
      (validUpdates updates) ->
    List.map userId (m_players (fold_left mergeStep updates st))
    = List.map userId (m_players st).
Proof.
  unfold validUpdates.
  induction updates as [|u us IH]; intros st Hall; [reflexivity|].
  cbn [fold_left List.filter] in Hall |- *.
  assert (Hstep : List.map userId (m_players (mergeStep st u))
                  = List.map userId (m_players st)).
  { unfold mergeStep.
    destruct (validatePlayerData (playerDataOf u)); cbn [negb];
      [|reflexivity].
    apply Forall_cons in Hall as [Hu _].
    cbn [m_players]. rewrite upsertPlayer_ids.
    pose proof (find_by_id (m_players st) (userId (playerDataOf u))) as Hf.
    destruct (list_find _ (m_players st)) as [[i e]|]; [reflexivity|].
    destruct (Hf Hu). }
  rewrite IH, Hstep; [reflexivity|]. rewrite Hstep.
  destruct (validatePlayerData (playerDataOf u)); [|exact Hall].
  apply Forall_cons in Hall as [_ Hus]. exact Hus.
Qed.

Lemma updatesFor_printable (id : jsstring) (updates : list Successful) :
  Forall (fun u => printableDate (playerDataOf u)) (validUpdates updates) ->
  Forall printableDate (updatesFor id updates).
Proof.
  unfold updatesFor. generalize (validUpdates updates). intros l Hl.
  induction Hl as [|u l Hu _ IH]; [constructor|].
  cbn [List.filter]. destruct (bool_decide _); [|exact IH].
  cbn [List.map]. constructor; [exact Hu|exact IH].
Qed.

Lemma stored_member (id : jsstring) (l : list Player) (e : Player) :
  stored id l = Some e -> In e l.
Proof.
  unfold stored.
  destruct (list_find (fun p => userId p = id) l) as [[i x]|] eqn:Hf;
    [|discriminate].
  intros [= <-]. apply list_find_Some in Hf as (Hi & _).
  apply list_elem_of_In. eapply list_elem_of_lookup_2. exact Hi.
Qed.

(** With the names that one lookup answers, a second pass over the
    batch gives the collection and the cursor of the first. *)
Lemma mergeUpdates_again_same (currentState : State)
    (updates : list Successful) :
  uniqueIds (players currentState) ->
  Forall printableDate (players currentState) ->
  Forall (fun u => printableDate (playerDataOf u)) (validUpdates updates) ->
  let once := mergeUpdates currentState updates in
  let again :=
    mergeUpdates {| lastProcessedMessageId := lastMessageId once;
                    players := m_players once |} updates in
  m_players again = m_players once
  /\ lastMessageId again = lastMessageId once.
Proof.
  intros Huniq Hinit Hups once again.
  assert (Hcursor : lastMessageId again = lastMessageId once).
  { unfold again, mergeUpdates. rewrite mergeFold_cursor.
    cbn [lastProcessedMessageId].
    unfold once, mergeUpdates. rewrite mergeFold_cursor.
    destruct (last (validUpdates updates)); reflexivity. }
  split; [|exact Hcursor].
  set (st0 := {| m_players := players currentState; updatedCount := 0%nat;
                 lastMessageId := lastProcessedMessageId currentState |}).
  set (st1 := {| m_players := m_players once; updatedCount := 0%nat;
                 lastMessageId := lastMessageId once |}).
  assert (Honce : m_players once = m_players (fold_left mergeStep updates st0))
    by reflexivity.
  assert (Hagain : m_players again
                   = m_players (fold_left mergeStep updates st1))
    by reflexivity.
  symmetry. apply players_ext.
  - rewrite Honce. apply mergeFold_unique. exact Huniq.
  - rewrite Hagain. symmetry. apply (mergeFold_ids_fixed updates st1).
    unfold st1. cbn [m_players]. rewrite Honce. apply mergeFold_present.
  - intros id. rewrite Hagain, stored_mergeFold. unfold st1.
    cbn [m_players].
    rewrite Honce, stored_mergeFold. symmetry.
    apply resolve_fold_idem; [|apply updatesFor_printable; exact Hups].
    unfold st0. cbn [m_players]. intros x0 Hx0.
    rewrite Forall_forall in Hinit. apply Hinit.
    apply list_elem_of_In. exact (stored_member _ _ _ Hx0).
Qed.

(** ** renderer.js and storage.js: what is posted is what is loaded *)

Lemma bracketFree_app (a b : jsstring) :
  bracketFree (a ++ b) = bracketFree a && bracketFree b.
Proof. apply forallb_app. Qed.

Lemma bracketFree_cons (c : N) (s : jsstring) :
  bracketFree (c :: s) = negb (c =? 91)%N && bracketFree s.
Proof. reflexivity. Qed.

Lemma bracketFree_join (sep : jsstring) (ls : list jsstring) :
  bracketFree sep = true ->
  Forall (fun l => bracketFree l = true) ls ->
  bracketFree (join sep ls) = true.
Proof.
  intros Hsep Hall. induction Hall as [|l ls Hl Hls IH]; [reflexivity|].
  destruct ls as [|l' ls']; [exact Hl|].
  change (join sep (l :: l' :: ls')) with (l ++ sep ++ join sep (l' :: ls')).
  rewrite !bracketFree_app, Hl, Hsep, IH. reflexivity.
Qed.

Lemma bracketFree_numeric (s : jsstring) :
  numericText s = true -> bracketFree s = true.
Proof.
  unfold numericText, bracketFree.
  induction s as [|c s IH]; [reflexivity|].
  cbn [forallb]. intros H. apply andb_prop in H as [Hc Hs].
  rewrite (IH Hs), andb_true_r.
  destruct (digit_plain c Hc) as (_ & _ & _ & Hb & _).
  apply negb_true_iff, N.eqb_neq. exact Hb.
Qed.

Lemma bracketFree_decimal (z : Z) : bracketFree (decimal z) = true.
Proof. apply bracketFree_numeric, Number_toString_numeric. Qed.

Lemma bracketFree_padStart (n : nat) (s : jsstring) :
  bracketFree s = true -> bracketFree (padStart n s) = true.
Proof.
  intros Hs. unfold padStart. rewrite bracketFree_app, Hs, andb_true_r.
  induction (n - length s)%nat as [|k IH]; [reflexivity|exact IH].
Qed.

Lemma bracketFree_isoDatePart (t : Z) : bracketFree (isoDatePart t) = true.
Proof.
  unfold isoDatePart.
  destruct (civilFromDays (t / msPerDay)) as [[y m] d].
  rewrite !bracketFree_app.
  rewrite !(bracketFree_padStart 2) by apply bracketFree_decimal.
  destruct ((0 <=? y) && (y <=? 9999)).
  - rewrite bracketFree_padStart by apply bracketFree_decimal. reflexivity.
  - rewrite (bracketFree_cons _ (padStart 6 (decimal (Z.abs y)))).
    rewrite bracketFree_padStart by apply bracketFree_decimal.
    destruct (y <? 0); reflexivity.
Qed.

Lemma bracketFree_positionDisplay (position : nat) :
  bracketFree (positionDisplay position) = true.
Proof.
  unfold positionDisplay. destruct (position <=? 3)%nat.
  - destruct position as [|[|[|[|n]]]]; reflexivity.
  - rewrite bracketFree_app, bracketFree_decimal. reflexivity.
Qed.

Lemma bracketFree_entry (position : nat) (p : Player) (showEmojis : bool)
    (entry : jsstring) :
  bracketFree (userId p) && bracketFree (currentRank p)
  && bracketFree (peakRank p)
  && bracketFree (getRankEmoji (currentRank p))
  && bracketFree (getRankEmoji (peakRank p))
  && bracketFree (toLocaleString (currentRankScore p))
  && bracketFree (toLocaleString (peakRankScore p)) = true ->
  renderPlayerEntry position p showEmojis = Some entry ->
  bracketFree entry = true.
Proof.
  intros Hp. unfold renderPlayerEntry, formatDate.
  destruct (Date_new (lastUpdated p)) as [t|]; cbn [mbind option_bind];
    [|discriminate].
  intros Hentry. apply (inj Some) in Hentry. rewrite <- Hentry.
  clear Hentry entry.
  apply andb_prop in Hp as [Hp H7]. apply andb_prop in Hp as [Hp H6].
  apply andb_prop in Hp as [Hp H5]. apply andb_prop in Hp as [Hp H4].
  apply andb_prop in Hp as [Hp H3]. apply andb_prop in Hp as [H1 H2].
  assert (He1 : bracketFree (if showEmojis then getRankEmoji (currentRank p)
                             else []) = true)
    by (destruct showEmojis; [exact H4|reflexivity]).
  assert (He2 : bracketFree (if showEmojis then getRankEmoji (peakRank p)
                             else []) = true)
    by (destruct showEmojis; [exact H5|reflexivity]).
  apply bracketFree_join; [reflexivity|].
  constructor.
  { rewrite !bracketFree_app, bracketFree_positionDisplay, H1.
    reflexivity. }
  constructor.
  { rewrite !bracketFree_app, He1, H2, H6. reflexivity. }
  constructor.
  { rewrite !bracketFree_app, He2, H3, H7. reflexivity. }
  constructor; [|constructor].
  rewrite bracketFree_app, bracketFree_isoDatePart. reflexivity.
Qed.

Lemma bracketFree_entries (showEmojis : bool) (ps : list Player) :
  forall (position : nat) (entries : list jsstring),
    Forall (fun p =>
              bracketFree (userId p) && bracketFree (currentRank p)
              && bracketFree (peakRank p)
              && bracketFree (getRankEmoji (currentRank p))
              && bracketFree (getRankEmoji (peakRank p))
              && bracketFree (toLocaleString (currentRankScore p))
              && bracketFree (toLocaleString (peakRankScore p)) = true)
      ps ->
    renderEntries showEmojis position ps = Some entries ->
    Forall (fun l => bracketFree l = true) entries.
Proof.
  induction ps as [|p ps IH]; intros position entries Hall.
  - intros [= <-]. constructor.
  - apply Forall_cons in Hall as [Hp Hall]. cbn [renderEntries].
    destruct (renderPlayerEntry position p showEmojis) as [entry|] eqn:He;
      cbn [mbind option_bind]; [|discriminate].
    destruct (renderEntries showEmojis (S position) ps) as [more|] eqn:Hm;
      cbn [mbind option_bind]; [|discriminate].
    intros [= <-].
    constructor; [exact (bracketFree_entry _ _ _ _ Hp He)|].
    constructor; [reflexivity|]. exact (IH _ _ Hall Hm).
Qed.

Lemma Forall_popIfEmpty (P : jsstring -> Prop) (l : list jsstring) :
  Forall P l -> Forall P (popIfEmpty l).
Proof.
  intros Hl. unfold popIfEmpty.
  destruct (last l) as [[|c s]|]; try exact Hl.
  clear -Hl. induction Hl as [|x l Hx Hl IH]; [constructor|].
  destruct l as [|y l']; [constructor|].
  change (removelast (x :: y :: l')) with (x :: removelast (y :: l')).
  constructor; [exact Hx|exact IH].
Qed.

Lemma renderLeaderboard_plain (gameName : jsstring) (ps : list Player)
    (cursor : option jsstring) (maxPlayers : nat) (showEmojis : bool)
    (tick : nat) (text : jsstring) :
  plainDisplay gameName ps ->
  renderLeaderboard gameName ps cursor maxPlayers showEmojis tick
  = Some text ->
  exists visible,
    text = visible ++ [Ch.LF] ++ encodeState cursor ps
    /\ bracketFree visible = true.
Proof.
  intros (Hname & Hclock & Hall). unfold renderLeaderboard. cbv zeta.
  assert (Hheader : Forall (fun l => bracketFree l = true)
                      [ Emoji.trophy ++ lit " " ++ toUpperCase gameName
                          ++ lit " LEADERBOARD"; [] ]).
  { constructor; [|constructor; [reflexivity|constructor]].
    rewrite !bracketFree_app, Hname. reflexivity. }
  match goal with
  | |- context [mbind _ ?c] =>
      assert (Hbody : forall body, c = Some body ->
                        Forall (fun l => bracketFree l = true) body);
      [|destruct c as [body|]; cbn [mbind option_bind]; [|discriminate];
        specialize (Hbody body eq_refl)]
  end.
  { intros body. destruct ps as [|p ps']; cbn [isEmpty].
    - intros Hb. apply (inj Some) in Hb. rewrite <- Hb.
      apply Forall_app. split; [exact Hheader|].
      constructor; [reflexivity|]. constructor; [reflexivity|].
      constructor; [reflexivity|constructor].
    - destruct (renderEntries showEmojis 1 (take maxPlayers (p :: ps')))
        as [entries|] eqn:He; cbn [mbind option_bind]; [|discriminate].
      intros Hb. apply (inj Some) in Hb. rewrite <- Hb.
      apply Forall_popIfEmpty. apply Forall_app. split; [exact Hheader|].
      apply (bracketFree_entries showEmojis (take maxPlayers (p :: ps')) 1);
        [apply Forall_take; exact Hall|exact He]. }
  intros Htext. apply (inj Some) in Htext. rewrite <- Htext.
  rewrite app_assoc, join_snoc.
  - eexists. split; [reflexivity|].
    apply bracketFree_join; [reflexivity|].
    apply Forall_app. split; [exact Hbody|].
    apply Forall_app. split; [constructor; [reflexivity|constructor]|].
    apply Forall_app. split.
    + destruct (negb (isEmpty ps)); [|constructor].
      apply Forall_app. split.
      * constructor; [|constructor].
        rewrite !bracketFree_app, bracketFree_decimal. reflexivity.
      * destruct (maxPlayers <? length ps)%nat; [|constructor].
        constructor; [|constructor].
        rewrite !bracketFree_app, bracketFree_decimal. reflexivity.
    + constructor; [|constructor; [reflexivity|constructor]].
      rewrite bracketFree_app, Hclock. reflexivity.
  - intros H. apply app_eq_nil in H as [_ H]. discriminate H.
Qed.

Lemma bracketFree_no_marker (visible : jsstring) :
  bracketFree visible = true ->
  ~ occurs DATA_START_MARKER visible /\ ~ occurs DATA_END_MARKER visible.
Proof.
  intros Hv. pose proof (notIn_by_test 91%N visible Hv) as Hnot.
  split; intros Hocc; apply Hnot.
  - change DATA_START_MARKER with (91%N :: lit "DATA:v1]") in Hocc.
    exact (occurs_head _ _ _ Hocc).
  - change DATA_END_MARKER with (91%N :: lit "/DATA]") in Hocc.
    exact (occurs_head _ _ _ Hocc).
Qed.

Lemma plainDisplay_take (gameName : jsstring) (ps : list Player) (k : nat) :
  plainDisplay gameName ps -> plainDisplay gameName (take k ps).
Proof.
  intros (Hname & Hclock & Hall).
  split; [exact Hname|]. split; [exact Hclock|].
  apply Forall_take. exact Hall.
Qed.

(** X25 (sync.js, step 6 of syncGame; renderer.js, renderLeaderboard;
    storage.js, decodeState).  What is posted is what the next run
    loads.  Where nothing the renderer prints for the game and its
    entities holds an opening square bracket, the text of step 6 decodes
    exactly as the encoding of its cursor and of the first k entities of
    the sorted collection does: all of them when the untruncated render
    is within 2000 characters, so entities beyond a truncation are not
    in the state that is stored. *)
Theorem renderStep_reloads (gameName : jsstring)
    (sortedPlayers : list Player) (lastMessageId : option jsstring)
    (tick : nat) (text : jsstring) :
  plainDisplay gameName sortedPlayers ->
  renderStep gameName sortedPlayers lastMessageId tick = Some text ->
  exists k,
    decodeState text
    = decodeState (encodeState lastMessageId (take k sortedPlayers))
    /\ ((length text <= 2000)%nat \/ k = 3%nat)
    /\ ((k < length sortedPlayers)%nat ->
        forall baseline,
          renderLeaderboard gameName sortedPlayers lastMessageId 50 true tick
          = Some baseline ->
          (2000 < length baseline)%nat).
Proof.
  intros Hplain Hstep.
  destruct (renderStep_renders _ _ _ _ _ Hstep)
    as (k & mp & tk & Hr & Hlen & Hb).
  exists k. split; [|split; [exact Hlen|exact Hb]].
  destruct (renderLeaderboard_plain _ _ _ _ _ _ _
              (plainDisplay_take gameName sortedPlayers k Hplain) Hr)
    as (visible & -> & Hv).
  destruct (bracketFree_no_marker visible Hv) as [Hs He].
  destruct (encodeState_markers lastMessageId (take k sortedPlayers))
    as [Hms Hme].
  rewrite <- (decodeState_section visible
                (encodeState lastMessageId (take k sortedPlayers)) []
                Hs He Hms Hme).
  rewrite app_nil_r. reflexivity.
Qed.

(** ** sync.js: the order of the messages does not matter *)

Lemma resolve_fold_member (l : list Player) :
  forall (x : option Player) (e : Player),
    fold_left resolve l x = Some e -> x = Some e \/ In e l.
Proof.
  induction l as [|u l IH]; intros x e Hfold; [left; exact Hfold|].
  cbn [fold_left] in Hfold. destruct (IH _ _ Hfold) as [Hr|Hin].
  - destruct x as [x0|]; cbn [resolve] in Hr.
    + destruct (Date_ltb _ _); injection Hr as <-;
        [left; reflexivity|right; left; reflexivity].
    + injection Hr as <-. right. left. reflexivity.
  - right. right. exact Hin.
Qed.

Lemma resolve_fold_some (l : list Player) :
  forall x : option Player,
    (is_Some x \/ l <> []) -> is_Some (fold_left resolve l x).
Proof.
  induction l as [|u l IH]; intros x Hx.
  - destruct Hx as [Hx|Hx]; [exact Hx|destruct (Hx eq_refl)].
  - cbn [fold_left]. apply IH. left.
    destruct x as [x0|]; cbn [resolve]; [|eexists; reflexivity].
    destruct (Date_ltb _ _); eexists; reflexivity.
Qed.

Lemma resolve_fold_perm (l l' : list Player) (x : option Player) :
  Permutation l l' ->
  (forall x0, x = Some x0 -> printableDate x0) ->
  Forall printableDate l ->
  (forall a b, (x = Some a \/ In a l) -> (x = Some b \/ In b l) ->
               ~ olderThan a b -> ~ olderThan b a ->
               standing a = standing b) ->
  standing <$> fold_left resolve l x = standing <$> fold_left resolve l' x.
Proof.
  intros Hperm Hx Hl Hdistinct.
  assert (Hl' : Forall printableDate l').
  { rewrite Forall_forall in Hl |- *. intros p Hp. apply Hl.
    apply list_elem_of_In. apply list_elem_of_In in Hp.
    exact (Permutation_in _ (Permutation_sym Hperm) Hp). }
  destruct (fold_left resolve l x) as [e|] eqn:He.
  - destruct (fold_left resolve l' x) as [e'|] eqn:He'.
    + cbn [fmap option_fmap option_map]. f_equal.
      destruct (resolve_fold_ge l x e Hx Hl He) as (_ & Hgx & Hgl).
      destruct (resolve_fold_ge l' x e' Hx Hl' He') as (_ & Hgx' & Hgl').
      rewrite List.Forall_forall in Hgl, Hgl'.
      pose proof (resolve_fold_member l x e He) as Hm.
      pose proof (resolve_fold_member l' x e' He') as Hm'.
      assert (Hm'l : x = Some e' \/ In e' l).
      { destruct Hm' as [H|H]; [left; exact H|right].
        exact (Permutation_in _ (Permutation_sym Hperm) H). }
      apply (Hdistinct e e' Hm Hm'l).
      * destruct Hm'l as [H|H]; [exact (Hgx e' H)|exact (Hgl e' H)].
      * destruct Hm as [H|H]; [exact (Hgx' e H)|].
        apply Hgl'. exact (Permutation_in _ Hperm H).
    + exfalso.
      assert (Hs : is_Some (fold_left resolve l' x)).
      { apply resolve_fold_some.
        destruct (resolve_fold_member l x e He) as [H|H].
        - left. rewrite H. eexists; reflexivity.
        - right. intros E. rewrite E in Hperm.
          apply Permutation_sym, Permutation_nil in Hperm.
          rewrite Hperm in H. destruct H. }
      rewrite He' in Hs. destruct Hs as [? Hs]. discriminate Hs.
  - destruct (fold_left resolve l' x) as [e'|] eqn:He'; [|reflexivity].
    exfalso.
    assert (Hs : is_Some (fold_left resolve l x)).
    { apply resolve_fold_some.
      destruct (resolve_fold_member l' x e' He') as [H|H].
      - left. rewrite H. eexists; reflexivity.
      - right. intros E. rewrite E in Hperm.
        apply Permutation_nil in Hperm. rewrite Hperm in H. destruct H. }
    rewrite He in Hs. destruct Hs as [? Hs]. discriminate Hs.
Qed.

Lemma updatesFor_perm (id : jsstring) (updates updates' : list Successful) :
  Permutation updates updates' ->
  Permutation (updatesFor id updates) (updatesFor id updates').
Proof.
  intros Hperm. unfold updatesFor, validUpdates.
  apply Permutation_map.
  induction Hperm as [|u l l' _ IH|u v l|l l' l'' _ IH1 _ IH2].
  - constructor.
  - cbn [List.filter]. destruct (validatePlayerData _); [|exact IH].
    cbn [List.filter]. destruct (bool_decide _); [|exact IH].
    constructor. exact IH.
  - cbn [List.filter].
    destruct (validatePlayerData (playerDataOf u)),
      (validatePlayerData (playerDataOf v)); cbn [List.filter];
      try reflexivity.
    + destruct (bool_decide (u_userId (data u) = id)),
        (bool_decide (u_userId (data v) = id)); try reflexivity.
      constructor.
  - etransitivity; [exact IH1|exact IH2].
Qed.

(** With the names that one lookup answers, the entity found under an
    id is, up to its display name, the same for every order of the
    updates. *)
Lemma mergeUpdates_order_same (currentState : State)
    (updates updates' : list Successful) (id : jsstring) :
  Permutation updates updates' ->
  (forall e0, stored id (players currentState) = Some e0 ->
              printableDate e0) ->
  Forall printableDate (updatesFor id updates) ->
  (forall a b,
      (stored id (players currentState) = Some a
       \/ In a (updatesFor id updates)) ->
      (stored id (players currentState) = Some b
       \/ In b (updatesFor id updates)) ->
      ~ olderThan a b -> ~ olderThan b a -> standing a = standing b) ->
  standing <$> stored id (m_players (mergeUpdates currentState updates))
  = standing <$> stored id (m_players (mergeUpdates currentState updates')).
Proof.
  intros Hperm Hinit Hups Hdistinct.
  unfold mergeUpdates. rewrite !stored_mergeFold. cbn [m_players].
  apply resolve_fold_perm;
    [apply updatesFor_perm; exact Hperm|exact Hinit|exact Hups
    |exact Hdistinct].
Qed.

(** ** storage.js: an upsert does not look at the display names *)

Lemma standing_userId (a b : Player) :
  standing a = standing b -> userId a = userId b.
Proof. unfold standing. intros H. congruence. Qed.

Lemma standing_lastUpdated (a b : Player) :
  standing a = standing b -> lastUpdated a = lastUpdated b.
Proof. unfold standing. intros H. congruence. Qed.

Lemma find_standing (id : jsstring) (ps : list Player) :
  forall ps' : list Player,
    standing <$> ps = standing <$> ps' ->
    match list_find (fun p => userId p = id) ps,
          list_find (fun p => userId p = id) ps' with
    | Some (i, e), Some (i', e') => i = i' /\ standing e = standing e'
    | None, None => True
    | _, _ => False
    end.
Proof.
  induction ps as [|x ps IH]; intros [|y ps'] Heq; try discriminate Heq.
  - exact I.
  - pose proof (f_equal (hd (standing x)) Heq) as Hxy.
    pose proof (f_equal (@tl _) Heq) as Hrest.
    cbn [fmap list_fmap hd tl] in Hxy, Hrest.
    pose proof (standing_userId x y Hxy) as Hid.
    specialize (IH ps' Hrest). simpl. rewrite <- Hid.
    destruct (decide (userId x = id)).
    + split; [reflexivity|exact Hxy].
    + destruct (list_find (fun p => userId p = id) ps) as [[i e]|],
        (list_find (fun p => userId p = id) ps') as [[i' e']|];
        simpl; try exact IH.
      destruct IH as [-> He]. split; [reflexivity|exact He].
Qed.

Lemma stored_standing (id : jsstring) (ps ps' : list Player) :
  standing <$> ps = standing <$> ps' ->
  standing <$> stored id ps = standing <$> stored id ps'.
Proof.
  intros Heq. pose proof (find_standing id ps ps' Heq) as Hf.
  unfold stored.
  destruct (list_find (fun p => userId p = id) ps) as [[i e]|],
    (list_find (fun p => userId p = id) ps') as [[i' e']|].
  - destruct Hf as [_ He].
    cbn [fmap option_fmap option_map snd]. f_equal. exact He.
  - destruct Hf.
  - destruct Hf.
  - reflexivity.
Qed.

Lemma upsertPlayer_standing (ps ps' : list Player) (u u' : Player) :
  standing <$> ps = standing <$> ps' -> standing u = standing u' ->
  standing <$> upsert_players (upsertPlayer ps u)
  = standing <$> upsert_players (upsertPlayer ps' u')
  /\ updated (upsertPlayer ps u) = updated (upsertPlayer ps' u').
Proof.
  intros Heq Hu. pose proof (find_standing (userId u) ps ps' Heq) as Hf.
  unfold upsertPlayer.
  rewrite <- (standing_userId u u' Hu), <- (standing_lastUpdated u u' Hu).
  destruct (list_find (fun p => userId p = userId u) ps) as [[i e]|],
    (list_find (fun p => userId p = userId u) ps') as [[i' e']|].
  - destruct Hf as [<- He].
    rewrite <- (standing_lastUpdated e e' He).
    destruct (Date_ltb _ _); cbn [upsert_players updated];
      [split; [exact Heq|reflexivity]|].
    rewrite !list_fmap_insert, Heq, Hu. split; reflexivity.
  - destruct Hf.
  - destruct Hf.
  - cbn [upsert_players updated]. rewrite !fmap_app, Heq.
    cbn [fmap list_fmap]. rewrite Hu. split; reflexivity.
Qed.

End Engine.

(** ** sync.js: the names that the lookup answers do not bear on the merge

    The loop awaits [resolveUsername] for every update, and the server
    may answer another name, or the fallback name, at another time.
    Two passes are therefore taken with a lookup each; within a pass a
    lookup answers one name for an id. *)

Section Lookups.

Set Default Proof Using "Type".

Variable Date_parse_legacy : jsstring -> option Z.
Variables resolveUsername resolveUsername' : jsstring -> jsstring.

Lemma mergeFold_lookup (updates : list Successful) :
  forall st st' : MergeState,
    standing <$> m_players st = standing <$> m_players st' ->
    lastMessageId st = lastMessageId st' ->
    let after :=
      fold_left (mergeStep Date_parse_legacy resolveUsername) updates st in
    let after' :=
      fold_left (mergeStep Date_parse_legacy resolveUsername') updates st' in
    standing <$> m_players after = standing <$> m_players after'
    /\ lastMessageId after = lastMessageId after'.
Proof.
  induction updates as [|u us IH]; intros st st' Hps Hcur; cbv zeta.
  - split; [exact Hps|exact Hcur].
  - cbn [fold_left]. apply IH.
    + unfold mergeStep.
      change (validatePlayerData (playerDataOf resolveUsername' u))
        with (validatePlayerData (playerDataOf resolveUsername u)).
      destruct (validatePlayerData (playerDataOf resolveUsername u));
        cbn [negb m_players]; [|exact Hps].
      apply (upsertPlayer_standing Date_parse_legacy); [exact Hps|].
      reflexivity.
    + unfold mergeStep.
      change (validatePlayerData (playerDataOf resolveUsername' u))
        with (validatePlayerData (playerDataOf resolveUsername u)).
      destruct (validatePlayerData (playerDataOf resolveUsername u));
        cbn [negb lastMessageId]; [reflexivity|exact Hcur].
Qed.

(** X24 (sync.js, merge loop of syncGame).  Processing a batch again
    changes nothing but, possibly, display names.  On a collection with
    one entity per id, where the engine can read the dates of the
    loaded entities and of the valid updates, merging the same updates
    into the result of their merge gives the same entities in the same
    places, equal in every field other than the display name, and the
    same cursor, whatever names the lookup answers during the second
    pass. *)
Theorem mergeUpdates_again (currentState : State)
    (updates : list Successful) :
  uniqueIds (players currentState) ->
  Forall (printableDate Date_parse_legacy) (players currentState) ->
  Forall (fun u => printableDate Date_parse_legacy
                     (playerDataOf resolveUsername u))
    (validUpdates resolveUsername updates) ->
  let once :=
    mergeUpdates Date_parse_legacy resolveUsername currentState updates in
  let again :=
    mergeUpdates Date_parse_legacy resolveUsername'
      {| lastProcessedMessageId := lastMessageId once;
         players := m_players once |} updates in
  List.map standing (m_players again) = List.map standing (m_players once)
  /\ lastMessageId again = lastMessageId once.
Proof.
  intros Huniq Hinit Hups once again.
  destruct (mergeUpdates_again_same Date_parse_legacy resolveUsername
              currentState updates Huniq Hinit Hups) as [Hps Hcur].
  fold once in Hps, Hcur.
  destruct (mergeFold_lookup updates
              {| m_players := m_players once; updatedCount := 0%nat;
                 lastMessageId := lastMessageId once |}
              {| m_players := m_players once; updatedCount := 0%nat;
                 lastMessageId := lastMessageId once |}
              eq_refl eq_refl) as [Hps' Hcur'].
  unfold again, mergeUpdates. cbn [players lastProcessedMessageId].
  split.
  - etransitivity; [symmetry; exact Hps'|].
    exact (f_equal (List.map standing) Hps).
  - etransitivity; [symmetry; exact Hcur'|exact Hcur].
Qed.

(** X26 (sync.js, merge loop of syncGame; storage.js, upsertPlayer).
    The order of the messages does not matter.  Where the engine can
    read the dates and no two of the entities in question (the loaded
    entity of an id and the valid updates naming it) share a date
    without being equal in every field other than the display name,
    the entity found under the id after the merge is, up to its display
    name, the same for every order of the updates, whatever names the
    lookup answers in either run. *)
Theorem mergeUpdates_order (currentState : State)
    (updates updates' : list Successful) (id : jsstring) :
  Permutation updates updates' ->
  (forall e0, stored id (players currentState) = Some e0 ->
              printableDate Date_parse_legacy e0) ->
  Forall (printableDate Date_parse_legacy)
    (updatesFor resolveUsername id updates) ->
  (forall a b,
      (stored id (players currentState) = Some a
       \/ In a (updatesFor resolveUsername id updates)) ->
      (stored id (players currentState) = Some b
       \/ In b (updatesFor resolveUsername id updates)) ->
      ~ olderThan Date_parse_legacy a b ->
      ~ olderThan Date_parse_legacy b a ->
      standing a = standing b) ->
  standing
    <$> stored id
          (m_players
             (mergeUpdates Date_parse_legacy resolveUsername
                currentState updates))
  = standing
      <$> stored id
            (m_players
               (mergeUpdates Date_parse_legacy resolveUsername'
                  currentState updates')).
Proof.
  intros Hperm Hinit Hups Hdistinct.
  rewrite (mergeUpdates_order_same Date_parse_legacy resolveUsername
             currentState updates updates' id Hperm Hinit Hups Hdistinct).
  apply stored_standing. unfold mergeUpdates.
  exact (proj1 (mergeFold_lookup updates' _ _ eq_refl eq_refl)).
Qed.

End Lookups.

(** ** The program on the examples of the specification *)

(** An update line with a mention parses. *)
Example parse_update_line :
  option_map
    (fun u => (u_userId u, u_currentRank u, u_currentRankScore u,
               u_peakRank u, u_peakRankScore u, u_lastUpdated u))
    (parseLeaderboardUpdate Node.Date_parse_legacy
       (lit "LB_UPDATE: <@!42> Diamond 2450 Master 2610 2026-02-14"))
  = Some (lit "42", lit "Diamond", Int 2450, lit "Master", Int 2610,
          lit "2026-02-14").
Proof. vm_compute. reflexivity. Qed.

(** A negative score is rejected, and the message counts as failed, not
    as skipped. *)
Example parse_negative_score :
  let m := {| msg_id := lit "7";
              msg_content :=
                lit "LB_UPDATE: <@42> Diamond -5 Master 2610 2026-02-14";
              msg_createdTimestamp := 0; msg_author := lit "op" |} in
  parseLeaderboardUpdate Node.Date_parse_legacy (msg_content m) = None
  /\ (let r := parseMultipleUpdates Node.Date_parse_legacy [m] in
      (length (successful r), length (failed r), skipped r)
      = (0%nat, 1%nat, 0%nat)).
Proof. vm_compute. split; reflexivity. Qed.

(** A day past the end of its month runs over, as the engine reads it,
    and the parser hands on the canonical date. *)
Example parse_date_overflow :
  option_map u_lastUpdated
    (parseLeaderboardUpdate Node.Date_parse_legacy
       (lit "LB_UPDATE: <@42> Diamond 2450 Master 2610 2026-02-30"))
  = Some (lit "2026-03-02").
Proof. vm_compute. reflexivity. Qed.

(** The data section of the README decodes. *)
Example decode_readme_section :
  let text :=
    join [Ch.LF]
      [ lit "Updated: 2026-02-14 18:00 UTC"; [];
        lit "[DATA:v1]"; lit "LAST:1234567890";
        lit "123456789|Turbo|Diamond|2450|Master|2610|2026-02-14";
        lit "987654321|Alpha|Platinum|1980|Diamond|2100|2026-02-13";
        lit "[/DATA]" ] in
  lastProcessedMessageId (decodeState text) = Some (lit "1234567890")
  /\ List.map (fun p => (userId p, currentRankScore p, lastUpdated p))
       (players (decodeState text))
     = [ (lit "123456789", Int 2450, lit "2026-02-14");
         (lit "987654321", Int 1980, lit "2026-02-13") ].
Proof. vm_compute. split; reflexivity. Qed.

(** ** The theorems at concrete inputs *)

Lemma decodeState_uninitialized_witness :
  decodeState (lit "leaderboard [DATA:v1] LAST:100")
  = {| lastProcessedMessageId := None; players := [] |}.
Proof.
  apply decodeState_uninitialized. right.
  apply indexOf_absent. vm_compute. reflexivity.
Defined.

Lemma upsertPlayer_existing_witness :
  upsertPlayer Node.Date_parse_legacy [Sample.turbo] Sample.turbo_old
  = {| upsert_players := [Sample.turbo]; updated := false |}.
Proof.
  apply (proj1 (upsertPlayer_existing Node.Date_parse_legacy
                  [Sample.turbo] Sample.turbo_old 0 Sample.turbo
                  (2026, 2, 10) (2026, 2, 14)
                  ltac:(vm_compute; reflexivity)
                  ltac:(vm_compute; reflexivity)
                  ltac:(vm_compute; reflexivity))).
  vm_compute. reflexivity.
Defined.

(** C3 as the specification words it fails: the second application of an
    update reports [updated] again, not stale. *)
Lemma upsertPlayer_twice_counterexample :
  let once := upsertPlayer Node.Date_parse_legacy [] Sample.turbo in
  let twice :=
    upsertPlayer Node.Date_parse_legacy (upsert_players once) Sample.turbo in
  ~ (upsert_players twice = upsert_players once
     /\ updated once = true /\ updated twice = false).
Proof. vm_compute. intros (_ & _ & H). discriminate H. Qed.



(** C5 as the specification words it fails: decoding lets an entity with a
    negative score, a NaN score and a malformed date into the collection,
    and two entities with one id. *)
Lemma decodeState_unvalidated_counterexample :
  let ps := players (decodeState Sample.looseContainer) in
  List.map satisfiesInvariants ps = [false; true]
  /\ List.map currentRankScore ps = [Int (-5); Int 10]
  /\ List.map peakRankScore ps = [NaN; Int 20]
  /\ ~ uniqueIds ps.
Proof.
  vm_compute. repeat split.
  intros H. apply NoDup_cons in H as [Hnotin _]. apply Hnotin. constructor.
Qed.

Lemma merge_invariants_witness :
  uniqueIds
    (m_players
       (mergeUpdates Node.Date_parse_legacy Node.resolveUsername
          Sample.seeded
          (successful
             (parseMultipleUpdates Node.Date_parse_legacy
                [Sample.updateMessage])))).
Proof.
  apply (proj2 (merge_invariants Node.Date_parse_legacy Node.resolveUsername
                  Sample.seeded [Sample.updateMessage]
                  ltac:(apply Forall_cons_2; [|apply Forall_nil_2];
                        intros u Hu; vm_compute in Hu;
                        injection Hu as <-; split; reflexivity))).
  vm_compute. repeat constructor. intros H. inversion H.
Defined.

Lemma sortPlayers_ranking_witness :
  Permutation [Sample.turbo; Sample.alpha; Sample.bravo]
    (sortPlayers Node.Date_parse_legacy
       [Sample.turbo; Sample.alpha; Sample.bravo]).
Proof.
  apply (proj2 (proj2 (sortPlayers_ranking Node.Date_parse_legacy))).
  repeat constructor; vm_compute; eauto.
Defined.

(** C8 as the specification words it fails: one entity too long to fit is
    rendered again by the floor, over 2000 characters, and reported as
    three shown. *)
Lemma truncateIfNeeded_floor_counterexample :
  let render :=
    renderLeaderboard Node.Date_parse_legacy Node.toUpperCase
      Node.toLowerCase Node.toLocaleString Node.getCurrentTimestamp in
  let degrade :=
    truncateIfNeeded Node.Date_parse_legacy Node.toUpperCase
      Node.toLowerCase Node.toLocaleString Node.getCurrentTimestamp in
  option_map (fun r => (2000 <? length r)%nat)
    (render (lit "valorant") [Sample.verbose] None 50%nat true 0%nat)
  = Some true
  /\ option_map
       (fun t => ((length (content t) <=? 2000)%nat, shownCount t))
       (degrade (lit "valorant") [Sample.verbose] None 1900%nat 0%nat)
     = Some (false, Some 3%nat)
  /\ length [Sample.verbose] = 1%nat.
Proof. vm_compute. repeat split. Qed.

Lemma truncateIfNeeded_degrades_witness :
  exists t,
    truncateIfNeeded Node.Date_parse_legacy Node.toUpperCase
      Node.toLowerCase Node.toLocaleString Node.getCurrentTimestamp
      (lit "valorant") (repeat Sample.turbo 30) None 1900 0 = Some t
    /\ truncated t = true
    /\ degradedTo Node.Date_parse_legacy Node.toUpperCase
         Node.toLowerCase Node.toLocaleString Node.getCurrentTimestamp
         (lit "valorant") (repeat Sample.turbo 30) None 1900 1 t.
Proof.
  apply truncateIfNeeded_degrades.
  - apply Forall_forall. intros p Hp.
    apply list_elem_of_In, repeat_spec in Hp. subst p.
    vm_compute. eauto.
  - intros rendered H. apply Nat.ltb_lt.
    apply (f_equal (option_map (fun r => (2000 <? length r)%nat))) in H.
    vm_compute in H. injection H as H. symmetry. exact H.
Defined.

(** C6. The sanitizer lets the pipe through: the tier label of a parsed
    update still holds the delimiter, its encoded line has eight fields,
    and decoding that line reads every later field one place off. *)
Theorem sanitizeInput_keeps_pipe :
  sanitizeInput (lit "Dia|mond") = lit "Dia|mond"
  /\ In Ch.PIPE (sanitizeInput (lit "Dia|mond"))
  /\ option_map u_currentRank
       (parseLeaderboardUpdate Node.Date_parse_legacy Sample.pipeMessage)
     = Some (lit "Dia|mond")
  /\ length (splitOn Ch.PIPE (encodePlayer Sample.pipePlayer)) = 8%nat
  /\ List.map
       (fun p => (currentRank p, currentRankScore p, peakRank p,
                  peakRankScore p, lastUpdated p))
       (players (decodeState (encodeState None [Sample.pipePlayer])))
     = [(lit "Dia", NaN, lit "2450", NaN, lit "2610")].
Proof.
  split; [vm_compute; reflexivity|].
  split; [vm_compute; do 3 right; left; reflexivity|].
  split; [vm_compute; reflexivity|].
  split; vm_compute; reflexivity.
Qed.

(** C1 as the specification words it fails: an entity that meets the
    invariants of the data model but has no display name comes back named
    Unknown. *)
Lemma decode_encode_counterexample :
  uniqueIds [Sample.nameless]
  /\ satisfiesInvariants Sample.nameless = true
  /\ ~ Permutation [Sample.nameless]
        (players
           (decodeState (encodeState (Some (lit "100")) [Sample.nameless]))).
Proof.
  split; [apply NoDup_singleton|]. split; [reflexivity|].
  vm_compute. intros H. apply Permutation_length_1 in H. discriminate H.
Qed.

Lemma decode_encode_roundtrip_witness :
  decodeState
    (encodeState (Some (lit "100"))
       [Sample.turbo; Sample.alpha; Sample.bravo])
  = {| lastProcessedMessageId := Some (lit "100");
       players := [Sample.turbo; Sample.alpha; Sample.bravo] |}.
Proof.
  apply decode_encode_roundtrip.
  - vm_compute. reflexivity.
  - repeat (apply Forall_cons_2; [vm_compute; reflexivity|]).
    apply Forall_nil_2.
Defined.

(** ** Further properties at concrete inputs *)

Lemma parseLeaderboardUpdate_wellformed_witness :
  exists u,
    parseLeaderboardUpdate Node.Date_parse_legacy
      (msg_content Sample.updateMessage) = Some u
    /\ digitRun (u_userId u)
    /\ tierLabel (u_currentRank u)
    /\ tierLabel (u_peakRank u).
Proof.
  eexists. split; [vm_compute; reflexivity|].
  match goal with
  | |- digitRun (u_userId ?u) /\ _ =>
      pose proof (parseLeaderboardUpdate_wellformed Node.Date_parse_legacy
                    (msg_content Sample.updateMessage) u
                    ltac:(vm_compute; reflexivity))
        as (_ & Hid & _ & _ & Hcr & Hpr)
  end.
  split; [exact Hid|]. split; [exact Hcr|exact Hpr].
Defined.

Lemma sortPlayers_idempotent_witness :
  sortPlayers Node.Date_parse_legacy
    (sortPlayers Node.Date_parse_legacy
       [Sample.turbo; Sample.alpha; Sample.bravo])
  = sortPlayers Node.Date_parse_legacy
      [Sample.turbo; Sample.alpha; Sample.bravo].
Proof.
  apply (proj2 (sortPlayers_idempotent Node.Date_parse_legacy
                  [Sample.turbo; Sample.alpha; Sample.bravo]
                  ltac:(repeat constructor; vm_compute; eauto))).
Defined.

Lemma sortPlayers_stable_witness :
  List.filter (hasKey (2450, 2610, (2026, 2, 14)))
    (sortPlayers Node.Date_parse_legacy
       [Sample.turbo; Sample.alpha; Sample.turbo; Sample.bravo])
  = List.filter (hasKey (2450, 2610, (2026, 2, 14)))
      [Sample.turbo; Sample.alpha; Sample.turbo; Sample.bravo].
Proof.
  apply sortPlayers_stable. repeat constructor; vm_compute; eauto.
Defined.

Lemma decodeState_frame_witness :
  decodeState
    (lit "VALORANT LEADERBOARD" ++ [Ch.LF]
     ++ encodeState (Some (lit "100")) [Sample.turbo])
  = decodeState (encodeState (Some (lit "100")) [Sample.turbo]).
Proof.
  apply (proj2 (decodeState_frame (lit "VALORANT LEADERBOARD")
                  ltac:(apply indexOf_absent; vm_compute; reflexivity)
                  ltac:(apply indexOf_absent; vm_compute; reflexivity))).
Defined.

Lemma truncateIfNeeded_persists_witness :
  exists t,
    truncateIfNeeded Node.Date_parse_legacy Node.toUpperCase
      Node.toLowerCase Node.toLocaleString Node.getCurrentTimestamp
      (lit "valorant") [Sample.turbo; Sample.alpha] (Some (lit "100"))
      1900 0 = Some t
    /\ carriesData (content t) (Some (lit "100"))
         [Sample.turbo; Sample.alpha].
Proof.
  eexists. split; [vm_compute; reflexivity|].
  match goal with
  | |- carriesData (content ?t) _ _ =>
      destruct (truncateIfNeeded_persists Node.Date_parse_legacy
                  Node.toUpperCase Node.toLowerCase Node.toLocaleString
                  Node.getCurrentTimestamp (lit "valorant")
                  [Sample.turbo; Sample.alpha] (Some (lit "100")) 1900 0 t
                  ltac:(vm_compute; reflexivity))
        as [(_ & _ & Hdata & _)|(Htr & _)]
  end.
  - exact Hdata.
  - vm_compute in Htr. discriminate Htr.
Defined.

Lemma renderStep_posts_witness :
  exists text k,
    renderStep Node.Date_parse_legacy Node.toUpperCase Node.toLowerCase
      Node.toLocaleString Node.getCurrentTimestamp
      (lit "valorant") [Sample.turbo] None 0 = Some text
    /\ carriesData text None (take k [Sample.turbo])
    /\ ((length text <= 2000)%nat \/ k = 3%nat).
Proof.
  eexists.
  match goal with
  | |- exists k, ?r = Some ?text /\ _ =>
      assert (Hr : r = Some text) by (vm_compute; reflexivity);
      destruct (renderStep_posts Node.Date_parse_legacy Node.toUpperCase
                  Node.toLowerCase Node.toLocaleString
                  Node.getCurrentTimestamp (lit "valorant") [Sample.turbo]
                  None 0%nat text Hr) as (k & Hdata & Hlen & _)
  end.
  exists k. split; [exact Hr|]. split; [exact Hdata|exact Hlen].
Defined.

Lemma syncGame_report_witness :
  exists out,
    syncGame Node.Date_parse_legacy Node.resolveUsername Node.toUpperCase
      Node.toLowerCase Node.toLocaleString Node.getCurrentTimestamp
      Sample.channel (lit "valorant") None (Int 100) 0 = Some out
    /\ (r_updated (report out) + r_failed (report out)
        + r_skipped (report out) <= processed (report out))%nat.
Proof.
  eexists.
  match goal with
  | |- ?r = Some ?out /\ _ =>
      assert (Hr : r = Some out) by (vm_compute; reflexivity);
      destruct (syncGame_report Node.Date_parse_legacy Node.resolveUsername
                  Node.toUpperCase Node.toLowerCase Node.toLocaleString
                  Node.getCurrentTimestamp Sample.channel (lit "valorant")
                  None (Int 100) 0%nat out Hr) as (_ & _ & Hsum & _)
  end.
  split; [exact Hr|exact Hsum].
Defined.

Lemma syncGame_posts_witness :
  exists out text messages k,
    syncGame Node.Date_parse_legacy Node.resolveUsername Node.toUpperCase
      Node.toLowerCase Node.toLocaleString Node.getCurrentTimestamp
      Sample.channel (lit "valorant") None (Int 100) 0 = Some out
    /\ posted out = Some text
    /\ fetchMessages Sample.channel
         (lastProcessedMessageId (loadedState None)) (Int 100)
       = Some messages
    /\ ((length text <= 2000)%nat \/ k = 3%nat).
Proof.
  eexists. eexists.
  match goal with
  | |- exists messages k, ?r = Some ?out /\ ?p = Some ?text /\ _ =>
      assert (Hr : r = Some out) by (vm_compute; reflexivity);
      assert (Hp : p = Some text) by (vm_compute; reflexivity);
      destruct (syncGame_posts Node.Date_parse_legacy Node.resolveUsername
                  Node.toUpperCase Node.toLowerCase Node.toLocaleString
                  Node.getCurrentTimestamp Sample.channel (lit "valorant")
                  None (Int 100) 0%nat out text Hr Hp)
        as (messages & k & Hfetch & H)
  end.
  cbv zeta in H. destruct H as (_ & Hlen & _).
  exists messages, k.
  split; [exact Hr|]. split; [exact Hp|]. split; [exact Hfetch|exact Hlen].
Defined.

Lemma decodePlayerData_skips_witness :
  decodePlayerData
    (join [Ch.LF]
       (List.map encodePlayer [Sample.turbo] ++ [lit "7|Ann|Gold"]
        ++ List.map encodePlayer [Sample.alpha]))
  = [Sample.turbo] ++ [Sample.alpha].
Proof.
  apply decodePlayerData_skips.
  - discriminate.
  - discriminate.
  - apply Forall_cons_2; [vm_compute; reflexivity|apply Forall_nil_2].
  - apply Forall_cons_2; [vm_compute; reflexivity|apply Forall_nil_2].
  - apply Forall_cons_2; [|apply Forall_nil_2].
    split; [apply notIn_by_test; reflexivity|vm_compute; lia].
Defined.

Lemma parseDate_calendar_witness :
  parseDate Node.Date_parse_legacy (lit "2026-02-14")
  = Some (lit "2026-02-14")
  /\ formatDate Node.Date_parse_legacy (lit "2026-02-14")
     = Some (lit "2026-02-14").
Proof.
  apply (parseDate_calendar Node.Date_parse_legacy (lit "2026-02-14")
           (2026, 2, 14)).
  vm_compute. reflexivity.
Defined.

Lemma parseLeaderboardUpdate_accepts_witness :
  parseLeaderboardUpdate Node.Date_parse_legacy
    (updateLine true (lit "42") (lit "Diamond") (decimal 2450 ++ lit "pts")
       (lit "Master") (decimal 2610 ++ []) (lit "2026-02-14"))
  = Some {| u_userId := lit "42";
            u_currentRank := lit "Diamond";
            u_currentRankScore := Int 2450;
            u_peakRank := lit "Master";
            u_peakRankScore := Int 2610;
            u_lastUpdated := lit "2026-02-14";
            u_rawMention := mentionText true (lit "42") |}.
Proof.
  apply (parseLeaderboardUpdate_accepts Node.Date_parse_legacy true
           (lit "42") (lit "Diamond") (lit "Master") (lit "2026-02-14")
           2450 2610 (lit "pts") [] (2026, 2, 14)).
  - split; [discriminate|reflexivity].
  - split; [discriminate|]. split; [vm_compute; lia|].
    repeat (apply Forall_cons_2; [split; reflexivity|]). apply Forall_nil_2.
  - split; [discriminate|]. split; [vm_compute; lia|].
    repeat (apply Forall_cons_2; [split; reflexivity|]). apply Forall_nil_2.
  - unfold MAX_SAFE_INTEGER. lia.
  - unfold MAX_SAFE_INTEGER. lia.
  - split.
    + repeat (apply Forall_cons_2; [reflexivity|]). apply Forall_nil_2.
    + intros c r [= <- _]. reflexivity.
  - split; [apply Forall_nil_2|]. intros c r H. discriminate H.
  - vm_compute. reflexivity.
Defined.

Lemma parseDate_normalises_witness :
  exists s' c,
    parseDate Node.Date_parse_legacy (lit "2026-02-30") = Some s'
    /\ calendarDate s' = Some c
    /\ Date_new Node.Date_parse_legacy s'
       = Some (daysFromCivil 2026 2 30 * msPerDay).
Proof.
  apply (parseDate_normalises Node.Date_parse_legacy (lit "2026-02-30")).
  vm_compute. reflexivity.
Defined.

Lemma parsed_updates_valid_witness :
  validUpdates Node.resolveUsername
    (successful
       (parseMultipleUpdates Node.Date_parse_legacy [Sample.updateMessage]))
  = successful
      (parseMultipleUpdates Node.Date_parse_legacy [Sample.updateMessage]).
Proof.
  pose proof (parsed_updates_valid Node.Date_parse_legacy
                Node.resolveUsername Sample.seeded [Sample.updateMessage]
                (fun s _ _ => eq_refl)) as H.
  cbv zeta in H. exact (proj1 H).
Defined.

Lemma mergeUpdates_newest_witness :
  exists e,
    stored (lit "2")
      (m_players
         (mergeUpdates Node.Date_parse_legacy Node.resolveUsername
            Sample.seeded
            (successful
               (parseMultipleUpdates Node.Date_parse_legacy
                  [Sample.updateMessage])))) = Some e
    /\ userId e = lit "2".
Proof.
  eexists.
  match goal with
  | |- ?s = Some ?e /\ _ =>
      assert (Hs : s = Some e) by (vm_compute; reflexivity);
      pose proof (mergeUpdates_newest Node.Date_parse_legacy
                    Node.resolveUsername Sample.seeded
                    (successful
                       (parseMultipleUpdates Node.Date_parse_legacy
                          [Sample.updateMessage]))
                    (lit "2") e) as H
  end.
  split; [exact Hs|]. apply H; [| |exact Hs].
  - intros e0 H0. vm_compute in H0. discriminate H0.
  - match goal with
    | |- Forall _ ?l =>
        let v := eval vm_compute in l in change l with v
    end.
    apply Forall_cons_2; [|apply Forall_nil_2].
    intros _. vm_compute. eauto.
Defined.

Lemma mergeUpdates_again_witness :
  let updates :=
    successful
      (parseMultipleUpdates Node.Date_parse_legacy [Sample.updateMessage]) in
  let once :=
    mergeUpdates Node.Date_parse_legacy Node.resolveUsername
      Sample.seeded updates in
  List.map standing
    (m_players
       (mergeUpdates Node.Date_parse_legacy (fun _ => lit "Renamed")
          {| lastProcessedMessageId := lastMessageId once;
             players := m_players once |} updates))
  = List.map standing (m_players once).
Proof.
  intros updates once.
  pose proof (mergeUpdates_again Node.Date_parse_legacy
                Node.resolveUsername (fun _ => lit "Renamed")
                Sample.seeded updates) as H.
  cbv zeta in H. apply H.
  - vm_compute. repeat constructor. intros Hin. inversion Hin.
  - apply Forall_cons_2; [vm_compute; eauto|apply Forall_nil_2].
  - match goal with
    | |- Forall _ ?l =>
        let v := eval vm_compute in l in change l with v
    end.
    apply Forall_cons_2; [vm_compute; eauto|apply Forall_nil_2].
Defined.

Lemma renderStep_reloads_witness :
  exists text k,
    renderStep Node.Date_parse_legacy Node.toUpperCase Node.toLowerCase
      Node.toLocaleString Node.getCurrentTimestamp
      (lit "valorant") [Sample.turbo] (Some (lit "100")) 0 = Some text
    /\ decodeState text
       = decodeState
           (encodeState (Some (lit "100")) (take k [Sample.turbo])).
Proof.
  eexists.
  match goal with
  | |- exists k, ?r = Some ?text /\ _ =>
      assert (Hr : r = Some text) by (vm_compute; reflexivity);
      destruct (renderStep_reloads Node.Date_parse_legacy Node.toUpperCase
                  Node.toLowerCase Node.toLocaleString
                  Node.getCurrentTimestamp (lit "valorant") [Sample.turbo]
                  (Some (lit "100")) 0%nat text) as (k & Hdec & _);
      [|exact Hr|]
  end.
  - split; [vm_compute; reflexivity|].
    split; [intros n; vm_compute; reflexivity|].
    apply Forall_cons_2; [vm_compute; reflexivity|apply Forall_nil_2].
  - exists k. split; [exact Hr|exact Hdec].
Defined.

Lemma mergeUpdates_order_witness :
  let later :=
    {| msg_id := lit "302";
       msg_content :=
         lit "LB_UPDATE: <@2> Master 2700 Master 2700 2026-02-15";
       msg_createdTimestamp := 9; msg_author := lit "op" |} in
  let updates :=
    successful
      (parseMultipleUpdates Node.Date_parse_legacy
         [Sample.updateMessage; later]) in
  let updates' :=
    successful
      (parseMultipleUpdates Node.Date_parse_legacy
         [later; Sample.updateMessage]) in
  standing
    <$> stored (lit "2")
          (m_players
             (mergeUpdates Node.Date_parse_legacy Node.resolveUsername
                Sample.seeded updates))
  = standing
      <$> stored (lit "2")
            (m_players
               (mergeUpdates Node.Date_parse_legacy
                  (fun _ => lit "Renamed") Sample.seeded updates')).
Proof.
  intros later updates updates'.
  apply (mergeUpdates_order Node.Date_parse_legacy Node.resolveUsername
           (fun _ => lit "Renamed") Sample.seeded updates updates'
           (lit "2")).
  - match goal with
    | |- Permutation ?a ?b =>
        let va := eval vm_compute in a in
        let vb := eval vm_compute in b in
        change (Permutation va vb)
    end.
    apply perm_swap.
  - intros e0 H0. vm_compute in H0. discriminate H0.
  - match goal with
    | |- Forall _ ?l =>
        let v := eval vm_compute in l in change l with v
    end.
    apply Forall_cons_2; [vm_compute; eauto|].
    apply Forall_cons_2; [vm_compute; eauto|apply Forall_nil_2].
  - intros a b Ha Hb.
    assert (Hnone : stored (lit "2") (players Sample.seeded) = None)
      by (vm_compute; reflexivity).
    rewrite Hnone in Ha, Hb.
    destruct Ha as [Ha|Ha]; [discriminate Ha|].
    destruct Hb as [Hb|Hb]; [discriminate Hb|].
    revert Ha Hb.
    match goal with
    | |- In _ ?l -> _ =>
        let v := eval vm_compute in l in change l with v
    end.
    intros [<-|[<-|[]]] [<-|[<-|[]]] H1 H2; try reflexivity.
    + exfalso. apply H1. vm_compute. reflexivity.
    + exfalso. apply H2. vm_compute. reflexivity.
Defined.
